(** * Tournament bracket engine: bracketGenerator (class TournamentBracket)

    A shallow embedding of the single-elimination bracket code: the Match
    documents (Match.js), bracket generation, the two-sided result
    submission, finalisation and winner advancement.

    Conventions of the embedding.
    - The Match collection is a finite map from document ids to documents.
      A document's [_id] is its key: [findById id] yields the document
      stored under [id], and [save] writes the document back under the
      same key.  ObjectIds made by [new mongoose.Types.ObjectId()] are
      modelled by creation indices 0, 1, 2, ...
    - User ids (ObjectIds of User documents, compared through their hex
      strings) are strings; [populate] of a filled slot is taken to
      succeed, so a populated slot is identified with the id it holds.
    - An argument that reaches the class from a request is a value of
      any kind: an id given to findById casts to an ObjectId or does
      not ([IdArg]), a submitter id is a string or is not ([JsValue]).
      The other arguments of submitResult have the kinds that the
      schema of a claim gives them: the claimed winner id is a string,
      the scores are two numbers or absent, the proof is a string or
      absent.
    - The claims of a match are a mongoose Map: [set] refuses keys
      that are no strings, that start with '$', that contain '.', and
      the reserved names ([claims_set]).  A value assigned to a path
      that the schema does not declare is dropped ([Result.t]).
    - [new Date()] is an input: every call that reads the clock takes the
      readings as arguments.
    - The calls are read sequentially, each [await] completing before the
      next statement. *)

From Stdlib Require Import Ascii.
From stdpp Require Import gmap strings list fin_maps sorting.

Set Warnings "-clear-no-such-hyp".

(** ** Data model *)

Abbreviation UserId := string (only parsing).
Abbreviation MatchId := nat (only parsing).
Abbreviation Timestamp := nat (only parsing).

(** status enum of MatchSchema *)
Inductive Status :=
  | pending | scheduled | completed | under_review | dispute
  | awaiting_confirmation.

#[global] Instance Status_eq_dec : EqDecision Status.
Proof. solve_decision. Defined.

(** nextMatchSlot enum of MatchSchema: 'player1' | 'player2' *)
Inductive Slot := slot_player1 | slot_player2.

#[global] Instance Slot_eq_dec : EqDecision Slot.
Proof. solve_decision. Defined.

(** scores: { player1: Number, player2: Number } *)
Record Scores := { score_player1 : Z; score_player2 : Z }.

(** One entry of the claims map, as built in submitResult. *)
Module Claim.
Record t := mk {
  winnerId : UserId;
  scores : option Scores;
  proof : option string;
  timestamp : Timestamp
}.
End Claim.

(** What match.result holds after the assignment in finalizeMatch.
    MatchSchema declares [result.scores] and [result.timestamp] only
    (Match.js l.16-19): the [winner] of the assigned object belongs to no
    path of the schema and is not kept. *)
Module Result.
Record t := mk {
  scores : option Scores;
  timestamp : Timestamp
}.
End Result.

(** A Match document.  An absent claims map ([!match.claims]) is the
    empty map: submitResult replaces it by [new Map()] before use. *)
Module Match.
Record t := mk {
  tournamentId : nat;
  round : nat;
  player1 : option UserId;
  player2 : option UserId;
  winner : option UserId;
  status : Status;
  nextMatchId : option MatchId;
  nextMatchSlot : option Slot;
  result : option Result.t;
  claims : gmap string Claim.t
}.

Definition set_player1 (p : option UserId) (m : t) : t :=
  mk (tournamentId m) (round m) p (player2 m) (winner m) (status m)
     (nextMatchId m) (nextMatchSlot m) (result m) (claims m).
Definition set_player2 (p : option UserId) (m : t) : t :=
  mk (tournamentId m) (round m) (player1 m) p (winner m) (status m)
     (nextMatchId m) (nextMatchSlot m) (result m) (claims m).
Definition set_status (s : Status) (m : t) : t :=
  mk (tournamentId m) (round m) (player1 m) (player2 m) (winner m) s
     (nextMatchId m) (nextMatchSlot m) (result m) (claims m).
Definition set_next (n : MatchId) (s : Slot) (m : t) : t :=
  mk (tournamentId m) (round m) (player1 m) (player2 m) (winner m)
     (status m) (Some n) (Some s) (result m) (claims m).
Definition set_result (r : Result.t) (m : t) : t :=
  mk (tournamentId m) (round m) (player1 m) (player2 m) (winner m)
     (status m) (nextMatchId m) (nextMatchSlot m) (Some r) (claims m).
Definition set_claims (c : gmap string Claim.t) (m : t) : t :=
  mk (tournamentId m) (round m) (player1 m) (player2 m) (winner m)
     (status m) (nextMatchId m) (nextMatchSlot m) (result m) c.
End Match.

(** status of the bracket object ([this.status]) *)
Inductive BracketStatus := active | bracket_completed.

(** status enum of TournamentSchema *)
Inductive TournamentStatus := Open | Closed | Active | Completed.

(** The fields of the Tournament document that the bracket code writes. *)
Module Tournament.
Record t := mk {
  matches : list MatchId;
  rounds : list nat;
  status : TournamentStatus
}.
End Tournament.

(** What the methods of one TournamentBracket read and write: the Match
    collection, the Tournament document and the object's own status. *)
Record World := mkWorld {
  collection : gmap MatchId Match.t;
  tournament : Tournament.t;
  bracket_status : BracketStatus
}.

Definition set_collection (c : gmap MatchId Match.t) (w : World) : World :=
  mkWorld c (tournament w) (bracket_status w).

(** ** Exceptions *)

(** TypeError: reading a property of null, or a Map key that is no
    string.  CastError: an id that is no ObjectId, given to findById.
    MapKeyError: the Error of a mongoose Map for a string it refuses as
    key. *)
Inductive Error := TypeError | CastError | MapKeyError.

Inductive Outcome (A : Type) :=
  | Returned (a : A)
  | Thrown (e : Error).
Arguments Returned {A} a.
Arguments Thrown {A} e.

#[global] Instance Outcome_ret : MRet Outcome := λ A a, Returned a.
#[global] Instance Outcome_bind : MBind Outcome := λ A B k o,
  match o with
  | Returned a => k a
  | Thrown e => Thrown e
  end.

(** ** Arguments that come from a request *)

(** An id given to findById: mongoose casts it to an ObjectId, or fails
    with a CastError.  An id that the code has read from a document is
    an ObjectId. *)
Inductive IdArg := ObjectId (id : MatchId) | Malformed.
Coercion ObjectId : nat >-> IdArg.

(** A value received where the code expects a string: a string, or any
    other value of a JSON body, undefined for an absent field
    included. *)
Inductive JsValue := JsString (s : string) | JsOther.
Coercion JsString : string >-> JsValue.
Bind Scope string_scope with JsValue.

(** ** The keys of a mongoose Map *)

Fixpoint includes_dot (s : string) : bool :=
  match s with
  | EmptyString => false
  | String c rest => Ascii.eqb c "."%char || includes_dot rest
  end.

Definition startsWith_dollar (s : string) : bool :=
  match s with
  | EmptyString => false
  | String c _ => Ascii.eqb c "$"%char
  end.

Definition reserved_name (s : string) : bool :=
  bool_decide (s ∈ ["__proto__"; "constructor"; "prototype"]%string).

(** The strings that [claims.set] accepts as key (mongoose's
    checkValidKey). *)
Definition mongoose_key (k : string) : bool :=
  negb (startsWith_dollar k) && negb (includes_dot k)
  && negb (reserved_name k).

(** [match.claims.set(key, claim)] *)
Definition claims_set (key : JsValue) (claim : Claim.t)
    (claims : gmap string Claim.t) : Outcome (gmap string Claim.t) :=
  match key with
  | JsOther => Thrown TypeError
  | JsString k =>
      if mongoose_key k then Returned (<[k := claim]> claims)
      else Thrown MapKeyError
  end.

(** ** Reading and writing the collection *)

(** getMatch: Match.findById(matchId).populate(...), for an id that is
    an ObjectId. *)
Definition getMatch (w : World) (matchId : MatchId) : option Match.t :=
  collection w !! matchId.

(** doc.save() for the document fetched under [matchId]: the in-memory
    document replaces the stored one.  (Mongoose sends only the modified
    paths; that is the same whenever the stored copy has not changed
    between the load and the save, which is so in every world where no
    match is its own successor, and generateBracket builds no other.) *)
Definition save (matchId : MatchId) (m : Match.t) (w : World) : World :=
  set_collection (<[matchId := m]> (collection w)) w.

(** ** advanceWinner *)

(** [match.player1.id == winnerId ? match.player1 : match.player2]; reading
    [.id] of an empty player1 throws. *)
Definition advancing_player (m : Match.t) (winnerId : UserId)
  : Outcome (option UserId) :=
  match Match.player1 m with
  | None => Thrown TypeError
  | Some p1 =>
      if decide (p1 = winnerId) then Returned (Some p1)
      else Returned (Match.player2 m)
  end.

Definition place (slot : option Slot) (winner : option UserId)
    (nextMatch : Match.t) : Match.t :=
  match slot with
  | Some slot_player1 => Match.set_player1 winner nextMatch
  | Some slot_player2 => Match.set_player2 winner nextMatch
  | None => nextMatch
  end.

Definition both_filled (m : Match.t) : bool :=
  match Match.player1 m, Match.player2 m with
  | Some _, Some _ => true
  | _, _ => false
  end.

Definition schedule_if_filled (nextMatch : Match.t) : Match.t :=
  if both_filled nextMatch then Match.set_status scheduled nextMatch
  else nextMatch.

Definition advanceWinner (w : World) (matchId : MatchId) (winnerId : UserId)
  : Outcome World :=
  match getMatch w matchId with
  | None => Returned w
  | Some m =>
      match Match.nextMatchId m with
      | Some nextId =>
          match getMatch w nextId with
          | Some nextMatch =>
              winner ← advancing_player m winnerId;
              Returned
                (save nextId
                   (schedule_if_filled
                      (place (Match.nextMatchSlot m) winner nextMatch)) w)
          | None => Returned w
          end
      | None =>
          (* Final match *)
          Returned (mkWorld (collection w) (tournament w) bracket_completed)
      end
  end.

(** ** finalizeMatch and submitResult *)

(** finalizeMatch mutates the in-memory document and calls advanceWinner;
    the document itself is saved by the caller.  Of the object assigned
    to match.result the schema keeps the scores and the timestamp (see
    [Result.t]); the winner id goes to advanceWinner only. *)
Definition finalizeMatch (w : World) (matchId : MatchId) (m : Match.t)
    (winnerId : UserId) (scores : option Scores) (now : Timestamp)
  : Outcome (Match.t * World) :=
  let m1 := Match.set_result (Result.mk scores now) m in
  let m2 := Match.set_status completed m1 in
  w' ← advanceWinner w matchId winnerId;
  Returned (m2, w').

(** [match.claims.get(pId)] for [pId = match.playerN?._id.toString()] *)
Definition claim_of (m : Match.t) (p : option UserId) : option Claim.t :=
  p ≫= λ pid, Match.claims m !! pid.

(** The part of submitResult that follows [claims.set]: [m1] is the
    document with the claim recorded. *)
Definition settle (w : World) (matchId : MatchId) (m1 : Match.t)
    (now' : Timestamp) : Outcome (World * option Match.t) :=
  match claim_of m1 (Match.player1 m1), claim_of m1 (Match.player2 m1) with
  | Some claim1, Some claim2 =>
      if decide (Claim.winnerId claim1 = Claim.winnerId claim2) then
        '(m2, w') ← finalizeMatch w matchId m1
                          (Claim.winnerId claim1) (Claim.scores claim1)
                          now';
        Returned (save matchId m2 w', Some m2)
      else
        let m2 := Match.set_status dispute m1 in
        Returned (save matchId m2 w, Some m2)
  | _, _ =>
      let m2 := Match.set_status awaiting_confirmation m1 in
      Returned (save matchId m2 w, Some m2)
  end.

(** submitResult returns the updated document, or null for an unknown id.
    [now] is the clock reading stored in the claim, [now'] the one stored
    in the result when the call finalises the match.  A call that throws
    has written nothing: findById and [claims.set] come before every
    write, and finalizeMatch is reached with both slots filled only,
    where advanceWinner does not throw. *)
Definition submitResult (w : World) (matchId : IdArg) (userId : JsValue)
    (winnerId : UserId) (scores : option Scores) (proof : option string)
    (now now' : Timestamp)
  : Outcome (World * option Match.t) :=
  match matchId with
  | Malformed => Thrown CastError
  | ObjectId id =>
      match getMatch w id with
      | None => Returned (w, None)
      | Some m =>
          claims ← claims_set userId (Claim.mk winnerId scores proof now)
                     (Match.claims m);
          settle w id (Match.set_claims claims m) now'
      end
  end.

(** ** generateBracket *)

(** [Math.ceil(Math.log2(count))], read over the integers: the ceiling of
    the binary logarithm, which is what the floating-point expression
    yields on participant counts (Math.log2 is exact on powers of two and
    stays strictly between two integers otherwise until the count is
    astronomically large). *)
Definition rounds_of (count : nat) : nat := Nat.log2_up count.

(** [Math.pow(2, rounds)]; for an empty list rounds is -Infinity and the
    size is 0. *)
Definition size_of (count : nat) : nat :=
  match count with
  | 0 => 0
  | _ => 2 ^ rounds_of count
  end.

(** Number of iterations of [for (let i = 0; i < size / 2; i++)]. *)
Definition first_round_count (size : nat) : nat := Nat.div2 (S size).

(** The document built in iteration [i] of the first loop. *)
Definition first_round_match (tid : nat) (shuffled : list UserId)
    (size i : nat) : Match.t :=
  let player1 := shuffled !! i in
  let player2 := shuffled !! (size - 1 - i) in
  Match.mk tid 1 player1 player2
    (match player2 with Some _ => None | None => player1 end)
    (match player2 with Some _ => scheduled | None => completed end)
    None None None ∅.

(** The document built for a later round. *)
Definition placeholder (tid r : nat) : Match.t :=
  Match.mk tid r None None None pending None None None ∅.

(** [currentRoundMatches[i].nextMatchId = id; ....nextMatchSlot = slot]:
    the documents of the current round are shared with allMatches, so
    the assignment is an update of allMatches at the document's index. *)
Definition link (a : MatchId) (next : MatchId) (slot : Slot)
    (all : list Match.t) : list Match.t :=
  alter (Match.set_next next slot) a all.

(** The inner loop [for (let i = 0; i < currentRoundMatches.length; i += 2)]
    of round [r]: returns nextRoundMatches and the grown allMatches.  The
    new document's id is its index in allMatches. *)
Fixpoint round_loop (tid r : nat) (cur : list MatchId) (all : list Match.t)
  : list MatchId * list Match.t :=
  match cur with
  | [] => ([], all)
  | a :: rest =>
      let id := length all in
      let all1 := link a id slot_player1 all in
      match rest with
      | [] => ([id], all1 ++ [placeholder tid r])
      | b :: rest' =>
          let all2 := link b id slot_player2 all1 in
          let '(next, all3) :=
            round_loop tid r rest' (all2 ++ [placeholder tid r]) in
          (id :: next, all3)
      end
  end.

(** The outer loop [for (let r = 2; r <= rounds; r++)] with [k] iterations
    still to run. *)
Fixpoint later_rounds (tid k r : nat) (cur : list MatchId)
    (all : list Match.t) : list Match.t :=
  match k with
  | 0 => all
  | S k' =>
      let '(next, all') := round_loop tid r cur all in
      later_rounds tid k' (S r) next all'
  end.

(** [for (const match of allMatches)]: the in-memory documents decide who
    advances; advanceWinner works on the stored ones.  [i] is the id of
    the head of [ms]. *)
Fixpoint advance_byes (w : World) (i : MatchId) (ms : list Match.t)
  : Outcome World :=
  match ms with
  | [] => Returned w
  | m :: rest =>
      match Match.status m, Match.winner m with
      | completed, Some winner =>
          w' ← advanceWinner w i winner;
          advance_byes w' (S i) rest
      | _, _ => advance_byes w (S i) rest
      end
  end.

(** All documents built by the two creation loops, links included. *)
Definition build_matches (tid : nat) (shuffled : list UserId)
  : list Match.t :=
  let count := length shuffled in
  let rounds := rounds_of count in
  let size := size_of count in
  let firstRoundMatches :=
    first_round_match tid shuffled size <$> seq 0 (first_round_count size) in
  later_rounds tid (rounds - 1) 2 (seq 0 (length firstRoundMatches))
    firstRoundMatches.

(** generateBracket.  [shuffled] is the participant list after the random
    sort.  Returns allMatches (the in-memory documents) and the world in
    which they are stored and the byes advanced. *)
Definition generateBracket (tid : nat) (shuffled : list UserId)
  : Outcome (list Match.t * World) :=
  let rounds := rounds_of (length shuffled) in
  let allMatches := build_matches tid shuffled in
  let w0 :=
    mkWorld (map_seq 0 allMatches) (Tournament.mk [] [] Open) active in
  w1 ← advance_byes w0 0 allMatches;
  Returned
    (allMatches,
     mkWorld (collection w1)
       (Tournament.mk (seq 0 (length allMatches)) (seq 1 rounds) Active)
       (bracket_status w1)).

(** ** Specification-side vocabulary *)

(** The status that the consensus rule assigns to a document whose claim
    has just been recorded. *)
Definition status_from_claims (m1 : Match.t) : Status :=
  match claim_of m1 (Match.player1 m1), claim_of m1 (Match.player2 m1) with
  | Some claim1, Some claim2 =>
      if decide (Claim.winnerId claim1 = Claim.winnerId claim2)
      then completed else dispute
  | _, _ => awaiting_confirmation
  end.

(** The slot of a document named by a nextMatchSlot value. *)
Definition slot_of (s : Slot) (m : Match.t) : option UserId :=
  match s with
  | slot_player1 => Match.player1 m
  | slot_player2 => Match.player2 m
  end.

Definition other_slot (s : Slot) : Slot :=
  match s with
  | slot_player1 => slot_player2
  | slot_player2 => slot_player1
  end.

(** One submitResult call, as data. *)
Record Submission := mkSubmission {
  sub_matchId : IdArg;
  sub_userId : JsValue;
  sub_winnerId : UserId;
  sub_scores : option Scores;
  sub_proof : option string;
  sub_now : Timestamp;
  sub_now' : Timestamp
}.

Definition submit (w : World) (s : Submission)
  : Outcome (World * option Match.t) :=
  submitResult w (sub_matchId s) (sub_userId s) (sub_winnerId s)
    (sub_scores s) (sub_proof s) (sub_now s) (sub_now' s).

(** A sequence of submitResult calls, in order, each of which returns:
    the sequence ends at the first call that throws. *)
Fixpoint submitAll (w : World) (subs : list Submission) : Outcome World :=
  match subs with
  | [] => Returned w
  | s :: rest => '(w', _) ← submit w s; submitAll w' rest
  end.

(** What is stored after a call: what the call stored if it returned,
    and what was stored before if it threw. *)
Definition stored_after (w : World) (o : Outcome (World * option Match.t))
  : World :=
  match o with
  | Returned (w', _) => w'
  | Thrown _ => w
  end.

(** A sequence of submitResult calls, in order, made whatever the
    earlier ones did. *)
Definition submitEach (w : World) (subs : list Submission) : World :=
  foldl (λ w s, stored_after w (submit w s)) w subs.

(** The key under which a call records its claim on [matchId], if it
    targets that match with an id that the claims Map accepts. *)
Definition recorded_key (matchId : MatchId) (s : Submission)
  : option string :=
  match sub_matchId s, sub_userId s with
  | ObjectId id, JsString k =>
      if decide (id = matchId) then
        if mongoose_key k then Some k else None
      else None
  | _, _ => None
  end.

(** The submitter ids of the calls that record a claim on [matchId]. *)
Definition submitters (matchId : MatchId) (subs : list Submission)
  : gset string :=
  list_to_set (omap (recorded_key matchId) subs).

(** ** The result route (POST /api/tournament/:id/match/:matchId/result) *)

(** What a variable holds that received the result of an async method
    without [await]: the Promise, not the value it settles to.  The
    handler awaits neither [bracket.getMatch] nor
    [bracket.submitResult]. *)
Inductive Held (A : Type) := Promise (settles_to : Outcome A).
Arguments Promise {A} _.

(** [held.player1?.id] and [held.player2?.id]: a Promise has no property
    [player1] or [player2], so the value is undefined. *)
Definition player1_id {A} (held : Held A) : option string := None.
Definition player2_id {A} (held : Held A) : option string := None.

(** [!held]: a Promise is an object, which is truthy. *)
Definition is_falsy {A} (held : Held A) : bool := false.

(** [isPlayerInMatch] and [isAdmin], over the values the handler reads:
    [p1] and [p2] are the values of [match.player1?.id] and
    [match.player2?.id] (None for undefined), [uid] is
    [req.user._id.toString()], [role] is [req.user.role]. *)
Definition isPlayerInMatch (p1 p2 : option string) (uid : string) : bool :=
  bool_decide (p1 = Some uid) || bool_decide (p2 = Some uid).

Definition isAdmin (role : string) : bool := bool_decide (role = "admin"%string).

(** What the handler does: answer with an error, or call
    [bracket.submitResult] with these three arguments, which the method
    receives as its matchId, userId and winnerId. *)
Inductive RouteDecision :=
  | Reject (code : nat) (error : string)
  | CallSubmitResult (matchId : IdArg) (userId winnerId : JsValue).

(** The handler up to its call of submitResult.  [bracket] tells whether
    tournamentBrackets holds a bracket for the tournament; [winnerId] and
    [scores] are the fields of the request body. *)
Definition result_route (w : World) (bracket : bool) (matchId : IdArg)
    (uid role : string) (winnerId scores : JsValue) : RouteDecision :=
  if negb bracket then Reject 404 "Bracket not found"
  else
    let held :=
      Promise
        match matchId with
        | ObjectId id => Returned (getMatch w id)
        | Malformed => Thrown CastError
        end in
    if is_falsy held then Reject 404 "Match not found"
    else if negb (isPlayerInMatch (player1_id held) (player2_id held) uid)
            && negb (isAdmin role)
    then Reject 403 "Not authorized to submit results"
    else CallSubmitResult matchId winnerId scores.

(** The world after advanceWinner, for a match whose player1 slot holds
    [p1]. *)
Definition advanced (w : World) (m : Match.t) (p1 winnerId : UserId)
  : World :=
  match Match.nextMatchId m with
  | Some nextId =>
      match getMatch w nextId with
      | Some nextMatch =>
          save nextId
            (schedule_if_filled
               (place (Match.nextMatchSlot m)
                  (if decide (p1 = winnerId) then Some p1
                   else Match.player2 m) nextMatch)) w
      | None => w
      end
  | None => mkWorld (collection w) (tournament w) bracket_completed
  end.

(** ** Vocabulary for the bracket builder *)

(** Pairing by position: even positions feed slot player1, odd ones slot
    player2. *)
Definition slot_at (i : nat) : Slot :=
  if Nat.even i then slot_player1 else slot_player2.

(** The effect of one round's linking on the document at index [j], when
    the round's documents are those at indices [base .. base + k - 1] and
    the first new id is [len]. *)
Definition linked (len base k j : nat) (m : Match.t) : Match.t :=
  if decide (base ≤ j < base + k)
  then Match.set_next (len + Nat.div2 (j - base)) (slot_at (j - base)) m
  else m.

(** A document without its link to the next round. *)
Definition unlink (m : Match.t) : Match.t :=
  Match.mk (Match.tournamentId m) (Match.round m) (Match.player1 m)
    (Match.player2 m) (Match.winner m) (Match.status m) None None
    (Match.result m) (Match.claims m).

(** The round numbers of the documents appended by [k] further rounds,
    starting with round [r] over [c] current documents. *)
Fixpoint rounds_tail (k r c : nat) : list nat :=
  match k with
  | 0 => []
  | S k' =>
      replicate (Nat.div2 (S c)) r ++ rounds_tail k' (S r) (Nat.div2 (S c))
  end.

(** Counting the documents of one round. *)
Definition matches_of_round (r : nat) (all : list Match.t) : list Match.t :=
  filter (λ m, Match.round m = r) all.

(** Exactly one of the two slots is empty. *)
Definition one_empty_slot (m : Match.t) : Prop :=
  (Match.player1 m = None ∧ is_Some (Match.player2 m))
  ∨ (is_Some (Match.player1 m) ∧ Match.player2 m = None).

(** No stored match feeds match [i]. *)
Definition no_feeder (i : MatchId) (w : World) : Prop :=
  ∀ j m, getMatch w j = Some m → Match.nextMatchId m ≠ Some i.

Definition not_scheduled (i : MatchId) (w : World) : Prop :=
  ∀ m, getMatch w i = Some m → Match.status m ≠ scheduled.

(** ** Sample inputs *)

(** The four participants of the sample bracket, in shuffled order:
    match 0 pairs positions 0 and 3, match 1 positions 1 and 2. *)
Definition four : list UserId := ["alice"; "carol"; "dave"; "bob"]%string.

(** First-round match 0 of the four-player bracket, alice against bob,
    feeding slot player1 of the final (match 2). *)
Definition duel (s : Status) (r : option Result.t)
    (c : gmap string Claim.t) : Match.t :=
  Match.mk 7 1 (Some "alice"%string) (Some "bob"%string) None s
    (Some 2) (Some slot_player1) r c.

(** First-round match 1, carol against dave, feeding slot player2. *)
Definition other_duel : Match.t :=
  Match.mk 7 1 (Some "carol"%string) (Some "dave"%string) None scheduled
    (Some 2) (Some slot_player2) None ∅.

Definition final (p1 : option UserId) : Match.t :=
  Match.mk 7 2 p1 None None pending None None None ∅.

Definition sample_world (m0 m2 : Match.t) : World :=
  mkWorld {[ 0 := m0; 1 := other_duel; 2 := m2 ]}
    (Tournament.mk [0; 1; 2] [1; 2] Active) active.

(** The bracket as built: nobody has submitted yet. *)
Definition w_scheduled : World :=
  sample_world (duel scheduled None ∅) (final None).

(** alice has claimed her own win. *)
Definition w_awaiting : World :=
  sample_world
    (duel awaiting_confirmation None
       {[ "alice"%string := Claim.mk "alice" None None 1 ]})
    (final None).

(** Both have claimed alice's win: the match is finalised and alice sits
    in the final. *)
Definition m_finalized : Match.t :=
  duel completed (Some (Result.mk None 3))
    {[ "alice"%string := Claim.mk "alice" None None 1;
       "bob"%string := Claim.mk "alice" None None 2 ]}.

Definition w_finalized : World :=
  sample_world m_finalized (final (Some "alice"%string)).

Definition says (who winner : string) (t : Timestamp) : Submission :=
  mkSubmission 0 who winner None None t (S t).

Definition five : list UserId := ["a"; "b"; "c"; "d"; "e"]%string.

(** ** Vocabulary for the further properties *)

(** The fields of a match that no submission writes. *)
Definition skeleton (m : Match.t)
  : nat * nat * option UserId * option MatchId * option Slot :=
  (Match.tournamentId m, Match.round m, Match.winner m,
   Match.nextMatchId m, Match.nextMatchSlot m).

(** Match [m], stored at index [j] of [all], feeds a match of the next
    round that has a larger id. *)
Definition feeds_next (all : list Match.t) (j : nat) (m : Match.t) : Prop :=
  ∃ x, Match.nextMatchId m = Some x
       ∧ is_Some (Match.nextMatchSlot m)
       ∧ j < x
       ∧ (Match.round <$> all) !! x = Some (S (Match.round m)).

(** The first-round slots of [all] read along the fold: the player1 slots
    of matches 0, 1, ..., then the player2 slots of the same matches from
    the last back to the first. *)
Definition seats (count : nat) (all : list Match.t) : list (option UserId) :=
  (Match.player1 <$> take count all)
  ++ reverse (Match.player2 <$> take count all).

(** ** LeaderboardManager (leaderboardManager.js) *)

(** A user id as the leaderboard sees it: the key of the globalStats Map
    and the [userId] field of an entry.  An id is an integer, a string,
    the number NaN (what parseInt yields for a string without leading
    digits), or another value: an object, such as the ObjectId
    [req.user._id] that the registration route passes, or true, false,
    null, undefined.  [KRef i] is such a value, [i] telling which: two
    objects are the same key when they are the same object.  Map compares
    keys by SameValueZero, which on these values is equality. *)
Inductive JsKey := KNum (n : Z) | KStr (s : string) | KNaN | KRef (i : nat).

#[global] Instance JsKey_eq_dec : EqDecision JsKey.
Proof. solve_decision. Defined.

(** [a === b]: equality, except that NaN is not equal to itself. *)
Definition strict_eq (a b : JsKey) : bool :=
  match a with
  | KNaN => false
  | _ => bool_decide (a = b)
  end.

(** An entry of globalStats.  The numbers are integers, as the values
    the server passes are, and they are added as integers: that is the
    program's addition of doubles as long as the numbers and their sums
    are safe integers ([safe_integer]). *)
Module Stats.
Record t := mk {
  userId : JsKey;
  username : string;
  points : Z;
  wins : Z;
  earnings : Z;
  tournamentsPlayed : Z
}.
End Stats.

(** The [stats] argument of updateLeaderboard; None is an absent field. *)
Module StatsUpdate.
Record t := mk {
  username : option string;
  points : option Z;
  wins : option Z;
  earnings : option Z;
  tournamentsPlayed : option Z
}.
End StatsUpdate.

(** An integer that a double holds exactly, with exact sums:
    magnitude at most 2^53. *)
Definition safe_integer (z : Z) : Prop :=
  (- 2 ^ 53 ≤ z ≤ 2 ^ 53)%Z.

(** [acc += x] stays among the safe integers. *)
Definition safe_sum (acc : Z) (x : option Z) : Prop :=
  safe_integer acc ∧ safe_integer (default 0%Z x)
  ∧ safe_integer (acc + default 0%Z x).

(** An update of the entry [current] (zeros if there is none) by [stats]
    that stays among the safe integers in its four numbers. *)
Definition stays_safe (current : option Stats.t) (stats : StatsUpdate.t)
  : Prop :=
  safe_sum (from_option Stats.points 0%Z current) (StatsUpdate.points stats)
  ∧ safe_sum (from_option Stats.wins 0%Z current) (StatsUpdate.wins stats)
  ∧ safe_sum (from_option Stats.earnings 0%Z current)
      (StatsUpdate.earnings stats)
  ∧ safe_sum (from_option Stats.tournamentsPlayed 0%Z current)
      (StatsUpdate.tournamentsPlayed stats).

(** [if (x) ...] for a number field: absent and 0 are falsy. *)
Definition truthy_num (x : option Z) : option Z :=
  match x with
  | Some z => if decide (z = 0%Z) then None else Some z
  | None => None
  end.

(** [if (s) ...] for a string field: absent and the empty string are
    falsy. *)
Definition truthy_str (s : option string) : option string :=
  match s with
  | Some str => if decide (str = ""%string) then None else Some str
  | None => None
  end.

(** [if (x) acc += x] *)
Definition accumulate (acc : Z) (x : option Z) : Z :=
  match truthy_num x with
  | Some z => (acc + z)%Z
  | None => acc
  end.

(** The globalStats Map, in insertion order (the order in which
    [values()] iterates). *)
Definition map_get (k : JsKey) (gs : list (JsKey * Stats.t)) : option Stats.t :=
  snd <$> find (λ kv, bool_decide (kv.1 = k)) gs.

(** [Map.set]: an existing key keeps its place, a new one goes last. *)
Fixpoint map_set (k : JsKey) (v : Stats.t) (gs : list (JsKey * Stats.t))
  : list (JsKey * Stats.t) :=
  match gs with
  | [] => [(k, v)]
  | kv :: rest =>
      if decide (kv.1 = k) then (k, v) :: rest
      else kv :: map_set k v rest
  end.

Definition updateLeaderboard (gs : list (JsKey * Stats.t)) (userId : JsKey)
    (stats : StatsUpdate.t) : list (JsKey * Stats.t) :=
  let current :=
    match map_get userId gs with
    | Some c => c
    | None =>
        Stats.mk userId
          (default "Unknown"%string (truthy_str (StatsUpdate.username stats)))
          0 0 0 0
    end in
  let current :=
    Stats.mk (Stats.userId current)
      (default (Stats.username current)
         (truthy_str (StatsUpdate.username stats)))
      (accumulate (Stats.points current) (StatsUpdate.points stats))
      (accumulate (Stats.wins current) (StatsUpdate.wins stats))
      (accumulate (Stats.earnings current) (StatsUpdate.earnings stats))
      (accumulate (Stats.tournamentsPlayed current)
         (StatsUpdate.tournamentsPlayed stats)) in
  map_set userId current gs.

(** parseInt yields an integer or NaN. *)
Definition number (n : option Z) : JsKey :=
  match n with
  | Some z => KNum z
  | None => KNaN
  end.

(** getUserStats: the stored entry (which has no rank field), or default
    values with rank 0.  [parsed] is the value of [parseInt(userId)]. *)
Definition getUserStats (gs : list (JsKey * Stats.t)) (userId : JsKey)
    (parsed : option Z) : Stats.t * option nat :=
  match map_get (number parsed) gs with
  | Some s => (s, None)
  | None => (Stats.mk userId "Unknown" 0 0 0 0, Some 0)
  end.

(** [{...entry, rank}] *)
Record Ranked := mkRanked { entry : Stats.t; rank : nat }.

(** Insertion of [e] into a list sorted by falling points, before the
    first entry that does not have more points. *)
Fixpoint insert_desc (e : Stats.t) (l : list Stats.t) : list Stats.t :=
  match l with
  | [] => [e]
  | y :: rest =>
      if decide (Stats.points e < Stats.points y)%Z
      then y :: insert_desc e rest
      else e :: y :: rest
  end.

(** [.sort((a, b) => b.points - a.points)]: Array.prototype.sort is
    stable, so the result is the one ordering by falling points that
    keeps entries with equal points in their original order; insertion
    sort computes it. *)
Definition sort_desc (l : list Stats.t) : list Stats.t :=
  foldr insert_desc [] l.

(** [.slice(0, limit)] for an integer limit: a negative limit counts from
    the end. *)
Definition slice0 {A} (limit : Z) (l : list A) : list A :=
  if decide (limit < 0)%Z
  then take (Z.to_nat (Z.max (Z.of_nat (length l) + limit) 0)) l
  else take (Z.to_nat limit) l.

(** getLeaderboard; the timeframe argument is ignored by the code. *)
Definition getLeaderboard (gs : list (JsKey * Stats.t)) (limit : Z)
  : list Ranked :=
  imap (λ index e, mkRanked e (index + 1))
    (slice0 limit (sort_desc (snd <$> gs))).

(** getUserRank: [leaderboard.find(e => e.userId === userId)] over the
    first 10000 entries. *)
Definition getUserRank (gs : list (JsKey * Stats.t)) (userId : JsKey) : nat :=
  match find (λ e, strict_eq (Stats.userId (entry e)) userId)
          (getLeaderboard gs 10000) with
  | Some e => rank e
  | None => 0
  end.

(** What every globalStats Map built by updateLeaderboard satisfies: keys
    are distinct and each entry carries its key as userId. *)
Definition stats_wf (gs : list (JsKey * Stats.t)) : Prop :=
  NoDup (fst <$> gs) ∧ Forall (λ kv, Stats.userId kv.2 = kv.1) gs.

(** A small Map of users with points, as the leaderboard holds it after
    two updates. *)
Definition sample_stats : list (JsKey * Stats.t) :=
  updateLeaderboard
    (updateLeaderboard [] (KStr "alice")
       (StatsUpdate.mk (Some "alice"%string) (Some 25%Z) (Some 1%Z)
          (Some 0%Z) None))
    (KStr "bob")
    (StatsUpdate.mk (Some "bob"%string) (Some 50%Z) (Some 2%Z)
       (Some 0%Z) None).

(** ** SocialManager (socialmanager.js): chat rooms *)

(** A chat message.  The sender id is stored as given and never
    inspected; [U] is the type of such values. *)
Record ChatMessage (U : Type) := mkChatMessage {
  msg_id : nat;
  msg_userId : U;
  msg_message : string;
  msg_type : string;
  msg_timestamp : Timestamp
}.
Arguments mkChatMessage {U} _ _ _ _ _.
Arguments msg_id {U} _.
Arguments msg_userId {U} _.
Arguments msg_message {U} _.
Arguments msg_type {U} _.
Arguments msg_timestamp {U} _.

(** A chat room: [participants] is the Set in insertion order (Set
    compares by SameValueZero, the equality of [U]), [messages] the
    array. *)
Record Room (U : Type) := mkRoom {
  participants : list U;
  messages : list (ChatMessage U)
}.
Arguments mkRoom {U} _ _.
Arguments participants {U} _.
Arguments messages {U} _.

(** [Set.add] *)
Definition set_add {U} `{EqDecision U} (x : U) (s : list U) : list U :=
  if decide (x ∈ s) then s else s ++ [x].

(** joinTournamentChat: the chatRooms Map is keyed by the tournament id,
    a string.  Returns the Map and the room. *)
Definition joinTournamentChat {U} `{EqDecision U}
    (chatRooms : gmap string (Room U)) (tournamentId : string) (userId : U)
  : gmap string (Room U) * Room U :=
  let room := default (mkRoom [] []) (chatRooms !! tournamentId) in
  let room' := mkRoom (set_add userId (participants room)) (messages room) in
  (<[tournamentId := room']> chatRooms, room').

(** sendChatMessage: [type] defaults to 'text' when absent; the history
    is cut to 100 messages by dropping the oldest. *)
Definition sendChatMessage {U} (chatRooms : gmap string (Room U))
    (tournamentId : string) (userId : U) (message : string)
    (type : option string) (now : Timestamp)
  : gmap string (Room U) * option (ChatMessage U) :=
  match chatRooms !! tournamentId with
  | None => (chatRooms, None)
  | Some room =>
      let chatMsg :=
        mkChatMessage (length (messages room) + 1) userId message
          (default "text"%string type) now in
      let pushed := messages room ++ [chatMsg] in
      let kept := if decide (100 < length pushed) then tail pushed
                  else pushed in
      (<[tournamentId := mkRoom (participants room) kept]> chatRooms,
       Some chatMsg)
  end.

(** [.slice(begin)] for an integer [begin]: a negative one counts from
    the end. *)
Definition slice_from {A} (begin : Z) (l : list A) : list A :=
  if decide (begin < 0)%Z
  then drop (Z.to_nat (Z.max (Z.of_nat (length l) + begin) 0)) l
  else drop (Z.to_nat begin) l.

(** getChatHistory: [messages.slice(-limit)] *)
Definition getChatHistory {U} (chatRooms : gmap string (Room U))
    (tournamentId : string) (limit : Z) : list (ChatMessage U) :=
  match chatRooms !! tournamentId with
  | None => []
  | Some room => slice_from (- limit) (messages room)
  end.

(** One sendChatMessage call, as data, and a sequence of them to one
    room. *)
Record Post (U : Type) := mkPost {
  post_userId : U;
  post_message : string;
  post_type : option string;
  post_now : Timestamp
}.
Arguments mkPost {U} _ _ _ _.
Arguments post_userId {U} _.
Arguments post_message {U} _.
Arguments post_type {U} _.
Arguments post_now {U} _.

Fixpoint sendAll {U} (chatRooms : gmap string (Room U))
    (tournamentId : string) (posts : list (Post U))
  : gmap string (Room U) * list (option (ChatMessage U)) :=
  match posts with
  | [] => (chatRooms, [])
  | p :: rest =>
      let '(rooms1, r) :=
        sendChatMessage chatRooms tournamentId (post_userId p)
          (post_message p) (post_type p) (post_now p) in
      let '(rooms2, rs) := sendAll rooms1 tournamentId rest in
      (rooms2, r :: rs)
  end.

(** ** The server's activity log (logActivity) *)

Record Activity := mkActivity {
  act_id : nat;
  act_time : Timestamp;
  act_activity : string;
  act_user : string;
  act_details : string
}.

(** logActivity: the new entry goes to the front; beyond 100 entries the
    last one is dropped. *)
Definition logActivity (activityLog : list Activity) (activity user
    details : string) (now : Timestamp) : list Activity :=
  let entry :=
    mkActivity (length activityLog + 1) now activity user details in
  let unshifted := entry :: activityLog in
  if decide (100 < length unshifted)
  then take (length unshifted - 1) unshifted
  else unshifted.

(** [parseInt(req.query.limit) || 50] of the chat history route:
    [parsed] is the value of parseInt, an integer or NaN. *)
Definition history_limit (parsed : option Z) : Z :=
  match parsed with
  | Some z => if decide (z = 0)%Z then 50%Z else z
  | None => 50%Z
  end.

(** One logActivity call, as data, and a sequence of them. *)
Record LogCall := mkLogCall {
  call_activity : string;
  call_user : string;
  call_details : string;
  call_now : Timestamp
}.

Definition logAll (activityLog : list Activity) (calls : list LogCall)
  : list Activity :=
  foldl (λ log c,
           logActivity log (call_activity c) (call_user c) (call_details c)
             (call_now c))
    activityLog calls.

(** ** Teams (SocialManager) *)

Record Member (U : Type) := mkMember {
  member_userId : U;
  member_role : string;
  member_joinedAt : Timestamp
}.
Arguments mkMember {U} _ _ _.
Arguments member_userId {U} _.
Arguments member_role {U} _.
Arguments member_joinedAt {U} _.

Record Team (U : Type) := mkTeam {
  team_id : nat;
  team_name : string;
  team_description : option string;
  captainId : U;
  members : list (Member U);
  team_createdAt : Timestamp;
  team_wins : Z;
  team_earnings : Z
}.
Arguments mkTeam {U} _ _ _ _ _ _ _ _.
Arguments team_id {U} _.
Arguments team_name {U} _.
Arguments team_description {U} _.
Arguments captainId {U} _.
Arguments members {U} _.
Arguments team_createdAt {U} _.
Arguments team_wins {U} _.
Arguments team_earnings {U} _.

Inductive InviteStatus := invite_pending | invite_accepted.

#[global] Instance InviteStatus_eq_dec : EqDecision InviteStatus.
Proof. solve_decision. Defined.

(** [invite_teamId] is [parseInt(teamId)], an integer or NaN. *)
Record Invite (U : Type) := mkInvite {
  invite_id : nat;
  invite_teamId : option Z;
  invite_teamName : string;
  invite_senderId : U;
  invite_receiverId : U;
  invite_status : InviteStatus;
  invite_timestamp : Timestamp
}.
Arguments mkInvite {U} _ _ _ _ _ _ _.
Arguments invite_id {U} _.
Arguments invite_teamId {U} _.
Arguments invite_teamName {U} _.
Arguments invite_senderId {U} _.
Arguments invite_receiverId {U} _.
Arguments invite_status {U} _.
Arguments invite_timestamp {U} _.

(** The two arrays of the SocialManager that the team functions use. *)
Record Social (U : Type) := mkSocial {
  teams : list (Team U);
  teamInvites : list (Invite U)
}.
Arguments mkSocial {U} _ _.
Arguments teams {U} _.
Arguments teamInvites {U} _.

(** createTeam reads the clock twice: for the captain's joinedAt and for
    createdAt. *)
Definition createTeam {U} (s : Social U) (userId : U) (name : string)
    (description : option string) (joined created : Timestamp)
  : Social U * Team U :=
  let team :=
    mkTeam (length (teams s) + 1) name description userId
      [mkMember userId "captain" joined] created 0 0 in
  (mkSocial (teams s ++ [team]) (teamInvites s), team).

(** How a call ends that can read the identifier [receiverId], which
    neither inviteToTeam nor the module binds. *)
Inductive Completion (A : Type) :=
  | Normal (a : A)
  | ReferenceError.
Arguments Normal {A} a.
Arguments ReferenceError {A}.

(** inviteToTeam.  [teamId_is n] is the test [n == teamId] and
    [strict_eq] the test [===] on user ids.  With no team of that id, or
    a sender who is not its captain, it returns null; otherwise the
    object literal of the invite is evaluated, field by field, and the
    field [receiverId] reads the unbound identifier: the call throws
    before [teamInvites.push]. *)
Definition inviteToTeam {U} (strict_eq : U → U → bool) (s : Social U)
    (teamId_is : nat → bool) (senderId inviteeId : U)
  : Completion (Social U * option (Invite U)) :=
  match find (λ t, teamId_is (team_id t)) (teams s) with
  | None => Normal (s, None)
  | Some team =>
      if negb (strict_eq (captainId team) senderId) then Normal (s, None)
      else ReferenceError
  end.

(** The object that [find] returned is the array's element: a change to
    it is a change of the first element that passes the test. *)
Fixpoint update_first {A} (test : A → bool) (f : A → A) (l : list A)
  : list A :=
  match l with
  | [] => []
  | x :: rest =>
      if test x then f x :: rest else x :: update_first test f rest
  end.

(** What acceptTeamInvite returns: null, undefined (no team of the
    invite's teamId), or the team. *)
Inductive Accepted (U : Type) :=
  | accept_null
  | accept_undefined
  | accept_team (t : Team U).
Arguments accept_null {U}.
Arguments accept_undefined {U}.
Arguments accept_team {U} t.

(** acceptTeamInvite.  [inviteId_is n] is the test [n == inviteId] and
    [userId_is u] the test [u == userId]. *)
Definition acceptTeamInvite {U} (s : Social U) (inviteId_is : nat → bool)
    (userId_is : U → bool) (userId : U) (now : Timestamp)
  : Social U * Accepted U :=
  let wanted (i : Invite U) :=
    inviteId_is (invite_id i) && userId_is (invite_receiverId i)
    && bool_decide (invite_status i = invite_pending) in
  match find wanted (teamInvites s) with
  | None => (s, accept_null)
  | Some invite =>
      let invites' :=
        update_first wanted
          (λ i, mkInvite (invite_id i) (invite_teamId i) (invite_teamName i)
                  (invite_senderId i) (invite_receiverId i) invite_accepted
                  (invite_timestamp i))
          (teamInvites s) in
      let of_invite (t : Team U) :=
        bool_decide (Some (Z.of_nat (team_id t)) = invite_teamId invite) in
      let join (t : Team U) :=
        mkTeam (team_id t) (team_name t) (team_description t) (captainId t)
          (members t ++ [mkMember userId "member" now]) (team_createdAt t)
          (team_wins t) (team_earnings t) in
      match find of_invite (teams s) with
      | None => (mkSocial (teams s) invites', accept_undefined)
      | Some team =>
          (mkSocial (update_first of_invite join (teams s)) invites',
           accept_team (join team))
      end
  end.

(** The calls of the three team routes, as data, and what each
    answered. *)
Inductive TeamCall (U : Type) :=
  | CreateTeam (userId : U) (name : string) (description : option string)
      (joined created : Timestamp)
  | InviteToTeam (teamId_is : nat → bool) (senderId inviteeId : U)
  | AcceptTeamInvite (inviteId_is : nat → bool) (userId_is : U → bool)
      (userId : U) (now : Timestamp).
Arguments CreateTeam {U} _ _ _ _ _.
Arguments InviteToTeam {U} _ _ _.
Arguments AcceptTeamInvite {U} _ _ _ _.

Inductive TeamAnswer (U : Type) :=
  | created (t : Team U)
  | invited (c : Completion (option (Invite U)))
  | answered (a : Accepted U).
Arguments created {U} t.
Arguments invited {U} c.
Arguments answered {U} a.

(** One call on the manager; a call that throws leaves the arrays as
    they were (inviteToTeam writes nothing before it throws). *)
Definition team_call {U} (strict_eq : U → U → bool) (s : Social U)
    (c : TeamCall U) : Social U * TeamAnswer U :=
  match c with
  | CreateTeam userId name description joined created_at =>
      let '(s', t) := createTeam s userId name description joined created_at in
      (s', created t)
  | InviteToTeam teamId_is senderId inviteeId =>
      match inviteToTeam strict_eq s teamId_is senderId inviteeId with
      | Normal (s', r) => (s', invited (Normal r))
      | ReferenceError => (s, invited ReferenceError)
      end
  | AcceptTeamInvite inviteId_is userId_is userId now =>
      let '(s', a) := acceptTeamInvite s inviteId_is userId_is userId now in
      (s', answered a)
  end.

Fixpoint team_calls {U} (strict_eq : U → U → bool) (s : Social U)
    (calls : list (TeamCall U)) : Social U * list (TeamAnswer U) :=
  match calls with
  | [] => (s, [])
  | c :: rest =>
      let '(s1, a) := team_call strict_eq s c in
      let '(s2, answers) := team_calls strict_eq s1 rest in
      (s2, a :: answers)
  end.

(** The teams that a sequence of calls asks to create, with the ids they
    get when [n] teams exist already. *)
Fixpoint teams_asked {U} (n : nat) (calls : list (TeamCall U))
  : list (Team U) :=
  match calls with
  | [] => []
  | CreateTeam userId name description joined created_at :: rest =>
      mkTeam (n + 1) name description userId
        [mkMember userId "captain" joined] created_at 0 0
      :: teams_asked (n + 1) rest
  | _ :: rest => teams_asked n rest
  end.

(** No invite in an answer, and no team from an accept. *)
Definition fruitless {U} (a : TeamAnswer U) : Prop :=
  match a with
  | created _ => True
  | invited (Normal (Some _)) => False
  | invited _ => True
  | answered accept_null => True
  | answered _ => False
  end.

(** A chat room that one user has joined, and two messages to it. *)
Definition sample_rooms : gmap string (Room string) :=
  (joinTournamentChat ∅ "t1"%string "ann"%string).1.

Definition sample_posts : list (Post string) :=
  [mkPost "ann"%string "hello"%string None 5;
   mkPost "bob"%string "gg"%string (Some "emote"%string) 6].

(** ** Friends (SocialManager) *)

(** A friend request; the status is 'pending' or 'accepted', as for an
    invite. *)
Record FriendRequest (U : Type) := mkRequest {
  request_id : nat;
  request_senderId : U;
  request_receiverId : U;
  request_status : InviteStatus;
  request_timestamp : Timestamp
}.
Arguments mkRequest {U} _ _ _ _ _.
Arguments request_id {U} _.
Arguments request_senderId {U} _.
Arguments request_receiverId {U} _.
Arguments request_status {U} _.
Arguments request_timestamp {U} _.

Record Friendship (U : Type) := mkFriendship {
  userId1 : U;
  userId2 : U;
  since : Timestamp
}.
Arguments mkFriendship {U} _ _ _.
Arguments userId1 {U} _.
Arguments userId2 {U} _.
Arguments since {U} _.

(** The two arrays of the SocialManager that the friend functions use. *)
Record Friends (U : Type) := mkFriends {
  friendRequests : list (FriendRequest U);
  friends : list (Friendship U)
}.
Arguments mkFriends {U} _ _.
Arguments friendRequests {U} _.
Arguments friends {U} _.

(** The test of sendFriendRequest's [find]: a request between the two
    users, in either direction.  [strict_eq] is [===] on user ids. *)
Definition same_pair {U} (strict_eq : U → U → bool) (senderId receiverId : U)
    (r : FriendRequest U) : bool :=
  (strict_eq (request_senderId r) senderId
   && strict_eq (request_receiverId r) receiverId)
  || (strict_eq (request_senderId r) receiverId
      && strict_eq (request_receiverId r) senderId).

Definition sendFriendRequest {U} (strict_eq : U → U → bool) (s : Friends U)
    (senderId receiverId : U) (now : Timestamp)
  : Friends U * option (FriendRequest U) :=
  if strict_eq senderId receiverId then (s, None)
  else
    match find (same_pair strict_eq senderId receiverId) (friendRequests s) with
    | Some _ => (s, None)
    | None =>
        let request :=
          mkRequest (length (friendRequests s) + 1) senderId receiverId
            invite_pending now in
        (mkFriends (friendRequests s ++ [request]) (friends s), Some request)
    end.

Definition accept {U} (r : FriendRequest U) : FriendRequest U :=
  mkRequest (request_id r) (request_senderId r) (request_receiverId r)
    invite_accepted (request_timestamp r).

(** acceptFriendRequest.  [requestId_is n] is the test [n == requestId]
    and [userId_is u] the test [u == userId]. *)
Definition acceptFriendRequest {U} (s : Friends U)
    (requestId_is : nat → bool) (userId_is : U → bool) (now : Timestamp)
  : Friends U * option (FriendRequest U) :=
  let wanted (r : FriendRequest U) :=
    requestId_is (request_id r) && userId_is (request_receiverId r)
    && bool_decide (request_status r = invite_pending) in
  match find wanted (friendRequests s) with
  | None => (s, None)
  | Some request =>
      (mkFriends (update_first wanted accept (friendRequests s))
         (friends s
          ++ [mkFriendship (request_senderId request)
                (request_receiverId request) now]),
       Some (accept request))
  end.

(** The calls of the two friend routes, as data. *)
Inductive FriendCall (U : Type) :=
  | SendFriendRequest (senderId receiverId : U) (now : Timestamp)
  | AcceptFriendRequest (requestId_is : nat → bool) (userId_is : U → bool)
      (now : Timestamp).
Arguments SendFriendRequest {U} _ _ _.
Arguments AcceptFriendRequest {U} _ _ _.

Definition friend_call {U} (strict_eq : U → U → bool) (s : Friends U)
    (c : FriendCall U) : Friends U :=
  match c with
  | SendFriendRequest senderId receiverId now =>
      (sendFriendRequest strict_eq s senderId receiverId now).1
  | AcceptFriendRequest requestId_is userId_is now =>
      (acceptFriendRequest s requestId_is userId_is now).1
  end.

Definition friend_calls {U} (strict_eq : U → U → bool) (s : Friends U)
    (calls : list (FriendCall U)) : Friends U :=
  foldl (friend_call strict_eq) s calls.

(** What the friend functions keep true of the two arrays. *)
Definition friends_inv {U} (strict_eq : U → U → bool) (s : Friends U)
  : Prop :=
  request_id <$> friendRequests s = seq 1 (length (friendRequests s))
  ∧ (∀ r, r ∈ friendRequests s →
          strict_eq (request_senderId r) (request_receiverId r) = false)
  ∧ (∀ i j earlier later,
       i < j →
       friendRequests s !! i = Some earlier →
       friendRequests s !! j = Some later →
       same_pair strict_eq (request_senderId later)
         (request_receiverId later) earlier = false)
  ∧ (λ f, (userId1 f, userId2 f)) <$> friends s
    ≡ₚ (λ r, (request_senderId r, request_receiverId r))
       <$> filter (λ r, request_status r = invite_accepted)
             (friendRequests s).

(** * Properties *)

(** ** advanceWinner *)

Section advance.
Context (w : World) (matchId : MatchId) (m : Match.t).
Hypothesis Hm : getMatch w matchId = Some m.

Lemma advanceWinner_player1 p1 winnerId :
  Match.player1 m = Some p1 →
  advanceWinner w matchId winnerId = Returned (advanced w m p1 winnerId).
Proof using Hm.
  intros Hp. unfold advanceWinner, advanced, advancing_player.
  rewrite Hm, Hp.
  destruct (Match.nextMatchId m) as [nid|]; [|done].
  destruct (getMatch w nid); [|done].
  by destruct (decide (p1 = winnerId)).
Qed.

Lemma advanceWinner_final winnerId :
  Match.nextMatchId m = None →
  advanceWinner w matchId winnerId =
    Returned (mkWorld (collection w) (tournament w) bracket_completed).
Proof using Hm. intros Hn. unfold advanceWinner. by rewrite Hm, Hn. Qed.
End advance.

Lemma advanced_tournament w m p1 winnerId :
  tournament (advanced w m p1 winnerId) = tournament w.
Proof.
  unfold advanced.
  destruct (Match.nextMatchId m); [|done]. by destruct (getMatch w _).
Qed.

Lemma schedule_if_filled_claims nm :
  Match.claims (schedule_if_filled nm) = Match.claims nm.
Proof. unfold schedule_if_filled. by destruct (both_filled nm). Qed.

Lemma place_claims s p nm : Match.claims (place s p nm) = Match.claims nm.
Proof. by destruct s as [[]|]. Qed.

(** advanceWinner never touches a claims map. *)
Lemma advanced_claims w m p1 winnerId j :
  Match.claims <$> getMatch (advanced w m p1 winnerId) j
  = Match.claims <$> getMatch w j.
Proof.
  unfold advanced.
  destruct (Match.nextMatchId m) as [nid|]; [|done].
  destruct (getMatch w nid) as [nm|] eqn:Hn; [|done].
  unfold getMatch, save in *. simpl.
  destruct (decide (nid = j)) as [->|Hne].
  - rewrite lookup_insert_eq, Hn. simpl.
    by rewrite schedule_if_filled_claims, place_claims.
  - by rewrite lookup_insert_ne.
Qed.

(** ** submitResult *)

Section submit.
Context (w : World) (matchId : MatchId) (m : Match.t).
Context (userId winnerId : UserId) (scores : option Scores)
        (proof : option string) (now now' : Timestamp).
Hypothesis Hm : getMatch w matchId = Some m.
Hypothesis Hkey : mongoose_key userId = true.

Let m1 :=
  Match.set_claims
    (<[userId := Claim.mk winnerId scores proof now]> (Match.claims m)) m.

(** The three branches of submitResult, one equation each. *)
Lemma submitResult_waiting :
  status_from_claims m1 = awaiting_confirmation →
  submitResult w matchId userId winnerId scores proof now now' =
    Returned (save matchId (Match.set_status awaiting_confirmation m1) w,
              Some (Match.set_status awaiting_confirmation m1)).
Proof using Hm Hkey.
  unfold submitResult, claims_set, settle, status_from_claims.
  rewrite Hm, Hkey. cbn [mbind Outcome_bind]. fold m1.
  destruct (claim_of m1 (Match.player1 m1)) as [c1|]; [|done].
  destruct (claim_of m1 (Match.player2 m1)) as [c2|]; [|done].
  by destruct (decide (Claim.winnerId c1 = Claim.winnerId c2)).
Qed.

Lemma submitResult_dispute :
  status_from_claims m1 = dispute →
  submitResult w matchId userId winnerId scores proof now now' =
    Returned (save matchId (Match.set_status dispute m1) w,
              Some (Match.set_status dispute m1)).
Proof using Hm Hkey.
  unfold submitResult, claims_set, settle, status_from_claims.
  rewrite Hm, Hkey. cbn [mbind Outcome_bind]. fold m1.
  destruct (claim_of m1 (Match.player1 m1)) as [c1|]; [|done].
  destruct (claim_of m1 (Match.player2 m1)) as [c2|]; [|done].
  by destruct (decide (Claim.winnerId c1 = Claim.winnerId c2)).
Qed.

Lemma submitResult_consensus p1 claim1 :
  status_from_claims m1 = completed →
  Match.player1 m = Some p1 →
  Match.claims m1 !! p1 = Some claim1 →
  let m2 :=
    Match.set_status completed
      (Match.set_result
         (Result.mk (Claim.scores claim1) now')
         m1) in
  submitResult w matchId userId winnerId scores proof now now' =
    Returned
      (save matchId m2 (advanced w m p1 (Claim.winnerId claim1)), Some m2).
Proof using Hm Hkey.
  unfold submitResult, claims_set, settle, status_from_claims.
  rewrite Hm, Hkey. cbn [mbind Outcome_bind]. fold m1.
  intros Hs Hp1 Hc1. revert Hs.
  assert (claim_of m1 (Match.player1 m1) = Some claim1) as ->.
  { unfold claim_of. simpl. by rewrite Hp1. }
  destruct (claim_of m1 (Match.player2 m1)) as [c2|]; [|done].
  destruct (decide (Claim.winnerId claim1 = Claim.winnerId c2)); [|done].
  unfold finalizeMatch.
  by rewrite (advanceWinner_player1 w matchId m Hm p1).
Qed.

(** Whatever the branch, the call returns the document it stored, with
    the claim recorded and the status given by the claims alone. *)
Lemma submitResult_found :
  ∃ w' m',
    submitResult w matchId userId winnerId scores proof now now'
      = Returned (w', Some m')
    ∧ getMatch w' matchId = Some m'
    ∧ Match.claims m' = Match.claims m1
    ∧ Match.status m' = status_from_claims m1
    ∧ Match.winner m' = Match.winner m
    ∧ tournament w' = tournament w
    ∧ (∀ j, j ≠ matchId →
         Match.claims <$> getMatch w' j = Match.claims <$> getMatch w j)
    ∧ (status_from_claims m1 = completed →
         ∃ p1 claim1,
           Match.player1 m = Some p1
           ∧ Match.claims m1 !! p1 = Some claim1
           ∧ w' = save matchId m' (advanced w m p1 (Claim.winnerId claim1)))
    ∧ (status_from_claims m1 ≠ completed → w' = save matchId m' w).
Proof using Hm Hkey.
  destruct (status_from_claims m1) eqn:Hs.
  1,2,4: exfalso; revert Hs; unfold status_from_claims;
    repeat case_match; done.
  - (* completed *)
    assert (∃ p1 c1, Match.player1 m = Some p1
                     ∧ Match.claims m1 !! p1 = Some c1) as (p1&c1&Hp&Hc).
    { revert Hs. unfold status_from_claims, claim_of. simpl.
      destruct (Match.player1 m) as [p1|]; simpl; [|done].
      destruct (_ !! p1) as [c1|] eqn:Hc; [|done]. eauto. }
    eexists _, _. split; [by apply (submitResult_consensus p1 c1)|].
    unfold getMatch, save. simpl. rewrite lookup_insert_eq.
    split; [done|]. split; [done|]. split; [done|]. split; [done|].
    split; [apply advanced_tournament|]. split; [|split].
    + intros j Hj. rewrite lookup_insert_ne by done.
      apply advanced_claims.
    + intros _. by exists p1, c1.
    + done.
  - (* dispute *)
    eexists _, _. split; [by apply submitResult_dispute|].
    unfold getMatch, save. simpl. rewrite lookup_insert_eq.
    repeat split; try done.
    intros j Hj. by rewrite lookup_insert_ne.
  - (* awaiting_confirmation *)
    eexists _, _. split; [by apply submitResult_waiting|].
    unfold getMatch, save. simpl. rewrite lookup_insert_eq.
    repeat split; try done.
    intros j Hj. by rewrite lookup_insert_ne.
Qed.
End submit.

(** The outcome of a call, by its arguments. *)
Lemma submitResult_malformed w userId winnerId scores proof now now' :
  submitResult w Malformed userId winnerId scores proof now now'
  = Thrown CastError.
Proof. done. Qed.

Lemma submitResult_unknown w (matchId : MatchId) userId winnerId scores proof
    now now' :
  getMatch w matchId = None →
  submitResult w matchId userId winnerId scores proof now now'
  = Returned (w, None).
Proof. intros Hm. unfold submitResult. by rewrite Hm. Qed.

Lemma submitResult_not_string w (matchId : MatchId) m winnerId scores proof
    now now' :
  getMatch w matchId = Some m →
  submitResult w matchId JsOther winnerId scores proof now now'
  = Thrown TypeError.
Proof. intros Hm. unfold submitResult. by rewrite Hm. Qed.

Lemma submitResult_refused w (matchId : MatchId) m (userId : string) winnerId
    scores proof now now' :
  getMatch w matchId = Some m →
  mongoose_key userId = false →
  submitResult w matchId userId winnerId scores proof now now'
  = Thrown MapKeyError.
Proof.
  intros Hm Hkey. unfold submitResult, claims_set. by rewrite Hm, Hkey.
Qed.

(** A call changes the keys of the claims of [matchId] by the key it
    records there, if any. *)
Lemma submit_claims_dom w s matchId m :
  getMatch w matchId = Some m →
  ∃ m',
    getMatch (stored_after w (submit w s)) matchId = Some m'
    ∧ dom (Match.claims m') =
        dom (Match.claims m)
        ∪ (match recorded_key matchId s with
           | Some k => {[k]}
           | None => ∅
           end).
Proof.
  intros Hm. unfold submit, recorded_key.
  destruct s as [[mid|] [u|] wi sc pf t t']; cbn [sub_matchId sub_userId
    sub_winnerId sub_scores sub_proof sub_now sub_now'].
  - destruct (getMatch w mid) as [m0|] eqn:Hm0; cycle 1.
    { rewrite submitResult_unknown by done. exists m. split; [done|].
      destruct (decide (mid = matchId)) as [->|]; [congruence|set_solver]. }
    destruct (mongoose_key u) eqn:Hkey; cycle 1.
    { rewrite (submitResult_refused w mid m0) by done. exists m.
      split; [done|]. destruct (decide (mid = matchId)); set_solver. }
    destruct (decide (mid = matchId)) as [->|Hne].
    + destruct (submitResult_found w matchId m u wi sc pf t t' Hm Hkey)
        as (w'&m'&Hr&Hg&Hc&_).
      rewrite Hr. exists m'. split; [done|].
      rewrite Hc. simpl. rewrite dom_insert_L. set_solver.
    + destruct (submitResult_found w mid m0 u wi sc pf t t' Hm0 Hkey)
        as (w'&m'&Hr&_&_&_&_&_&Hother&_).
      rewrite Hr. cbn [stored_after].
      specialize (Hother matchId (not_eq_sym Hne)). rewrite Hm in Hother.
      destruct (getMatch w' matchId) as [m''|] eqn:Hm''; [|done].
      exists m''. split; [done|].
      simpl in Hother. injection Hother as ->. set_solver.
  - destruct (getMatch w mid) as [m0|] eqn:Hm0.
    + rewrite (submitResult_not_string w mid m0) by done.
      exists m. split; [done|set_solver].
    + rewrite submitResult_unknown by done.
      exists m. split; [done|set_solver].
  - exists m. split; [done|set_solver].
  - exists m. split; [done|set_solver].
Qed.

Lemma submitters_cons matchId s subs :
  submitters matchId (s :: subs) =
    (match recorded_key matchId s with
     | Some k => {[k]}
     | None => ∅
     end)
    ∪ submitters matchId subs.
Proof.
  unfold submitters. cbn [omap list_omap].
  destruct (recorded_key matchId s); [|set_solver].
  by rewrite list_to_set_cons.
Qed.

Lemma submitEach_claims_dom subs : ∀ w matchId m,
  getMatch w matchId = Some m →
  ∃ m',
    getMatch (submitEach w subs) matchId = Some m'
    ∧ dom (Match.claims m') = dom (Match.claims m) ∪ submitters matchId subs.
Proof.
  induction subs as [|s subs IH]; intros w matchId m Hm.
  - exists m. split; [done|]. unfold submitters. set_solver.
  - destruct (submit_claims_dom w s matchId m Hm) as (m1&Hg&Hd).
    destruct (IH _ matchId m1 Hg) as (m'&Hg'&Hd').
    exists m'. split; [exact Hg'|].
    rewrite Hd', Hd, submitters_cons. set_solver.
Qed.

(** A sequence in which every call returns stores what the calls made
    one by one store. *)
Lemma submitAll_submitEach subs : ∀ w w',
  submitAll w subs = Returned w' → w' = submitEach w subs.
Proof.
  induction subs as [|s subs IH]; intros w w'; cbn [submitAll].
  - by intros [= <-].
  - destruct (submit w s) as [[w1 r]|e] eqn:Hs; [|done].
    cbn [mbind Outcome_bind]. intros Hrest.
    rewrite (IH w1 w' Hrest). unfold submitEach. cbn [foldl].
    by rewrite Hs.
Qed.

(** ** The sample worlds are reachable *)

(** [w_scheduled] is what generateBracket stores for [four]; alice's claim
    leads to [w_awaiting] and bob's confirmation to [w_finalized]. *)
Lemma sample_worlds_reached :
  (∃ allMatches, generateBracket 7 four = Returned (allMatches, w_scheduled))
  ∧ (∃ m, submitResult w_scheduled 0 "alice" "alice" None None 1 2
          = Returned (w_awaiting, Some m))
  ∧ submitResult w_awaiting 0 "bob" "alice" None None 2 3
    = Returned (w_finalized, Some m_finalized).
Proof.
  split; [|split].
  - eexists. vm_compute. reflexivity.
  - eexists. vm_compute. reflexivity.
  - vm_compute. reflexivity.
Qed.

(** ** Claims about result submission *)




(** C2, at the failing input.  In [w_awaiting] alice has claimed her own
    win; bob now confirms it.  The match is finalised (result set, to the
    scores and the clock reading; status completed; alice placed in the
    final) but finalizeMatch never assigns the winner field, which stays
    empty. *)
Theorem consensus_leaves_winner_empty :
  ∃ w' m',
    submitResult w_awaiting 0 "bob" "alice" None None 2 3
      = Returned (w', Some m')
    ∧ getMatch w' 0 = Some m'
    ∧ Match.status m' = completed
    ∧ Match.result m' = Some (Result.mk None 3)
    ∧ (Match.player1 <$> getMatch w' 2) = Some (Some "alice"%string)
    ∧ Match.winner m' = None.
Proof.
  eexists _, _. split; [vm_compute; reflexivity|].
  repeat split; reflexivity.
Qed.




(** C4.  When, with the new claim recorded, both slot players have claims
    and the two name different winners, the stored match gets status
    dispute, its winner field is what it was (empty if it was empty), and
    nothing else in the world changes: no other match, in particular not
    the successor, and not the bracket status.  (The new claim is
    recorded when the Map accepts the submitter's id as key; with a
    string that it refuses the call throws and stores nothing.) *)
Theorem disagreement_is_dispute w matchId m userId winnerId scores proof
    now now' p1 p2 claim1 claim2 :
  let claims' :=
    <[userId := Claim.mk winnerId scores proof now]> (Match.claims m) in
  getMatch w matchId = Some m →
  Match.player1 m = Some p1 →
  Match.player2 m = Some p2 →
  claims' !! p1 = Some claim1 →
  claims' !! p2 = Some claim2 →
  Claim.winnerId claim1 ≠ Claim.winnerId claim2 →
  (mongoose_key userId = true →
   ∃ w' m',
     submitResult w matchId userId winnerId scores proof now now'
       = Returned (w', Some m')
     ∧ getMatch w' matchId = Some m'
     ∧ Match.status m' = dispute
     ∧ Match.winner m' = Match.winner m
     ∧ (Match.winner m = None → Match.winner m' = None)
     ∧ Match.claims m' = claims'
     ∧ (∀ j, j ≠ matchId → getMatch w' j = getMatch w j)
     ∧ bracket_status w' = bracket_status w
     ∧ tournament w' = tournament w)
  ∧ (mongoose_key userId = false →
     submitResult w matchId userId winnerId scores proof now now'
       = Thrown MapKeyError).
Proof.
  intros claims' Hm Hp1 Hp2 Hc1 Hc2 Hne.
  split; [|by apply (submitResult_refused w matchId m)]. intros Hkey.
  eexists _, _. split.
  { apply submitResult_dispute; [done|done|].
    unfold status_from_claims, claim_of. simpl. rewrite Hp1, Hp2. simpl.
    fold claims'. rewrite Hc1, Hc2. by rewrite decide_False. }
  unfold getMatch, save. simpl. rewrite lookup_insert_eq.
  repeat split; try done.
  intros j Hj. by rewrite lookup_insert_ne.
Qed.

Lemma disagreement_is_dispute_witness :
  ∃ w' m',
    submitResult w_awaiting 0 "bob" "bob" None None 2 3
      = Returned (w', Some m')
    ∧ getMatch w' 0 = Some m'
    ∧ Match.status m' = dispute
    ∧ Match.winner m' = None
    ∧ (∀ j, j ≠ 0 → getMatch w' j = getMatch w_awaiting j).
Proof.
  destruct (proj1 (disagreement_is_dispute w_awaiting 0
              (duel awaiting_confirmation None
                 {[ "alice"%string := Claim.mk "alice" None None 1 ]})
              "bob" "bob" None None 2 3 "alice" "bob"
              (Claim.mk "alice" None None 1) (Claim.mk "bob" None None 2)
              eq_refl eq_refl eq_refl eq_refl eq_refl
              ltac:(discriminate)) eq_refl)
    as (w'&m'&Hr&Hg&Hs&Hw&_&_&Hj&_).
  exists w', m'. repeat split; assumption.
Defined.

(** C8.  For a stored match without nextMatchId, advanceWinner returns
    normally, sets the bracket object's status to completed and leaves the
    Match collection and the Tournament document exactly as they were. *)
Theorem advance_final_only_sets_status w matchId m winnerId :
  getMatch w matchId = Some m →
  Match.nextMatchId m = None →
  ∃ w',
    advanceWinner w matchId winnerId = Returned w'
    ∧ bracket_status w' = bracket_completed
    ∧ collection w' = collection w
    ∧ tournament w' = tournament w.
Proof.
  intros Hm Hn. eexists. split; [by apply (advanceWinner_final w matchId m)|].
  done.
Qed.

Lemma advance_final_only_sets_status_witness :
  ∃ w',
    advanceWinner w_finalized 2 "alice" = Returned w'
    ∧ bracket_status w' = bracket_completed
    ∧ collection w' = collection w_finalized
    ∧ tournament w' = tournament w_finalized.
Proof.
  apply (advance_final_only_sets_status w_finalized 2
           (final (Some "alice"%string))); reflexivity.
Defined.




(** ** Bracket construction *)

Lemma linked_in len base k j m :
  base ≤ j < base + k →
  linked len base k j m
  = Match.set_next (len + Nat.div2 (j - base)) (slot_at (j - base)) m.
Proof. intros. unfold linked. by rewrite decide_True. Qed.

Lemma linked_out len base k j m :
  ¬ (base ≤ j < base + k) → linked len base k j m = m.
Proof. intros. unfold linked. by rewrite decide_False. Qed.

Lemma round_loop_spec tid r k : ∀ base all,
  base + k ≤ length all →
  let res := round_loop tid r (seq base k) all in
  res.1 = seq (length all) (Nat.div2 (S k))
  ∧ length res.2 = length all + Nat.div2 (S k)
  ∧ (∀ j, j < length all →
       res.2 !! j = linked (length all) base k j <$> all !! j)
  ∧ (∀ j, length all ≤ j → j < length res.2 →
       res.2 !! j = Some (placeholder tid r)).
Proof.
  induction k as [k IH] using lt_wf_ind. intros base all Hlen.
  destruct k as [|[|k]]; simpl.
  - split; [done|]. split; [lia|]. split; [|intros; lia].
    intros j Hj. destruct (all !! j) as [m|]; [|done]. simpl.
    by rewrite linked_out by lia.
  - unfold link. rewrite length_app, length_alter. simpl.
    split; [done|]. split; [lia|]. split.
    + intros j Hj. rewrite lookup_app_l by (rewrite length_alter; lia).
      destruct (decide (base = j)) as [->|Hne].
      * rewrite list_lookup_alter_eq.
        destruct (all !! j) as [m|]; [|done]. simpl.
        rewrite linked_in by lia. by rewrite Nat.sub_diag, Nat.add_0_r.
      * rewrite list_lookup_alter_ne by done.
        destruct (all !! j) as [m|]; [|done]. simpl.
        by rewrite linked_out by lia.
    + intros j Hj1 Hj2. replace j with (length all) by lia.
      rewrite lookup_app_r by (rewrite length_alter; lia).
      by rewrite length_alter, Nat.sub_diag.
  - set (all2 := link (S base) (length all) slot_player2
                   (link base (length all) slot_player1 all)).
    assert (length all2 = length all) as Hl2.
    { unfold all2, link. by rewrite !length_alter. }
    specialize (IH k ltac:(lia) (S (S base)) (all2 ++ [placeholder tid r])).
    rewrite length_app, Hl2 in IH. simpl in IH.
    specialize (IH ltac:(lia)).
    destruct (round_loop tid r (seq (S (S base)) k)
                (all2 ++ [placeholder tid r])) as [next all3].
    simpl in *. destruct IH as (Hnext & Hlen3 & Hold & Hnew).
    split; [|split; [|split]].
    + rewrite Hnext. by replace (length all + 1) with (S (length all)) by lia.
    + lia.
    + intros j Hj. rewrite Hold by lia.
      rewrite lookup_app_l by lia. unfold all2, link.
      destruct (decide (j = base)) as [->|Hb].
      { rewrite list_lookup_alter_ne, list_lookup_alter_eq by lia.
        destruct (all !! base) as [m|]; [|done]. simpl.
        rewrite linked_out, linked_in by lia.
        by rewrite Nat.sub_diag, Nat.add_0_r. }
      destruct (decide (j = S base)) as [->|Hb'].
      { rewrite list_lookup_alter_eq, list_lookup_alter_ne by lia.
        destruct (all !! S base) as [m|]; [|done]. simpl.
        rewrite linked_out, linked_in by lia.
        replace (S base - base) with 1 by lia. simpl.
        by rewrite Nat.add_0_r. }
      rewrite !list_lookup_alter_ne by lia.
      destruct (all !! j) as [m|]; [|done]. simpl. f_equal.
      destruct (decide (S (S base) ≤ j < S (S (base + k)))) as [Hin|Hout].
      * rewrite !linked_in by lia.
        replace (j - base) with (S (S (j - S (S base)))) by lia. simpl.
        replace (length all + 1 + Nat.div2 (j - S (S base)))
          with (length all + S (Nat.div2 (j - S (S base)))) by lia.
        done.
      * by rewrite !linked_out by lia.
    + intros j Hj1 Hj2. destruct (decide (j = length all)) as [->|Hne].
      * rewrite Hold by lia.
        rewrite lookup_app_r by lia. rewrite Hl2, Nat.sub_diag. simpl.
        by rewrite linked_out by lia.
      * apply Hnew; lia.
Qed.

Lemma unlink_linked len base k j m :
  unlink (linked len base k j m) = unlink m.
Proof. unfold linked. by case_decide. Qed.

Lemma round_linked len base k j m :
  Match.round (linked len base k j m) = Match.round m.
Proof. unfold linked. by case_decide. Qed.

Lemma round_loop_rounds tid r k base all :
  base + k ≤ length all →
  Match.round <$> (round_loop tid r (seq base k) all).2
  = (Match.round <$> all) ++ replicate (Nat.div2 (S k)) r.
Proof.
  intros Hlen.
  destruct (round_loop_spec tid r k base all Hlen) as (_&Hl&Hold&Hnew).
  apply list_eq. intros j. rewrite list_lookup_fmap.
  destruct (decide (j < length all)) as [Hj|Hj].
  - rewrite Hold, lookup_app_l, list_lookup_fmap
      by (rewrite ?length_fmap; lia).
    destruct (all !! j); [|done]. simpl. by rewrite round_linked.
  - rewrite lookup_app_r by (rewrite length_fmap; lia).
    rewrite length_fmap.
    destruct (decide (j < length all + Nat.div2 (S k))) as [Hj'|Hj'].
    + rewrite Hnew by lia. by rewrite lookup_replicate_2 by lia.
    + rewrite (lookup_ge_None_2 (_.2)) by lia.
      symmetry. apply lookup_replicate_None. lia.
Qed.

Lemma later_rounds_spec tid k : ∀ r base c all,
  base + c = length all →
  let final := later_rounds tid k r (seq base c) all in
  (∀ j, j < base → final !! j = all !! j)
  ∧ (∀ j, j < length all → unlink <$> final !! j = unlink <$> all !! j)
  ∧ Match.round <$> final = (Match.round <$> all) ++ rounds_tail k r c
  ∧ (0 < k → ∀ j, j < length all →
       final !! j = linked (length all) base c j <$> all !! j)
  ∧ (0 < k → ∀ j, length all ≤ j → j < length all + Nat.div2 (S c) →
       unlink <$> final !! j = Some (placeholder tid r))
  ∧ (∀ j m, length all ≤ j → final !! j = Some m →
       ∃ r', unlink m = placeholder tid r').
Proof.
  induction k as [|k IH]; intros r base c all Hlen; simpl.
  - split; [done|]. split; [done|]. split; [by rewrite app_nil_r|].
    split; [intros; lia|]. split; [intros; lia|].
    intros j m Hj Hm. apply lookup_lt_Some in Hm. lia.
  - assert (base + c ≤ length all) as Hle by lia.
    pose proof (round_loop_spec tid r c base all Hle) as Hspec.
    pose proof (round_loop_rounds tid r c base all Hle) as Hrounds.
    destruct (round_loop tid r (seq base c) all) as [next all'].
    simpl in Hspec, Hrounds. destruct Hspec as (-> & Hl & Hold & Hnew).
    specialize (IH (S r) (length all) (Nat.div2 (S c)) all' (eq_sym Hl)).
    simpl in IH. destruct IH as (IHpre & IHcore & IHrounds & _ & _ & IHnew).
    split; [|split; [|split; [|split; [|split]]]].
    + intros j Hj. rewrite IHpre, Hold by lia.
      destruct (all !! j); [|done]. simpl. by rewrite linked_out by lia.
    + intros j Hj. rewrite IHcore, Hold by lia.
      destruct (all !! j); [|done]. simpl. by rewrite unlink_linked.
    + by rewrite IHrounds, Hrounds, <-app_assoc.
    + intros _ j Hj. by rewrite IHpre, Hold by lia.
    + intros _ j Hj1 Hj2. by rewrite IHcore, Hnew by lia.
    + intros j m Hj Hm.
      destruct (decide (j < length all')) as [Hlt|Hge].
      * exists r. specialize (IHcore j Hlt).
        rewrite Hm, Hnew in IHcore by lia.
        apply (inj Some). exact IHcore.
      * apply (IHnew j m); [lia|done].
Qed.

Lemma rounds_tail_ge k : ∀ r c x, x ∈ rounds_tail k r c → r ≤ x.
Proof.
  induction k as [|k IH]; intros r c x; simpl.
  - by intros ?%elem_of_nil.
  - rewrite elem_of_app. intros [[-> _]%elem_of_replicate|Hin]; [done|].
    apply IH in Hin. lia.
Qed.

Lemma matches_of_round_length r all :
  length (matches_of_round r all)
  = length (filter (λ x, x = r) (Match.round <$> all)).
Proof.
  unfold matches_of_round. induction all as [|m all IH]; [done|].
  rewrite fmap_cons, !filter_cons.
  destruct (decide (Match.round m = r)); simpl; by rewrite IH.
Qed.

Lemma filter_replicate_eq (n x r : nat) :
  length (filter (λ y, y = r) (replicate n x))
  = if decide (x = r) then n else 0.
Proof.
  induction n as [|n IH]; simpl.
  - by case_decide.
  - rewrite filter_cons. destruct (decide (x = r)); simpl; by rewrite IH.
Qed.

(** With [2^e] documents in the current round and [e] rounds to go, round
    [r + d] gets [2^(e - 1 - d)] documents, and [2^e - 1] are added in
    all. *)
Lemma rounds_tail_pow e : ∀ r,
  length (rounds_tail e r (2 ^ e)) = 2 ^ e - 1
  ∧ ∀ x, length (filter (λ y, y = x) (rounds_tail e r (2 ^ e)))
         = if decide (r ≤ x < r + e) then 2 ^ (e - 1 - (x - r)) else 0.
Proof.
  induction e as [|e IH]; intros r.
  - split; [done|]. intros x. simpl. by rewrite decide_False by lia.
  - change (rounds_tail (S e) r (2 ^ S e))
      with (replicate (Nat.div2 (S (2 ^ S e))) r
            ++ rounds_tail e (S r) (Nat.div2 (S (2 ^ S e)))).
    assert (Nat.div2 (S (2 ^ S e)) = 2 ^ e) as ->.
    { rewrite Nat.pow_succ_r'. apply Nat.div2_succ_double. }
    destruct (IH (S r)) as [IHlen IHcount]. split.
    + rewrite length_app, length_replicate, IHlen, Nat.pow_succ_r'.
      assert (0 < 2 ^ e) by (apply Nat.neq_0_lt_0, Nat.pow_nonzero; lia).
      lia.
    + intros x. rewrite filter_app, length_app, filter_replicate_eq, IHcount.
      destruct (decide (r = x)) as [->|Hne].
      * rewrite decide_False, decide_True by lia.
        replace (S e - 1 - (x - x)) with e by lia. lia.
      * destruct (decide (S r ≤ x < S r + e)) as [Hin|Hout].
        -- rewrite decide_True by lia. simpl.
           f_equal. lia.
        -- by rewrite decide_False by lia.
Qed.

(** [rounds_of] is the ceiling of the binary logarithm: the least [k]
    with [n ≤ 2^k]. *)
Lemma rounds_of_spec n :
  2 ≤ n →
  1 ≤ rounds_of n ∧ 2 ^ (rounds_of n - 1) < n ∧ n ≤ 2 ^ rounds_of n.
Proof.
  intros Hn. unfold rounds_of.
  pose proof (Nat.log2_up_spec n ltac:(lia)) as [Hlo Hhi].
  pose proof (Nat.log2_up_pos n ltac:(lia)) as Hpos.
  rewrite <-Nat.sub_1_r in Hlo. lia.
Qed.

Lemma rounds_of_least n k : n ≤ 2 ^ k → rounds_of n ≤ k.
Proof.
  intros Hk. unfold rounds_of.
  destruct (decide (n ≤ 1)) as [Hle|Hgt].
  - rewrite Nat.log2_up_eqn0 by lia. lia.
  - pose proof (Nat.log2_up_spec n ltac:(lia)) as [Hlo _].
    destruct (decide (Nat.log2_up n ≤ k)) as [|Hnle]; [done|].
    assert (2 ^ k ≤ 2 ^ Nat.pred (Nat.log2_up n))
      by (apply Nat.pow_le_mono_r; lia).
    lia.
Qed.

Lemma parity_cases k :
  (k = 2 * Nat.div2 k ∧ slot_at k = slot_player1)
  ∨ (k = 2 * Nat.div2 k + 1 ∧ slot_at k = slot_player2).
Proof.
  pose proof (Nat.div2_odd k) as Hk. unfold slot_at.
  rewrite <-Nat.negb_odd. destruct (Nat.odd k); simpl in *; [right|left];
    split; try done; lia.
Qed.

Lemma schedule_if_filled_players x :
  Match.player1 (schedule_if_filled x) = Match.player1 x
  ∧ Match.player2 (schedule_if_filled x) = Match.player2 x
  ∧ Match.round (schedule_if_filled x) = Match.round x.
Proof. unfold schedule_if_filled. by destruct (both_filled x). Qed.

Lemma schedule_if_filled_status x :
  Match.status x = pending →
  Match.status (schedule_if_filled x)
  = if both_filled (schedule_if_filled x) then scheduled else pending.
Proof.
  intros Hx. unfold schedule_if_filled.
  destruct (both_filled x) eqn:Hb; simpl.
  - unfold both_filled in *. simpl. by rewrite Hb.
  - by rewrite Hb.
Qed.

Lemma size_of_pow n : 1 ≤ n → size_of n = 2 ^ rounds_of n.
Proof. intros Hn. unfold size_of. destruct n; [lia|done]. Qed.

Section build.
Context (tid : nat) (shuffled : list UserId).
Hypothesis Hn : 2 ≤ length shuffled.

Let n := length shuffled.
Let R := rounds_of n.
Let size := size_of n.
Let half := 2 ^ (R - 1).
Let B := build_matches tid shuffled.
Let first := first_round_match tid shuffled size <$> seq 0 half.

(** The slot that first-round match [i] has filled in round 2 once the
    first [k] documents have been visited: its player1 if it is a bye
    that has been visited, nothing otherwise. *)
Let fill (k i : nat) : option UserId :=
  if decide (i < k ∧ shuffled !! (size - 1 - i) = None)
  then shuffled !! i else None.

(** The stored documents after [k] iterations of the bye loop. *)
Let Inv (k : nat) (w : World) : Prop :=
  (∀ j, j < half → getMatch w j = B !! j)
  ∧ (∀ t, 2 * t + 1 < half →
       ∃ nm, getMatch w (half + t) = Some nm
             ∧ Match.player1 nm = fill k (2 * t)
             ∧ Match.player2 nm = fill k (2 * t + 1)
             ∧ Match.status nm
               = if both_filled nm then scheduled else pending)
  ∧ (∀ j, Match.round <$> getMatch w j = Match.round <$> B !! j)
  ∧ bracket_status w = active.

Lemma build_R : 1 ≤ R.
Proof using Hn. apply rounds_of_spec, Hn. Qed.

Lemma build_size : size = 2 * half.
Proof using Hn.
  unfold size, half. rewrite size_of_pow by (unfold n; lia). fold R.
  pose proof build_R.
  replace R with (S (R - 1)) at 1 by lia. apply Nat.pow_succ_r'.
Qed.

Lemma build_half : 1 ≤ half ∧ half < n ∧ n ≤ 2 * half.
Proof using Hn.
  pose proof (rounds_of_spec n Hn) as (H1&H2&H3). fold R in H1, H2, H3.
  rewrite <-build_size. unfold size.
  rewrite size_of_pow by (unfold n; lia). fold R.
  split; [|done].
  apply Nat.neq_0_lt_0, Nat.pow_nonzero. lia.
Qed.

Lemma build_first_count : first_round_count size = half.
Proof using Hn.
  unfold first_round_count. rewrite build_size.
  apply Nat.div2_succ_double.
Qed.

Lemma build_half_even : 2 ≤ R → half = 2 * 2 ^ (R - 2).
Proof.
  intros HR. unfold half.
  replace (R - 1) with (S (R - 2)) by lia. apply Nat.pow_succ_r'.
Qed.

Lemma build_B : B = later_rounds tid (R - 1) 2 (seq 0 half) first.
Proof using Hn.
  unfold B, build_matches. fold n R size.
  rewrite build_first_count.
  by rewrite length_fmap, length_seq.
Qed.

Lemma first_lookup i :
  i < half → first !! i = Some (first_round_match tid shuffled size i).
Proof.
  intros Hi. unfold first.
  by rewrite list_lookup_fmap, lookup_seq_lt.
Qed.

(** The documents of the first round, as stored in allMatches. *)
Lemma build_first_round i :
  i < half →
  B !! i =
    Some (if decide (2 ≤ R)
          then Match.set_next (half + Nat.div2 i) (slot_at i)
                 (first_round_match tid shuffled size i)
          else first_round_match tid shuffled size i).
Proof using Hn.
  intros Hi. rewrite build_B.
  assert (0 + half = length first) as Hlen
      by (unfold first; by rewrite length_fmap, length_seq).
  destruct (later_rounds_spec tid (R - 1) 2 0 half first Hlen)
    as (_&_&_&Hlink&_).
  case_decide as HR.
  - rewrite Hlink by lia. rewrite first_lookup by done. simpl.
    rewrite linked_in by lia. rewrite <-Hlen. simpl.
    by rewrite Nat.sub_0_r.
  - replace (R - 1) with 0 by lia. simpl. by apply first_lookup.
Qed.

(** Every later document is a placeholder, up to its link. *)
Lemma build_later j m :
  half ≤ j → B !! j = Some m → ∃ r, unlink m = placeholder tid r.
Proof using Hn.
  rewrite build_B.
  assert (0 + half = length first) as Hlen
      by (unfold first; by rewrite length_fmap, length_seq).
  destruct (later_rounds_spec tid (R - 1) 2 0 half first Hlen)
    as (_&_&_&_&_&Hnew).
  intros Hj Hm. apply (Hnew j m); [lia|done].
Qed.

(** The documents of round 2. *)
Lemma build_second_round j :
  2 ≤ R → half ≤ j → j < half + 2 ^ (R - 2) →
  unlink <$> B !! j = Some (placeholder tid 2).
Proof using Hn.
  intros HR Hj1 Hj2. rewrite build_B.
  assert (0 + half = length first) as Hlen
      by (unfold first; by rewrite length_fmap, length_seq).
  destruct (later_rounds_spec tid (R - 1) 2 0 half first Hlen)
    as (_&_&_&_&Hnew&_).
  apply Hnew; [lia..|]. rewrite <-Hlen, Nat.add_0_l.
  rewrite (build_half_even HR) at 2. rewrite Nat.div2_succ_double. lia.
Qed.

Lemma build_rounds :
  Match.round <$> B = replicate half 1 ++ rounds_tail (R - 1) 2 half.
Proof using Hn.
  rewrite build_B.
  assert (0 + half = length first) as Hlen
      by (unfold first; by rewrite length_fmap, length_seq).
  destruct (later_rounds_spec tid (R - 1) 2 0 half first Hlen)
    as (_&_&->&_). f_equal.
  apply list_eq. intros i. rewrite list_lookup_fmap.
  destruct (decide (i < half)) as [Hi|Hi].
  - rewrite first_lookup, lookup_replicate_2 by done. done.
  - rewrite (lookup_ge_None_2 first) by lia.
    symmetry. apply lookup_replicate_None. lia.
Qed.

Lemma build_length : length B = 2 ^ R - 1.
Proof using Hn.
  rewrite <-(length_fmap Match.round), build_rounds.
  rewrite length_app, length_replicate.
  destruct (rounds_tail_pow (R - 1) 2) as [Hl _]. fold half in Hl.
  rewrite Hl. pose proof build_R. pose proof build_half.
  replace (2 ^ R) with (2 * half); [lia|].
  unfold half. replace R with (S (R - 1)) at 2 by lia.
  symmetry. apply Nat.pow_succ_r'.
Qed.

Lemma build_round_count r :
  1 ≤ r ≤ R → length (matches_of_round r B) = 2 ^ (R - r).
Proof using Hn.
  intros Hr. rewrite matches_of_round_length, build_rounds.
  rewrite filter_app, length_app, filter_replicate_eq.
  destruct (rounds_tail_pow (R - 1) 2) as [_ Hc]. fold half in Hc.
  rewrite Hc.
  destruct (decide (1 = r)) as [<-|Hne].
  - rewrite decide_False by lia. unfold half. lia.
  - rewrite decide_True by lia. simpl. f_equal. lia.
Qed.

Lemma half_small : half = 1 → R = 1.
Proof using Hn.
  intros Hh. pose proof build_R.
  destruct (decide (2 ≤ R)) as [HR|]; [|lia].
  pose proof (build_half_even HR) as He.
  assert (0 < 2 ^ (R - 2)) by (apply Nat.neq_0_lt_0, Nat.pow_nonzero; lia).
  lia.
Qed.

Lemma Inv_start T :
  Inv 0 (mkWorld (map_seq 0 B) T active).
Proof using Hn.
  unfold Inv, getMatch. simpl. split; [|split; [|split]]; [| | |done].
  - intros j _. apply lookup_map_seq_0.
  - intros t Ht. rewrite lookup_map_seq_0.
    assert (2 ≤ R) as HR.
    { pose proof build_R. destruct (decide (R = 1)) as [HR1|]; [|lia].
      unfold half in Ht. rewrite HR1 in Ht. simpl in Ht. lia. }
    pose proof (build_second_round (half + t) HR) as Hsec.
    rewrite (build_half_even HR) in Ht.
    specialize (Hsec ltac:(lia) ltac:(lia)).
    destruct (B !! (half + t)) as [nm|]; [|done].
    exists nm. split; [done|]. simpl in Hsec.
    apply (inj Some) in Hsec.
    assert (Match.player1 nm = None) as Hp1
        by (by apply (f_equal Match.player1) in Hsec).
    assert (Match.player2 nm = None) as Hp2
        by (by apply (f_equal Match.player2) in Hsec).
    assert (Match.status nm = pending) as Hst
        by (by apply (f_equal Match.status) in Hsec).
    unfold both_filled, fill. rewrite Hp1, Hp2, Hst.
    by rewrite !decide_False by lia.
  - intros j. by rewrite lookup_map_seq_0.
Qed.

Lemma fill_skip k i :
  (i = k → shuffled !! (size - 1 - k) ≠ None) →
  fill (S k) i = fill k i.
Proof.
  intros Hk. unfold fill.
  destruct (decide (i = k)) as [->|Hne].
  - rewrite !decide_False; [done| |]; intros [? ?]; [lia|by apply Hk].
  - repeat case_decide; try done; exfalso; naive_solver lia.
Qed.

Lemma Inv_skip k w :
  (k < half → shuffled !! (size - 1 - k) ≠ None) →
  Inv k w → Inv (S k) w.
Proof.
  intros Hk (H1&H2&H3&H4). split; [done|]. split; [|done].
  intros t Ht. destruct (H2 t Ht) as (nm&Hg&Hp1&Hp2&Hs).
  exists nm. split; [done|].
  rewrite !fill_skip by (intros <-; apply Hk; lia). done.
Qed.

Lemma bye_needs_two_rounds k :
  k < half → shuffled !! (size - 1 - k) = None → 2 ≤ R.
Proof using Hn.
  intros Hk Hbye. pose proof build_R.
  destruct (decide (2 ≤ R)) as [|HR]; [done|]. exfalso.
  assert (R = 1) as HR1 by lia.
  assert (half = 1) as Hh by (unfold half; by rewrite HR1).
  apply lookup_ge_None in Hbye. rewrite build_size, Hh in Hbye.
  unfold n in *. lia.
Qed.

Lemma Inv_bye k w p :
  k < half →
  shuffled !! k = Some p →
  shuffled !! (size - 1 - k) = None →
  Inv k w →
  ∃ w', advanceWinner w k p = Returned w' ∧ Inv (S k) w'.
Proof using Hn.
  intros Hk Hp Hbye (H1&H2&H3&H4).
  pose proof (bye_needs_two_rounds k Hk Hbye) as HR.
  pose proof (build_half_even HR) as Heven.
  pose proof (build_first_round k Hk) as HBk.
  rewrite decide_True in HBk by done.
  pose proof (parity_cases k) as Hpar.
  remember (Nat.div2 k) as t eqn:Ht0. clear Ht0.
  assert (2 * t + 1 < half) as Ht by (destruct Hpar as [[? ?]|[? ?]]; lia).
  destruct (H2 t Ht) as (nm&Hnm&Hnp1&Hnp2&Hns).
  assert (Match.player2 nm = None) as Hnp2'.
  { rewrite Hnp2. unfold fill. apply decide_False.
    destruct Hpar as [[? ?]|[? ?]]; lia. }
  assert (Match.status nm = pending) as Hns'.
  { rewrite Hns. unfold both_filled. rewrite Hnp2'.
    by destruct (Match.player1 nm). }
  set (x := place (Some (slot_at k)) (Some p) nm).
  exists (save (half + t) (schedule_if_filled x) w). split.
  { rewrite (advanceWinner_player1 w k _ (eq_trans (H1 k Hk) HBk) p)
      by exact Hp.
    unfold advanced. cbn [Match.nextMatchId Match.set_next].
    rewrite Hnm, decide_True by done. done. }
  destruct (schedule_if_filled_players x) as (Hx1&Hx2&Hx3).
  assert (Match.status x = pending ∧ Match.round x = Match.round nm)
    as [Hxs Hxr] by (unfold x; by destruct (slot_at k)).
  unfold Inv, getMatch, save, set_collection.
  cbn [collection bracket_status].
  split; [|split; [|split]]; [| | |done].
  - intros j Hj. rewrite lookup_insert_ne by lia. by apply H1.
  - intros t' Ht'. destruct (decide (t' = t)) as [->|Hne].
    + rewrite lookup_insert_eq. eexists. split; [done|].
      rewrite Hx1, Hx2. split; [|split]; [| |by apply schedule_if_filled_status].
      * destruct Hpar as [[Hk2 Hs]|[Hk2 Hs]]; unfold x; rewrite Hs;
          cbn [place Match.player1 Match.player2 Match.set_player1
               Match.set_player2].
        -- unfold fill.
           rewrite decide_True by (rewrite <-Hk2; split; [lia|done]).
           by rewrite <-Hk2.
        -- rewrite Hnp1. symmetry. apply fill_skip. lia.
      * destruct Hpar as [[Hk2 Hs]|[Hk2 Hs]]; unfold x; rewrite Hs;
          cbn [place Match.player1 Match.player2 Match.set_player1
               Match.set_player2].
        -- rewrite Hnp2'. symmetry. unfold fill. apply decide_False. lia.
        -- unfold fill.
           rewrite decide_True by (rewrite <-Hk2; split; [lia|done]).
           by rewrite <-Hk2.
    + rewrite lookup_insert_ne by lia.
      destruct (H2 t' Ht') as (nm0&Hg0&Hp10&Hp20&Hs0).
      exists nm0. split; [done|].
      rewrite !fill_skip
        by (intros Heq; exfalso; destruct Hpar as [[? _]|[? _]]; lia).
      done.
  - intros j. destruct (decide (j = half + t)) as [->|Hne].
    + rewrite lookup_insert_eq. cbn [fmap option_fmap option_map].
      rewrite Hx3, Hxr.
      by rewrite <-H3, Hnm.
    + rewrite lookup_insert_ne by done. apply H3.
Qed.

Lemma first_round_player1 k :
  k < half → is_Some (shuffled !! k).
Proof using Hn.
  intros Hk. apply lookup_lt_is_Some. pose proof build_half.
  unfold n in *. lia.
Qed.

Lemma advance_byes_Inv d : ∀ k w,
  k + d = length B →
  Inv k w →
  ∃ w', advance_byes w k (drop k B) = Returned w'
        ∧ Inv (length B) w'
        ∧ tournament w' = tournament w.
Proof using Hn.
  induction d as [|d IH]; intros k w Hk HI.
  - rewrite drop_ge by lia. exists w. simpl.
    by replace (length B) with k by lia.
  - assert (k < length B) as HkB by lia.
    destruct (lookup_lt_is_Some_2 B k HkB) as [m Hm].
    rewrite (drop_S _ _ _ Hm). cbn [advance_byes].
    assert (∃ w1, match Match.status m, Match.winner m with
                  | completed, Some winner =>
                      w' ← advanceWinner w k winner;
                      advance_byes w' (S k) (drop (S k) B)
                  | _, _ => advance_byes w (S k) (drop (S k) B)
                  end = advance_byes w1 (S k) (drop (S k) B)
                  ∧ Inv (S k) w1 ∧ tournament w1 = tournament w)
      as (w1 & -> & HI1 & Ht1).
    { destruct (decide (k < half)) as [Hlt|Hge].
      - destruct (first_round_player1 k Hlt) as [p Hp].
        rewrite (build_first_round k Hlt) in Hm.
        destruct (shuffled !! (size - 1 - k)) as [q|] eqn:Hq.
        + exists w. split; [|split; [|done]].
          * injection Hm as <-. unfold first_round_match.
            case_decide; simpl; by rewrite Hq.
          * apply Inv_skip; [|done]. intros _. by rewrite Hq.
        + destruct (Inv_bye k w p Hlt Hp Hq HI) as (w1&Hadv&HI1).
          exists w1. split; [|split; [done|]].
          * injection Hm as <-. unfold first_round_match.
            case_decide; simpl; rewrite Hq, Hp, Hadv; done.
          * pose proof HI as (H1&_).
            pose proof (build_first_round k Hlt) as HBk.
            rewrite (advanceWinner_player1 w k _ (eq_trans (H1 k Hlt) HBk) p)
              in Hadv by (case_decide; exact Hp).
            injection Hadv as <-. apply advanced_tournament.
      - assert (half ≤ k) as Hhk by lia.
        destruct (build_later k m Hhk Hm) as [r Hr].
        exists w. split; [|split; [|done]].
        + apply (f_equal Match.status) in Hr. simpl in Hr. by rewrite Hr.
        + apply Inv_skip; [|done]. intros; lia. }
    assert (S k + d = length B) as Hk' by lia.
    destruct (IH (S k) w1 Hk' HI1) as (w'&Hr&HI'&Ht').
    exists w'. split; [done|]. split; [done|]. congruence.
Qed.

(** The world handed back by generateBracket. *)
Lemma generateBracket_spec :
  ∃ w,
    generateBracket tid shuffled = Returned (B, w)
    ∧ (∀ j, j < half → getMatch w j = B !! j)
    ∧ (∀ t, 2 * t + 1 < half →
         ∃ nm, getMatch w (half + t) = Some nm
               ∧ Match.player1 nm
                 = (if decide (shuffled !! (size - 1 - 2 * t) = None)
                    then shuffled !! (2 * t) else None)
               ∧ Match.player2 nm
                 = (if decide (shuffled !! (size - 1 - (2 * t + 1)) = None)
                    then shuffled !! (2 * t + 1) else None)
               ∧ Match.status nm
                 = if both_filled nm then scheduled else pending)
    ∧ (∀ j, Match.round <$> getMatch w j = Match.round <$> B !! j)
    ∧ bracket_status w = active
    ∧ tournament w
      = Tournament.mk (seq 0 (length B)) (seq 1 R) Active.
Proof using Hn.
  destruct (advance_byes_Inv (length B) 0
              (mkWorld (map_seq 0 B) (Tournament.mk [] [] Open) active)
              eq_refl (Inv_start _)) as (w'&Hr&(H1&H2&H3&H4)&_).
  rewrite drop_0 in Hr.
  exists (mkWorld (collection w')
            (Tournament.mk (seq 0 (length B)) (seq 1 R) Active)
            (bracket_status w')).
  split. { unfold generateBracket. fold B n R. by rewrite Hr. }
  split; [exact H1|]. split; [|done].
  intros t Ht. destruct (H2 t Ht) as (nm&Hg&Hp1&Hp2&Hs).
  exists nm. split; [exact Hg|].
  rewrite Hp1, Hp2. unfold fill.
  pose proof build_length. pose proof build_R.
  assert (half < length B).
  { assert (2 ≤ R).
    { destruct (decide (R = 1)) as [HR1|]; [|lia].
      unfold half in Ht. rewrite HR1 in Ht. simpl in Ht. lia. }
    rewrite build_length. unfold half.
    replace R with (S (R - 1)) at 2 by lia. rewrite Nat.pow_succ_r'. lia. }
  repeat split; [| |done]; repeat case_decide; try done; naive_solver lia.
Qed.
End build.

(** The documents of round 1 are exactly the first
    [2^(rounds - 1)] of allMatches. *)
Lemma round1_index tid shuffled j m :
  2 ≤ length shuffled →
  build_matches tid shuffled !! j = Some m →
  Match.round m = 1 →
  j < 2 ^ (rounds_of (length shuffled) - 1).
Proof.
  intros Hn Hm Hr.
  destruct (decide (j < 2 ^ (rounds_of (length shuffled) - 1)))
    as [|Hge]; [done|]. exfalso.
  assert ((Match.round <$> build_matches tid shuffled) !! j = Some 1) as Hj
      by (by rewrite list_lookup_fmap, Hm, <-Hr).
  rewrite (build_rounds tid shuffled Hn) in Hj.
  rewrite lookup_app_r in Hj by (rewrite length_replicate; lia).
  apply list_elem_of_lookup_2, rounds_tail_ge in Hj. lia.
Qed.

(** What generateBracket stores for round 1, and what it has put into
    round 2. *)
Lemma generateBracket_stored tid shuffled :
  2 ≤ length shuffled →
  let R := rounds_of (length shuffled) in
  let size := size_of (length shuffled) in
  let half := 2 ^ (R - 1) in
  ∃ w,
    generateBracket tid shuffled = Returned (build_matches tid shuffled, w)
    ∧ (∀ j m, getMatch w j = Some m → Match.round m = 1 →
         j < half
         ∧ is_Some (shuffled !! j)
         ∧ build_matches tid shuffled !! j = Some m
         ∧ m = (if decide (2 ≤ R)
                then Match.set_next (half + Nat.div2 j) (slot_at j)
                       (first_round_match tid shuffled size j)
                else first_round_match tid shuffled size j))
    ∧ (∀ j, j < half →
         shuffled !! (size - 1 - j) = None →
         2 ≤ R
         ∧ ∃ nm, getMatch w (half + Nat.div2 j) = Some nm
                 ∧ slot_of (slot_at j) nm = shuffled !! j
                 ∧ Match.status nm
                   = if both_filled nm then scheduled else pending).
Proof.
  intros Hn R size half.
  destruct (generateBracket_spec tid shuffled Hn)
    as (w&Hgen&H1&H2&H3&_).
  fold R size half in H1, H2.
  exists w. split; [exact Hgen|]. split.
  - intros j m Hm Hr.
    pose proof (H3 j) as Hj. rewrite Hm in Hj. simpl in Hj.
    destruct (build_matches tid shuffled !! j) as [m'|] eqn:Hm'; [|done].
    simpl in Hj. injection Hj as Hj. rewrite Hr in Hj.
    pose proof (round1_index tid shuffled j m' Hn Hm' (eq_sym Hj)) as Hlt.
    fold R half in Hlt.
    pose proof (H1 j Hlt) as Heq. rewrite Hm, Hm' in Heq.
    injection Heq as <-.
    split; [done|]. split; [by apply first_round_player1|].
    split; [done|].
    pose proof (build_first_round tid shuffled Hn j Hlt) as Hb.
    rewrite Hm' in Hb. by injection Hb.
  - intros j Hj Hbye.
    pose proof (bye_needs_two_rounds shuffled Hn j Hj Hbye) as HR.
    fold R in HR. split; [done|].
    pose proof (build_half_even shuffled Hn HR) as Heven. fold R half in Heven.
    pose proof (parity_cases j) as Hpar.
    remember (Nat.div2 j) as t eqn:Ht0. clear Ht0.
    assert (2 * t + 1 < half) as Ht
        by (destruct Hpar as [[? ?]|[? ?]]; lia).
    destruct (H2 t Ht) as (nm&Hg&Hp1&Hp2&Hs).
    exists nm. split; [done|]. split; [|done].
    destruct Hpar as [[Hj2 ->]|[Hj2 ->]]; simpl.
    + rewrite Hp1, <-Hj2. by rewrite decide_True.
    + rewrite Hp2, <-Hj2. by rewrite decide_True.
Qed.

(** ** Claims about the bracket builder *)

(** C5.  For a list of n ≥ 2 participants generateBracket returns, and
    with rounds the ceiling of log2 n (the least k with n ≤ 2^k): the
    Tournament document gets the round list 1..rounds, round r holds
    exactly 2^(rounds - r) of the documents created, 2^rounds - 1
    documents are created in all, and the stored collection holds them
    under the ids 0 .. 2^rounds - 2 with the same round numbers. *)
Theorem bracket_shape tid shuffled :
  2 ≤ length shuffled →
  ∃ rounds allMatches w,
    generateBracket tid shuffled = Returned (allMatches, w)
    ∧ Tournament.rounds (tournament w) = seq 1 rounds
    ∧ length shuffled ≤ 2 ^ rounds
    ∧ (∀ k, length shuffled ≤ 2 ^ k → rounds ≤ k)
    ∧ (∀ r, 1 ≤ r ≤ rounds →
         length (matches_of_round r allMatches) = 2 ^ (rounds - r))
    ∧ length allMatches = 2 ^ rounds - 1
    ∧ Tournament.matches (tournament w) = seq 0 (2 ^ rounds - 1)
    ∧ (∀ j, Match.round <$> getMatch w j = Match.round <$> allMatches !! j).
Proof.
  intros Hn.
  destruct (generateBracket_spec tid shuffled Hn)
    as (w&Hgen&_&_&H3&_&Ht).
  exists (rounds_of (length shuffled)), (build_matches tid shuffled), w.
  split; [exact Hgen|]. split; [by rewrite Ht|].
  split; [by apply rounds_of_spec|].
  split; [intros k; apply rounds_of_least|].
  split; [intros r; by apply build_round_count|].
  split; [by apply build_length|].
  split; [|exact H3].
  by rewrite Ht, (build_length tid shuffled Hn).
Qed.

Lemma bracket_shape_witness :
  ∃ rounds allMatches w,
    generateBracket 7 five = Returned (allMatches, w)
    ∧ Tournament.rounds (tournament w) = seq 1 rounds
    ∧ length five ≤ 2 ^ rounds
    ∧ (∀ k, length five ≤ 2 ^ k → rounds ≤ k)
    ∧ (∀ r, 1 ≤ r ≤ rounds →
         length (matches_of_round r allMatches) = 2 ^ (rounds - r))
    ∧ length allMatches = 2 ^ rounds - 1
    ∧ Tournament.matches (tournament w) = seq 0 (2 ^ rounds - 1)
    ∧ (∀ j, Match.round <$> getMatch w j = Match.round <$> allMatches !! j).
Proof. apply (bracket_shape 7 five). simpl. lia. Defined.

(** C10.  For n ≥ 2 participants the number of first-round matches,
    bracketSize / 2, is below n, and every round-1 document, as created
    and as stored, has its player1 slot filled: only player2 can be
    empty. *)
Theorem first_round_player1_filled tid shuffled :
  2 ≤ length shuffled →
  ∃ allMatches w,
    generateBracket tid shuffled = Returned (allMatches, w)
    ∧ first_round_count (size_of (length shuffled)) < length shuffled
    ∧ length (matches_of_round 1 allMatches)
      = first_round_count (size_of (length shuffled))
    ∧ (∀ j m, allMatches !! j = Some m → Match.round m = 1 →
         is_Some (Match.player1 m))
    ∧ (∀ j m, getMatch w j = Some m → Match.round m = 1 →
         is_Some (Match.player1 m)).
Proof.
  intros Hn.
  destruct (generateBracket_stored tid shuffled Hn) as (w&Hgen&Hfirst&_).
  pose proof (build_half shuffled Hn) as (_&Hlt&_).
  pose proof (build_first_count shuffled Hn) as Hcount.
  pose proof (rounds_of_spec (length shuffled) Hn) as (HR&_).
  exists (build_matches tid shuffled), w.
  split; [exact Hgen|]. split; [by rewrite Hcount|].
  split. { rewrite Hcount, build_round_count by (done || lia). done. }
  assert (∀ j m, build_matches tid shuffled !! j = Some m →
                 Match.round m = 1 → is_Some (Match.player1 m)) as Hall.
  { intros j m Hm Hr.
    pose proof (round1_index tid shuffled j m Hn Hm Hr) as Hj.
    pose proof (build_first_round tid shuffled Hn j Hj) as Hb.
    rewrite Hm in Hb. injection Hb as ->.
    destruct (first_round_player1 shuffled Hn j Hj) as [p Hp].
    exists p. case_decide; simpl; exact Hp. }
  split; [exact Hall|].
  intros j m Hm Hr. destruct (Hfirst j m Hm Hr) as (_&_&Hb&_).
  by apply (Hall j).
Qed.

Lemma first_round_player1_filled_witness :
  ∃ allMatches w,
    generateBracket 7 five = Returned (allMatches, w)
    ∧ first_round_count (size_of (length five)) < length five
    ∧ length (matches_of_round 1 allMatches)
      = first_round_count (size_of (length five))
    ∧ (∀ j m, allMatches !! j = Some m → Match.round m = 1 →
         is_Some (Match.player1 m))
    ∧ (∀ j m, getMatch w j = Some m → Match.round m = 1 →
         is_Some (Match.player1 m)).
Proof. apply (first_round_player1_filled 7 five). simpl. lia. Defined.

(** C7, as the code has it.  (1) advanceWinner does not place the winner
    id that it is given.  For a stored match with player1 present, whose
    nextMatchId names a stored successor and whose nextMatchSlot names a
    slot, it puts into that slot of the successor player1 when the
    winner id is player1's, and otherwise whatever the player2 slot
    holds: that is the winner exactly when the winner id is one of the
    two players.  It leaves the successor's other slot and all other
    matches alone, and the successor's status is scheduled if both its
    slots are then filled and unchanged otherwise.
    (2) In the world built by generateBracket for n ≥ 2 participants, a
    match fed by two first-round byes (one through each of its slots) is
    stored with status scheduled and holds the two bye winners. *)
Theorem advance_fills_named_slot :
  (∀ w matchId m p1 winnerId nextId nextMatch s,
     getMatch w matchId = Some m →
     Match.player1 m = Some p1 →
     Match.nextMatchId m = Some nextId →
     Match.nextMatchSlot m = Some s →
     getMatch w nextId = Some nextMatch →
     ∃ w' nm',
       advanceWinner w matchId winnerId = Returned w'
       ∧ getMatch w' nextId = Some nm'
       ∧ slot_of s nm'
         = (if decide (p1 = winnerId) then Some p1 else Match.player2 m)
       ∧ (slot_of s nm' = Some winnerId
          ↔ Match.player1 m = Some winnerId
            ∨ Match.player2 m = Some winnerId)
       ∧ slot_of (other_slot s) nm' = slot_of (other_slot s) nextMatch
       ∧ Match.status nm'
         = (if both_filled nm' then scheduled else Match.status nextMatch)
       ∧ (∀ j, j ≠ nextId → getMatch w' j = getMatch w j)
       ∧ bracket_status w' = bracket_status w)
  ∧ (∀ tid shuffled,
       2 ≤ length shuffled →
       ∃ allMatches w,
         generateBracket tid shuffled = Returned (allMatches, w)
         ∧ ∀ f1 f2 m1 m2 nextId nextMatch,
             getMatch w f1 = Some m1 → Match.round m1 = 1 →
             getMatch w f2 = Some m2 → Match.round m2 = 1 →
             Match.player2 m1 = None → Match.player2 m2 = None →
             Match.nextMatchId m1 = Some nextId →
             Match.nextMatchSlot m1 = Some slot_player1 →
             Match.nextMatchId m2 = Some nextId →
             Match.nextMatchSlot m2 = Some slot_player2 →
             getMatch w nextId = Some nextMatch →
             Match.status nextMatch = scheduled
             ∧ Match.round nextMatch = 2
             ∧ is_Some (Match.player1 nextMatch)
             ∧ Match.player1 nextMatch = Match.winner m1
             ∧ is_Some (Match.player2 nextMatch)
             ∧ Match.player2 nextMatch = Match.winner m2).
Proof.
  split.
  - intros w matchId m p1 winnerId nextId nextMatch s Hm Hp1 Hnext Hslot
      Hnm.
    rewrite (advanceWinner_player1 w matchId m Hm p1 winnerId Hp1).
    unfold advanced. rewrite Hnext, Hnm, Hslot.
    set (placed := if decide (p1 = winnerId) then Some p1
                   else Match.player2 m).
    assert (placed = Some winnerId
            ↔ Match.player1 m = Some winnerId
              ∨ Match.player2 m = Some winnerId) as Hiff.
    { unfold placed. rewrite Hp1. case_decide; [subst; tauto|].
      split; [tauto|]. intros [?|?]; congruence. }
    eexists _, _. split; [done|].
    unfold getMatch, save, set_collection.
    cbn [collection tournament bracket_status]. rewrite lookup_insert_eq.
    split; [done|].
    assert (∀ nm, slot_of s (schedule_if_filled (place (Some s) placed nm))
                  = placed) as Hplaced.
    { intros nm. unfold schedule_if_filled.
      by destruct s; simpl; destruct (both_filled _). }
    rewrite Hplaced. split; [done|]. split; [exact Hiff|].
    unfold schedule_if_filled.
    destruct s; simpl;
      destruct (both_filled _) eqn:Hb; simpl;
      repeat split; try done;
      try (intros j Hj; by rewrite lookup_insert_ne);
      unfold both_filled in *; simpl in *; by rewrite Hb.
  - intros tid shuffled Hn.
    destruct (generateBracket_stored tid shuffled Hn)
      as (w&Hgen&Hfirst&Hbye).
    destruct (generateBracket_spec tid shuffled Hn)
      as (w0&Hgen0&_&_&H3&_).
    rewrite Hgen in Hgen0. injection Hgen0 as <-.
    exists (build_matches tid shuffled), w. split; [exact Hgen|].
    intros f1 f2 m1 m2 nextId nextMatch Hm1 Hr1 Hm2 Hr2 Hb1 Hb2 Hn1 Hs1
      Hn2 Hs2 Hnm.
    destruct (Hfirst f1 m1 Hm1 Hr1) as (Hf1&[q1 Hq1]&_&He1).
    destruct (Hfirst f2 m2 Hm2 Hr2) as (Hf2&[q2 Hq2]&_&He2).
    assert (shuffled !! (size_of (length shuffled) - 1 - f1) = None) as Hbye1.
    { rewrite He1 in Hb1. by case_decide. }
    assert (shuffled !! (size_of (length shuffled) - 1 - f2) = None) as Hbye2.
    { rewrite He2 in Hb2. by case_decide. }
    destruct (Hbye f1 Hf1 Hbye1) as (HR&nm1&Hg1&Hsl1&Hst1).
    destruct (Hbye f2 Hf2 Hbye2) as (_&nm2&Hg2&Hsl2&Hst2).
    rewrite decide_True in He1, He2 by done.
    assert (Match.winner m1 = Some q1 ∧ Match.winner m2 = Some q2)
      as [Hw1 Hw2].
    { rewrite He1, He2. simpl. by rewrite Hbye1, Hbye2, Hq1, Hq2. }
    rewrite He1 in Hn1, Hs1. rewrite He2 in Hn2, Hs2. simpl in *.
    injection Hn1 as Hn1. injection Hn2 as Hn2.
    injection Hs1 as Hs1. injection Hs2 as Hs2.
    rewrite Hn1, Hnm in Hg1. rewrite Hn2, Hnm in Hg2.
    injection Hg1 as <-. injection Hg2 as <-.
    rewrite Hs1 in Hsl1. rewrite Hs2 in Hsl2. simpl in *.
    rewrite Hst1. unfold both_filled. rewrite Hsl1, Hsl2, Hq1, Hq2, Hw1, Hw2.
    repeat split; eauto.
    pose proof (H3 nextId) as Hround. rewrite Hnm in Hround.
    pose proof (build_half shuffled Hn) as (_&_&_).
    pose proof (build_half_even shuffled Hn HR) as Heven.
    pose proof (parity_cases f1) as [[? ?]|[? ?]]; [|congruence].
    assert (2 ^ (rounds_of (length shuffled) - 1) ≤ nextId) as Hlo by lia.
    assert (nextId < 2 ^ (rounds_of (length shuffled) - 1)
                     + 2 ^ (rounds_of (length shuffled) - 2)) as Hhi by lia.
    pose proof (build_second_round tid shuffled Hn nextId HR Hlo Hhi) as Hsec.
    destruct (build_matches tid shuffled !! nextId) as [b|]; [|done].
    simpl in Hround, Hsec. injection Hround as ->.
    apply (inj Some) in Hsec. by apply (f_equal Match.round) in Hsec.
Qed.

(** ** What later calls can and cannot change *)

Lemma advanceWinner_frame w matchId winnerId w' :
  advanceWinner w matchId winnerId = Returned w' →
  (∀ j, Match.nextMatchId <$> getMatch w' j
        = Match.nextMatchId <$> getMatch w j)
  ∧ (∀ i m, getMatch w matchId = Some m →
            Match.nextMatchId m ≠ Some i →
            getMatch w' i = getMatch w i).
Proof.
  unfold advanceWinner. intros Hr.
  destruct (getMatch w matchId) as [m|] eqn:Hm; [|by injection Hr as <-].
  destruct (Match.nextMatchId m) as [nid|] eqn:Hn; [|by injection Hr as <-].
  destruct (getMatch w nid) as [nm|] eqn:Hnm; [|by injection Hr as <-].
  destruct (advancing_player m winnerId) as [p|]; [|done].
  simpl in Hr. injection Hr as <-. unfold getMatch, save in *. simpl. split.
  - intros j. destruct (decide (nid = j)) as [<-|Hne].
    + rewrite lookup_insert_eq, Hnm. simpl. unfold schedule_if_filled.
      by destruct (both_filled _), (Match.nextMatchSlot m) as [[]|].
    + by rewrite lookup_insert_ne.
  - intros i m' [= <-] Hi. rewrite lookup_insert_ne; [done|congruence].
Qed.

Lemma submit_keeps_unscheduled w s w' r i :
  submit w s = Returned (w', r) →
  no_feeder i w → not_scheduled i w →
  no_feeder i w' ∧ not_scheduled i w'.
Proof.
  unfold submit, submitResult.
  destruct s as [[mid|] u wi sc pf t t']; simpl; [|done].
  intros Hr Hfeed Hsched.
  destruct (getMatch w mid) as [m|] eqn:Hm;
    [|injection Hr as <- <-; done].
  destruct (claims_set u _ (Match.claims m)) as [claims|]; [|done].
  cbn [mbind Outcome_bind] in Hr. unfold settle in Hr.
  set (m1 := Match.set_claims _ m) in Hr.
  assert (∃ w'' m2,
            w' = save mid m2 w''
            ∧ Match.nextMatchId m2 = Match.nextMatchId m
            ∧ Match.status m2 ≠ scheduled
            ∧ (∀ j, Match.nextMatchId <$> getMatch w'' j
                    = Match.nextMatchId <$> getMatch w j)
            ∧ getMatch w'' i = getMatch w i)
    as (w''&m2&->&Hn2&Hs2&Hlinks&Hi).
  { destruct (claim_of m1 (Match.player1 m1)) as [c1|];
      [destruct (claim_of m1 (Match.player2 m1)) as [c2|];
       [destruct (decide (Claim.winnerId c1 = Claim.winnerId c2))|]|].
    2-4: cbv zeta in Hr; injection Hr as <- <-; eexists _, _;
      repeat split; done.
    unfold finalizeMatch in Hr.
    destruct (advanceWinner w mid (Claim.winnerId c1)) as [w''|] eqn:Hadv;
      [|done].
    simpl in Hr. injection Hr as <- <-.
    destruct (advanceWinner_frame _ _ _ _ Hadv) as [Hl Ho].
    eexists _, _. repeat split; [done..|exact Hl|].
    apply (Ho i m Hm). by apply (Hfeed mid). }
  unfold no_feeder, not_scheduled, getMatch, save in *. simpl. split.
  - intros j m' Hj. destruct (decide (mid = j)) as [<-|Hne].
    + rewrite lookup_insert_eq in Hj. injection Hj as <-.
      rewrite Hn2. by apply (Hfeed mid).
    + rewrite lookup_insert_ne in Hj by done.
      pose proof (Hlinks j) as Hlj. rewrite Hj in Hlj. simpl in Hlj.
      destruct (collection w !! j) as [m0|] eqn:Hm0; [|done].
      simpl in Hlj. injection Hlj as ->. by apply (Hfeed j).
  - intros m' Hm'. destruct (decide (mid = i)) as [<-|Hne].
    + rewrite lookup_insert_eq in Hm'. by injection Hm' as <-.
    + rewrite lookup_insert_ne in Hm' by done.
      apply Hsched. by rewrite <-Hi.
Qed.

Lemma submitAll_keeps_unscheduled subs : ∀ w w' i,
  submitAll w subs = Returned w' →
  no_feeder i w → not_scheduled i w →
  not_scheduled i w'.
Proof.
  induction subs as [|s subs IH]; intros w w' i Hr Hfeed Hsched.
  - by injection Hr as <-.
  - simpl in Hr. destruct (submit w s) as [[w1 r]|] eqn:Hs; [|done].
    simpl in Hr.
    destruct (submit_keeps_unscheduled w s w1 r i Hs Hfeed Hsched).
    by apply (IH w1 w' i).
Qed.

(** Every link made by the later rounds points to a document created by
    them. *)
Lemma later_rounds_links tid k : ∀ r base c all,
  base + c = length all →
  ∀ j m x,
    later_rounds tid k r (seq base c) all !! j = Some m →
    Match.nextMatchId m = Some x →
    length all ≤ x ∨ ∃ m0, all !! j = Some m0 ∧ Match.nextMatchId m0 = Some x.
Proof.
  induction k as [|k IH]; intros r base c all Hlen j m x Hm Hx; simpl in Hm.
  - right. eauto.
  - assert (base + c ≤ length all) as Hle by lia.
    pose proof (round_loop_spec tid r c base all Hle) as Hspec.
    destruct (round_loop tid r (seq base c) all) as [next all'].
    simpl in Hspec. destruct Hspec as (-> & Hl & Hold & Hnew).
    destruct (IH (S r) (length all) (Nat.div2 (S c)) all' (eq_sym Hl)
                j m x Hm Hx) as [Hge|(m1&Hm1&Hx1)]; [left; lia|].
    destruct (decide (j < length all)) as [Hj|Hj].
    + rewrite Hold in Hm1 by done.
      destruct (all !! j) as [m0|] eqn:Hm0; [|done].
      simpl in Hm1. injection Hm1 as <-. unfold linked in Hx1.
      case_decide; [|right; eauto].
      left. simpl in Hx1. injection Hx1 as Hx1. rewrite <-Hx1.
      apply Nat.le_add_r.
    + pose proof (lookup_lt_Some _ _ _ Hm1) as Hlt.
      rewrite Hnew in Hm1 by lia. injection Hm1 as <-. done.
Qed.

Lemma build_links tid shuffled j m x :
  2 ≤ length shuffled →
  build_matches tid shuffled !! j = Some m →
  Match.nextMatchId m = Some x →
  2 ^ (rounds_of (length shuffled) - 1) ≤ x.
Proof.
  intros Hn Hm Hx. rewrite (build_B tid shuffled Hn) in Hm.
  set (half := 2 ^ (rounds_of (length shuffled) - 1)) in *.
  set (first := first_round_match tid shuffled (size_of (length shuffled))
                <$> seq 0 half) in *.
  assert (0 + half = length first) as Hlen
      by (unfold first; by rewrite length_fmap, length_seq).
  destruct (later_rounds_links tid _ 2 0 half first Hlen j m x Hm Hx)
    as [Hge|(m0&Hm0&Hx0)]; [lia|].
  unfold first in Hm0. rewrite list_lookup_fmap in Hm0.
  destruct (seq 0 half !! j); [|done]. simpl in Hm0.
  injection Hm0 as <-. done.
Qed.

Lemma advance_byes_links ms : ∀ w i w',
  advance_byes w i ms = Returned w' →
  ∀ j, Match.nextMatchId <$> getMatch w' j
       = Match.nextMatchId <$> getMatch w j.
Proof.
  induction ms as [|m ms IH]; intros w i w' Hr j; simpl in Hr.
  - by injection Hr as <-.
  - destruct (Match.status m), (Match.winner m) as [wn|];
      try by apply (IH w (S i)).
    destruct (advanceWinner w i wn) as [w1|] eqn:Hadv; [|done].
    simpl in Hr. rewrite (IH w1 (S i) w' Hr).
    by apply (advanceWinner_frame w i wn w1).
Qed.

(** In the built world every link points past the first round. *)
Lemma generateBracket_links tid shuffled allMatches w :
  2 ≤ length shuffled →
  generateBracket tid shuffled = Returned (allMatches, w) →
  ∀ j m x, getMatch w j = Some m → Match.nextMatchId m = Some x →
           2 ^ (rounds_of (length shuffled) - 1) ≤ x.
Proof.
  intros Hn Hgen j m x Hm Hx. unfold generateBracket in Hgen.
  destruct (advance_byes _ 0 _) as [w1|] eqn:Hadv; [|done].
  simpl in Hgen. injection Hgen as <- <-.
  pose proof (advance_byes_links _ _ _ _ Hadv j) as Hl.
  unfold getMatch in *. simpl in *. rewrite Hm, lookup_map_seq_0 in Hl.
  destruct (build_matches tid shuffled !! j) as [m0|] eqn:Hm0; [|done].
  simpl in Hl. injection Hl as Hl.
  apply (build_links tid shuffled j m0 x Hn Hm0). congruence.
Qed.

(** C6.  In the world built for n ≥ 2 participants (a power of two or
    not), every stored round-1 match with exactly one empty slot is the
    document as it was created, has status completed and as winner the
    participant present (in slot player1), so is not scheduled; its
    winner sits in the slot of its successor named by nextMatchSlot; and
    no later sequence of submitResult calls makes it scheduled. *)
Theorem bye_completed_at_build tid shuffled :
  2 ≤ length shuffled →
  ∃ allMatches w,
    generateBracket tid shuffled = Returned (allMatches, w)
    ∧ ∀ j m,
        getMatch w j = Some m → Match.round m = 1 → one_empty_slot m →
        allMatches !! j = Some m
        ∧ Match.status m = completed
        ∧ is_Some (Match.player1 m)
        ∧ Match.winner m = Match.player1 m
        ∧ Match.status m ≠ scheduled
        ∧ (∃ nextId s nextMatch,
             Match.nextMatchId m = Some nextId
             ∧ Match.nextMatchSlot m = Some s
             ∧ getMatch w nextId = Some nextMatch
             ∧ slot_of s nextMatch = Match.winner m)
        ∧ (∀ subs w',
             submitAll w subs = Returned w' →
             ∀ m', getMatch w' j = Some m' → Match.status m' ≠ scheduled).
Proof.
  intros Hn.
  destruct (generateBracket_stored tid shuffled Hn)
    as (w&Hgen&Hfirst&Hbye).
  exists (build_matches tid shuffled), w. split; [exact Hgen|].
  intros j m Hm Hr Hone.
  destruct (Hfirst j m Hm Hr) as (Hj&[q Hq]&Hb&He).
  assert (Match.player1 m = Some q) as Hp1.
  { rewrite He. case_decide; exact Hq. }
  assert (shuffled !! (size_of (length shuffled) - 1 - j) = None) as Hbyej.
  { destruct Hone as [[Hnone _]|[_ Hp2]]; [congruence|].
    rewrite He in Hp2. by case_decide. }
  destruct (Hbye j Hj Hbyej) as (HR&nm&Hg&Hsl&_).
  rewrite decide_True in He by done.
  assert (Match.status m = completed ∧ Match.winner m = Some q)
    as [Hst Hw].
  { rewrite He. simpl. by rewrite Hbyej, Hq. }
  split; [exact Hb|]. split; [exact Hst|]. split; [by eexists|].
  split; [congruence|]. split; [congruence|]. split.
  - exists (2 ^ (rounds_of (length shuffled) - 1) + Nat.div2 j),
      (slot_at j), nm.
    rewrite He at 1 2. simpl. repeat split; [done|congruence].
  - intros subs w' Hsub.
    apply (submitAll_keeps_unscheduled subs w w' j Hsub).
    + intros i mi Hmi Hx.
      pose proof (generateBracket_links tid shuffled _ w Hn Hgen i mi j
                    Hmi Hx). lia.
    + intros m0 Hm0. rewrite Hm in Hm0. injection Hm0 as <-. congruence.
Qed.

Lemma bye_completed_at_build_witness :
  ∃ allMatches w,
    generateBracket 7 five = Returned (allMatches, w)
    ∧ ∃ m, getMatch w 2 = Some m
           ∧ Match.round m = 1
           ∧ one_empty_slot m
           ∧ Match.status m = completed
           ∧ Match.winner m = Match.player1 m
           ∧ ∃ nextId s nextMatch,
               Match.nextMatchId m = Some nextId
               ∧ Match.nextMatchSlot m = Some s
               ∧ getMatch w nextId = Some nextMatch
               ∧ slot_of s nextMatch = Match.winner m.
Proof.
  destruct (bye_completed_at_build 7 five) as (allMatches&w&Hgen&Hbye);
    [simpl; lia|].
  exists allMatches, w. split; [exact Hgen|].
  pose proof Hgen as Hrun. vm_compute in Hrun. injection Hrun as <- <-.
  eexists. split; [reflexivity|].
  assert (one_empty_slot
            (Match.mk 7 1 (Some "c"%string) None (Some "c"%string) completed
               (Some 5) (Some slot_player1) None ∅)) as Hone
      by (right; split; [by eexists|reflexivity]).
  split; [reflexivity|]. split; [exact Hone|].
  destruct (Hbye 2 _ eq_refl eq_refl Hone) as (_&Hst&_&Hw&_&Hnext&_).
  split; [exact Hst|]. split; [exact Hw|]. exact Hnext.
Defined.

Lemma advance_fills_named_slot_witness :
  (∃ w' nm',
     advanceWinner w_scheduled 0 "alice" = Returned w'
     ∧ getMatch w' 2 = Some nm'
     ∧ slot_of slot_player1 nm' = Some "alice"%string)
  ∧ (∃ allMatches w,
       generateBracket 7 five = Returned (allMatches, w)
       ∧ ∃ nextMatch, getMatch w 4 = Some nextMatch
                      ∧ Match.status nextMatch = scheduled).
Proof.
  split.
  - destruct (proj1 advance_fills_named_slot w_scheduled 0
                (duel scheduled None ∅) "alice"%string "alice"%string 2
                (final None) slot_player1)
      as (w'&nm'&Hr&Hg&Hs&_);
      [reflexivity | reflexivity | reflexivity | reflexivity | reflexivity|].
    exists w', nm'. repeat split; assumption.
  - destruct (proj2 advance_fills_named_slot 7 five)
      as (allMatches&w&Hgen&Hfed); [simpl; lia|].
    exists allMatches, w. split; [exact Hgen|].
    pose proof Hgen as Hrun. vm_compute in Hrun. injection Hrun as <- <-.
    eexists. split; [reflexivity|].
    by destruct (Hfed 0 1 _ _ 4 _ eq_refl eq_refl eq_refl eq_refl eq_refl
                   eq_refl eq_refl eq_refl eq_refl eq_refl eq_refl)
      as (Hst&_).
Defined.

(** C7, counterexample.  In the bracket as built alice and bob both name
    mallory as the winner of match 0.  The match is finalised (status
    completed, successor match 2, slot player1), and the slot holds bob,
    the player2 of match 0, not the agreed winner; advanceWinner called
    with that winner id does the same. *)
Lemma agreed_winner_not_placed :
  (∃ w1 m1 w2 m2,
     submitResult w_scheduled 0 "alice" "mallory" None None 1 2
       = Returned (w1, Some m1)
     ∧ submitResult w1 0 "bob" "mallory" None None 3 4
       = Returned (w2, Some m2)
     ∧ Match.status m2 = completed
     ∧ Match.nextMatchId m2 = Some 2
     ∧ Match.nextMatchSlot m2 = Some slot_player1
     ∧ (slot_of slot_player1 <$> getMatch w2 2)
       = Some (Some "bob"%string))
  ∧ (∃ w',
       advanceWinner w_scheduled 0 "mallory" = Returned w'
       ∧ (slot_of slot_player1 <$> getMatch w' 2)
         = Some (Some "bob"%string)).
Proof.
  split.
  - eexists _, _, _, _. split; [vm_compute; reflexivity|].
    split; [vm_compute; reflexivity|]. repeat split; reflexivity.
  - eexists. split; [vm_compute; reflexivity|]. reflexivity.
Qed.

(** * Further properties of the bracket code *)

(** ** Failures *)



(** ** What submissions never change *)

Lemma submit_skeleton w s :
  let w' := stored_after w (submit w s) in
  tournament w' = tournament w
  ∧ ∀ j, skeleton <$> getMatch w' j = skeleton <$> getMatch w j.
Proof.
  unfold submit. cbv zeta.
  destruct s as [[mid|] [u|] wi sc pf t t'];
    cbn [sub_matchId sub_userId sub_winnerId sub_scores sub_proof sub_now
         sub_now']; [| |by rewrite submitResult_malformed..].
  2: { destruct (getMatch w mid) as [m|] eqn:Hm.
       - by rewrite (submitResult_not_string w mid m).
       - by rewrite submitResult_unknown. }
  destruct (getMatch w mid) as [m|] eqn:Hm;
    [|by rewrite submitResult_unknown].
  destruct (mongoose_key u) eqn:Hkey;
    [|by rewrite (submitResult_refused w mid m)].
  destruct (submitResult_found w mid m u wi sc pf t t' Hm Hkey)
    as (w'&m'&Hr&Hg&_&_&Hwin&Htour&_&Hdone&Hnot).
  assert (skeleton m' = skeleton m) as Hsk.
  { revert Hr. unfold submitResult, claims_set, settle.
    rewrite Hm, Hkey. simpl.
    repeat case_match; simpl; intros; simplify_eq; try done.
    unfold finalizeMatch in *.
    destruct (advanceWinner w mid _); simplify_eq/=; done. }
  rewrite Hr. cbn [stored_after]. split; [exact Htour|].
  assert (∀ p1 x j,
            skeleton <$> getMatch (advanced w m p1 x) j
            = skeleton <$> getMatch w j) as Hadv.
  { intros p1 x j. unfold advanced.
    destruct (Match.nextMatchId m) as [nid|]; [|done].
    destruct (getMatch w nid) as [nm|] eqn:Hnm; [|done].
    unfold getMatch, save in *. simpl.
    destruct (decide (nid = j)) as [<-|Hne].
    - rewrite lookup_insert_eq, Hnm. simpl. unfold schedule_if_filled.
      by destruct (both_filled _), (Match.nextMatchSlot m) as [[]|].
    - by rewrite lookup_insert_ne. }
  intros j. destruct (decide (status_from_claims
      (Match.set_claims (<[u:=Claim.mk wi sc pf t]> (Match.claims m)) m)
      = completed)) as [Hc|Hc].
  - destruct (Hdone Hc) as (p1&c1&_&_&->).
    unfold getMatch, save. simpl. destruct (decide (mid = j)) as [<-|Hne].
    + rewrite lookup_insert_eq. simpl. rewrite Hsk.
      unfold getMatch in Hm. by rewrite Hm.
    + rewrite lookup_insert_ne by done. apply Hadv.
  - rewrite (Hnot Hc). unfold getMatch, save. simpl.
    destruct (decide (mid = j)) as [<-|Hne].
    + rewrite lookup_insert_eq. simpl. rewrite Hsk.
      unfold getMatch in Hm. by rewrite Hm.
    + by rewrite lookup_insert_ne.
Qed.

(** X3.  Whatever sequence of submitResult calls is made, with whatever
    arguments, returning or throwing, it leaves alone the Tournament
    document (so the rounds and the status that getBracketData reports),
    the set of stored match ids (no match is created or deleted) and, for
    every match, its tournamentId, round, winner field, nextMatchId and
    nextMatchSlot. *)
Theorem submissions_keep_structure subs : ∀ w,
  let w' := submitEach w subs in
  tournament w' = tournament w
  ∧ dom (collection w') = dom (collection w)
  ∧ ∀ j, skeleton <$> getMatch w' j = skeleton <$> getMatch w j.
Proof.
  assert (∀ w,
            tournament (submitEach w subs) = tournament w
            ∧ ∀ j, skeleton <$> getMatch (submitEach w subs) j
                   = skeleton <$> getMatch w j)
    as Hmain.
  { induction subs as [|s subs IH]; intros w; [done|].
    destruct (submit_skeleton w s) as (Ht1&Hk1).
    destruct (IH (stored_after w (submit w s))) as (Ht&Hk).
    unfold submitEach in *. cbn [foldl].
    split; [congruence|]. intros j. by rewrite Hk, Hk1. }
  intros w. destruct (Hmain w) as (Ht&Hk).
  split; [exact Ht|]. split; [|exact Hk].
  apply set_eq. intros j. rewrite !elem_of_dom. specialize (Hk j).
  unfold getMatch in Hk.
  destruct (collection (submitEach w subs) !! j), (collection w !! j);
    simpl in Hk; try done; split; intros [? ?]; done.
Qed.

(** ** The bracket status *)

(** X4.  A submitResult call on a stored match sets the bracket object's
    status to completed exactly when the call finalises (the two claims
    agree) a match that has no nextMatchId; in every other case the
    status is what it was, so it never returns from completed to
    active.  (A call whose submitter id the claims Map refuses throws
    before it stores anything.) *)
Theorem bracket_status_after_submit w matchId m (userId : string) winnerId
    scores proof now now' :
  getMatch w matchId = Some m →
  (mongoose_key userId = true →
   ∃ w' m',
     submitResult w matchId userId winnerId scores proof now now'
       = Returned (w', Some m')
     ∧ bracket_status w'
       = if decide (Match.status m' = completed ∧ Match.nextMatchId m = None)
         then bracket_completed else bracket_status w)
  ∧ (mongoose_key userId = false →
     submitResult w matchId userId winnerId scores proof now now'
       = Thrown MapKeyError).
Proof.
  intros Hm. split; [|by apply (submitResult_refused w matchId m)].
  intros Hkey.
  destruct (submitResult_found w matchId m userId winnerId scores proof
              now now' Hm Hkey) as (w'&m'&Hr&_&_&Hs&_&_&_&Hdone&Hnot).
  exists w', m'. split; [exact Hr|]. rewrite Hs.
  destruct (decide (status_from_claims
      (Match.set_claims
         (<[userId:=Claim.mk winnerId scores proof now]> (Match.claims m)) m)
      = completed)) as [Hc|Hc].
  - destruct (Hdone Hc) as (p1&c1&_&_&->). unfold advanced.
    destruct (Match.nextMatchId m) as [nid|].
    + destruct (decide (_ ∧ Some nid = None)) as [[_ ?]|_]; [done|].
      by destruct (getMatch w nid).
    + destruct (decide (_ ∧ None = None)) as [_|Hn]; [done|].
      by destruct Hn.
  - rewrite (Hnot Hc).
    by destruct (decide (_ ∧ Match.nextMatchId m = None)) as [[? _]|_].
Qed.

Lemma bracket_status_after_submit_witness :
  ∃ w' m',
    submitResult w_awaiting 0 "bob" "alice" None None 2 3
      = Returned (w', Some m')
    ∧ bracket_status w' = active.
Proof.
  destruct (proj1 (bracket_status_after_submit w_awaiting 0
              (duel awaiting_confirmation None
                 {[ "alice"%string := Claim.mk "alice" None None 1 ]})
              "bob" "alice" None None 2 3 eq_refl) eq_refl)
    as (w'&m'&Hr&Hb).
  exists w', m'. split; [exact Hr|].
  rewrite Hb. apply decide_False. intros [_ ?]. discriminate.
Defined.

(** ** A winner id that names neither player *)

(** X5.  The claimed winner id is never checked against the two players.
    When both players' claims agree on an id that is not player1's, the
    match is finalised (status completed, result set to the scores of
    player1's claim and the clock reading) and it is player2 who is
    placed in the successor's slot, whoever was named; the named id is
    kept in the claims only. *)
Theorem agreed_outsider_advances_player2 w matchId m (userId : string)
    winnerId scores proof now now' p1 p2 claim1 claim2 nextId nextMatch s :
  let claims' :=
    <[userId := Claim.mk winnerId scores proof now]> (Match.claims m) in
  getMatch w matchId = Some m →
  Match.player1 m = Some p1 →
  Match.player2 m = Some p2 →
  claims' !! p1 = Some claim1 →
  claims' !! p2 = Some claim2 →
  Claim.winnerId claim1 = Claim.winnerId claim2 →
  Claim.winnerId claim1 ≠ p1 →
  Match.nextMatchId m = Some nextId →
  Match.nextMatchSlot m = Some s →
  getMatch w nextId = Some nextMatch →
  nextId ≠ matchId →
  mongoose_key userId = true →
  ∃ w' m' nm',
    submitResult w matchId userId winnerId scores proof now now'
      = Returned (w', Some m')
    ∧ Match.status m' = completed
    ∧ Match.result m' = Some (Result.mk (Claim.scores claim1) now')
    ∧ Match.winner m' = Match.winner m
    ∧ Match.claims m' = claims'
    ∧ getMatch w' nextId = Some nm'
    ∧ slot_of s nm' = Some p2.
Proof.
  intros claims' Hm Hp1 Hp2 Hc1 Hc2 Hagree Hne Hnext Hslot Hnm Hloop Hkey.
  eexists _, _, _. split.
  { apply (submitResult_consensus w matchId m _ _ _ _ _ _ Hm Hkey p1
             claim1); [|done|done].
    unfold status_from_claims, claim_of. simpl. rewrite Hp1, Hp2. simpl.
    fold claims'. rewrite Hc1, Hc2. by rewrite decide_True. }
  split; [done|]. split; [done|]. split; [done|]. split; [done|].
  unfold getMatch, save, advanced. simpl.
  rewrite lookup_insert_ne by done. rewrite Hnext, Hnm. simpl.
  rewrite lookup_insert_eq, decide_False by done. split; [done|].
  rewrite Hslot, Hp2. unfold schedule_if_filled.
  by destruct s; simpl; destruct (both_filled _).
Qed.

Lemma agreed_outsider_advances_player2_witness :
  ∃ w' m' nm',
    submitResult
      (sample_world
         (duel awaiting_confirmation None
            {[ "alice"%string := Claim.mk "mallory" None None 1 ]})
         (final None))
      0 "bob" "mallory" None None 2 3
      = Returned (w', Some m')
    ∧ Match.status m' = completed
    ∧ Match.result m' = Some (Result.mk None 3)
    ∧ Match.winner m' = None
    ∧ Match.claims m'
      = <[("bob" : string) := Claim.mk "mallory" None None 2]>
          {[ "alice"%string := Claim.mk "mallory" None None 1 ]}
    ∧ getMatch w' 2 = Some nm'
    ∧ slot_of slot_player1 nm' = Some "bob"%string.
Proof.
  destruct (agreed_outsider_advances_player2
              (sample_world
                 (duel awaiting_confirmation None
                    {[ "alice"%string := Claim.mk "mallory" None None 1 ]})
                 (final None))
              0 (duel awaiting_confirmation None
                   {[ "alice"%string := Claim.mk "mallory" None None 1 ]})
              "bob" "mallory" None None 2 3 "alice" "bob"
              (Claim.mk "mallory" None None 1)
              (Claim.mk "mallory" None None 2)
              2 (final None) slot_player1)
    as (w'&m'&nm'&Hr&Hs&Hres&Hwin&Hcl&Hg&Hslot);
    try reflexivity; try discriminate.
  exists w', m', nm'. repeat split; assumption.
Defined.

(** ** Repeating a call *)

Lemma place_twice slot winner nm :
  schedule_if_filled
    (place slot winner (schedule_if_filled (place slot winner nm)))
  = schedule_if_filled (place slot winner nm).
Proof.
  destruct nm as [tid r p1 p2 wn st nid ns res cl].
  destruct slot as [[]|], winner, p1, p2; reflexivity.
Qed.

Lemma save_twice matchId m m' w :
  save matchId m (save matchId m' w) = save matchId m w.
Proof. unfold save, set_collection. simpl. by rewrite insert_insert_eq. Qed.

Lemma save_swap i j mi mj w :
  i ≠ j → save i mi (save j mj w) = save j mj (save i mi w).
Proof.
  intros Hne. unfold save, set_collection. simpl. f_equal.
  by apply insert_insert_ne.
Qed.

Lemma resubmission_stored w matchId m (userId : string) winnerId scores
    proof now now' :
  getMatch w matchId = Some m →
  mongoose_key userId = true →
  Match.nextMatchId m ≠ Some matchId →
  ∃ w1 r,
    submitResult w matchId userId winnerId scores proof now now'
      = Returned (w1, r)
    ∧ submitResult w1 matchId userId winnerId scores proof now now'
      = Returned (w1, r).
Proof.
  intros Hm Hkey Hself.
  set (c := Claim.mk winnerId scores proof now).
  set (m1 := Match.set_claims (<[userId := c]> (Match.claims m)) m).
  assert (∀ m2,
            Match.player1 m2 = Match.player1 m →
            Match.player2 m2 = Match.player2 m →
            Match.claims m2 = <[userId := c]> (Match.claims m) →
            Match.set_claims (<[userId := c]> (Match.claims m2)) m2 = m2
            ∧ status_from_claims m2 = status_from_claims m1) as Hsame.
  { intros m2 Hp1 Hp2 Hc. split.
    - destruct m2. simpl in *. rewrite Hc. by rewrite insert_insert_eq.
    - unfold status_from_claims, claim_of. rewrite Hp1, Hp2, Hc. done. }
  destruct (status_from_claims m1) eqn:Hs.
  1,2,4: exfalso; revert Hs; unfold status_from_claims;
    repeat case_match; done.
  - (* completed *)
    assert (∃ p1 c1, Match.player1 m = Some p1
                     ∧ Match.claims m1 !! p1 = Some c1) as (p1&c1&Hp&Hc).
    { revert Hs. unfold status_from_claims, claim_of. simpl.
      destruct (Match.player1 m) as [p1|]; simpl; [|done].
      destruct (_ !! p1) as [c1|] eqn:Hc; [|done]. eauto. }
    set (x := Claim.winnerId c1).
    set (m2 := Match.set_status completed
                 (Match.set_result (Result.mk (Claim.scores c1) now') m1)).
    set (w1 := save matchId m2 (advanced w m p1 x)).
    exists w1, (Some m2). split.
    { by apply (submitResult_consensus w matchId m _ _ _ _ _ _ Hm Hkey p1
                  c1). }
    destruct (Hsame m2) as [Hm2 Hs2]; [done..|].
    assert (getMatch w1 matchId = Some m2) as Hg
        by (unfold w1, getMatch, save; simpl; apply lookup_insert_eq).
    rewrite (submitResult_consensus w1 matchId m2 _ _ _ _ _ _ Hg Hkey p1
               c1);
      [|fold c; by rewrite Hm2, Hs2|done|fold c; by rewrite Hm2].
    fold c. rewrite Hm2. fold x. f_equal. f_equal.
    change (Match.set_status completed
              (Match.set_result (Result.mk (Claim.scores c1) now') m2))
      with m2.
    unfold advanced. change (Match.nextMatchId m2) with (Match.nextMatchId m).
    change (Match.nextMatchSlot m2) with (Match.nextMatchSlot m).
    change (Match.player2 m2) with (Match.player2 m).
    clear Hg. subst w1. unfold advanced.
    destruct (Match.nextMatchId m) as [nid|] eqn:Hn.
    + destruct (getMatch w nid) as [nm|] eqn:Hnm.
      * set (nm' := schedule_if_filled
                      (place (Match.nextMatchSlot m)
                         (if decide (p1 = x) then Some p1
                          else Match.player2 m) nm)).
        destruct (decide (nid = matchId)) as [->|Hne]; [done|].
        assert (getMatch (save matchId m2 (save nid nm' w)) nid
                = Some nm') as ->.
        { unfold getMatch, save. simpl.
          rewrite lookup_insert_ne by done. apply lookup_insert_eq. }
        unfold nm'. rewrite place_twice. fold nm'.
        rewrite (save_swap nid matchId) by done.
        by rewrite !save_twice.
      * assert (getMatch (save matchId m2 w) nid = None) as ->.
        { unfold getMatch, save. simpl.
          rewrite lookup_insert_ne; [done|]. intros Heq.
          apply (f_equal (getMatch w)) in Heq. congruence. }
        by rewrite save_twice.
    + unfold save, set_collection. simpl. by rewrite insert_insert_eq.
  - (* dispute *)
    set (m2 := Match.set_status dispute m1).
    exists (save matchId m2 w), (Some m2). split.
    { by apply submitResult_dispute. }
    destruct (Hsame m2) as [Hm2 Hs2]; [done..|].
    rewrite (submitResult_dispute (save matchId m2 w) matchId m2);
      [|unfold getMatch, save; simpl; apply lookup_insert_eq
       |done
       |fold c; by rewrite Hm2, Hs2].
    fold c. rewrite Hm2, save_twice. reflexivity.
  - (* awaiting_confirmation *)
    set (m2 := Match.set_status awaiting_confirmation m1).
    exists (save matchId m2 w), (Some m2). split.
    { by apply submitResult_waiting. }
    destruct (Hsame m2) as [Hm2 Hs2]; [done..|].
    rewrite (submitResult_waiting (save matchId m2 w) matchId m2);
      [|unfold getMatch, save; simpl; apply lookup_insert_eq
       |done
       |fold c; by rewrite Hm2, Hs2].
    fold c. rewrite Hm2, save_twice. reflexivity.
Qed.

(** X6.  Where the match is not its own successor, a submitResult call
    repeated with the same arguments and clock readings does what the
    first call did and changes nothing further: it returns the same
    document and leaves stored what the first call stored, also when the
    call finalises the match and advances the winner; and it throws as
    the first call threw. *)
Theorem identical_resubmission_idempotent w matchId userId winnerId scores
    proof now now' :
  (∀ (id : MatchId) m,
     matchId = ObjectId id → getMatch w id = Some m →
     Match.nextMatchId m ≠ Some id) →
  let first :=
    submitResult w matchId userId winnerId scores proof now now' in
  submitResult (stored_after w first) matchId userId winnerId scores proof
    now now'
  = first.
Proof.
  intros Hself first. unfold first.
  destruct matchId as [id|]; [|done].
  destruct (getMatch w id) as [m|] eqn:Hm; cycle 1.
  { rewrite (submitResult_unknown w id) by done. cbn [stored_after].
    by rewrite submitResult_unknown. }
  destruct userId as [k|]; cycle 1.
  { rewrite (submitResult_not_string w id m) by done. cbn [stored_after].
    by rewrite (submitResult_not_string w id m). }
  destruct (mongoose_key k) eqn:Hkey; cycle 1.
  { rewrite (submitResult_refused w id m) by done. cbn [stored_after].
    by rewrite (submitResult_refused w id m). }
  destruct (resubmission_stored w id m k winnerId scores proof now now' Hm
              Hkey (Hself id m eq_refl Hm)) as (w1&r&Hfirst&Hsecond).
  rewrite Hfirst. cbn [stored_after]. exact Hsecond.
Qed.

Lemma identical_resubmission_idempotent_witness :
  submitResult
    (stored_after w_awaiting
       (submitResult w_awaiting 0 "bob" "alice" None None 2 3))
    0 "bob" "alice" None None 2 3
  = submitResult w_awaiting 0 "bob" "alice" None None 2 3.
Proof.
  apply (identical_resubmission_idempotent w_awaiting 0 "bob" "alice" None
           None 2 3).
  intros id m [= <-] Hm. vm_compute in Hm. injection Hm as <-. discriminate.
Defined.

(** ** The bracket is a tree *)

Lemma div2_lt_succ a c : a < c → Nat.div2 a < Nat.div2 (S c).
Proof.
  revert c. induction a as [a IH] using lt_wf_ind. intros c Hac.
  destruct a as [|[|a]], c as [|[|c]]; try (simpl; lia).
  change (S (Nat.div2 a) < S (Nat.div2 (S c))).
  assert (Nat.div2 a < Nat.div2 (S c)) by (apply IH; lia). lia.
Qed.

Lemma later_rounds_tree tid k : ∀ r base c all,
  base + c = length all →
  (∀ j m, all !! j = Some m →
          if decide (j < base)
          then Match.round m + 1 < r ∧ feeds_next all j m
          else Match.round m + 1 = r ∧ Match.nextMatchId m = None) →
  let final := later_rounds tid k r (seq base c) all in
  ∀ j m, final !! j = Some m →
         if decide (Match.round m + 1 < r + k)
         then feeds_next final j m
         else Match.round m + 1 = r + k ∧ Match.nextMatchId m = None.
Proof.
  induction k as [|k IH]; intros r base c all Hlen Hall; simpl.
  - intros j m Hm. specialize (Hall j m Hm). rewrite Nat.add_0_r.
    destruct (decide (j < base)) as [Hj|Hj].
    + destruct Hall as [? ?]. by rewrite decide_True by lia.
    + destruct Hall as [? ?]. by rewrite decide_False by lia.
  - assert (base + c ≤ length all) as Hle by lia.
    pose proof (round_loop_spec tid r c base all Hle) as Hspec.
    pose proof (round_loop_rounds tid r c base all Hle) as Hrounds.
    destruct (round_loop tid r (seq base c) all) as [next all'].
    simpl in Hspec, Hrounds. destruct Hspec as (-> & Hl & Hold & Hnew).
    replace (r + S k) with (S r + k) by lia.
    apply (IH (S r) (length all) (Nat.div2 (S c)) all' (eq_sym Hl)).
    intros j m' Hm'. destruct (decide (j < length all)) as [Hj|Hj].
    + rewrite Hold in Hm' by done.
      destruct (all !! j) as [m|] eqn:Hm; [|done].
      simpl in Hm'. injection Hm' as <-. specialize (Hall j m Hm).
      destruct (decide (j < base)) as [Hb|Hb].
      * rewrite linked_out by lia. destruct Hall as [Hr (x&Hx&Hs&Hjx&Hrx)].
        split; [lia|]. exists x. repeat split; [done..|].
        rewrite Hrounds. by apply lookup_app_l_Some.
      * destruct Hall as [Hr _]. rewrite linked_in by lia.
        split; [simpl; lia|].
        exists (length all + Nat.div2 (j - base)).
        cbn [Match.nextMatchId Match.nextMatchSlot Match.round
             Match.set_next].
        split; [done|]. split; [by eexists|].
        split; [by apply Nat.lt_lt_add_r|].
        rewrite Hrounds, lookup_app_r
          by (rewrite length_fmap; apply Nat.le_add_r).
        rewrite length_fmap, Nat.add_comm, Nat.add_sub.
        rewrite lookup_replicate_2
          by (apply div2_lt_succ; lia).
        f_equal. lia.
    + rewrite Hnew in Hm' by (apply lookup_lt_Some in Hm'; lia).
      injection Hm' as <-. simpl. split; [lia|done].
Qed.

Lemma advanceWinner_skeleton w matchId winnerId w' :
  advanceWinner w matchId winnerId = Returned w' →
  ∀ j, skeleton <$> getMatch w' j = skeleton <$> getMatch w j.
Proof.
  unfold advanceWinner. intros Hr.
  destruct (getMatch w matchId) as [m|] eqn:Hm; [|by injection Hr as <-].
  destruct (Match.nextMatchId m) as [nid|] eqn:Hn; [|by injection Hr as <-].
  destruct (getMatch w nid) as [nm|] eqn:Hnm; [|by injection Hr as <-].
  destruct (advancing_player m winnerId) as [p|]; [|done].
  simpl in Hr. injection Hr as <-. unfold getMatch, save in *. simpl.
  intros j. destruct (decide (nid = j)) as [<-|Hne].
  - rewrite lookup_insert_eq, Hnm. simpl. unfold schedule_if_filled.
    by destruct (both_filled _), (Match.nextMatchSlot m) as [[]|].
  - by rewrite lookup_insert_ne.
Qed.

Lemma advance_byes_skeleton ms : ∀ w i w',
  advance_byes w i ms = Returned w' →
  ∀ j, skeleton <$> getMatch w' j = skeleton <$> getMatch w j.
Proof.
  induction ms as [|m ms IH]; intros w i w' Hr j; simpl in Hr.
  - by injection Hr as <-.
  - destruct (Match.status m), (Match.winner m) as [wn|];
      try by apply (IH w (S i)).
    destruct (advanceWinner w i wn) as [w1|] eqn:Hadv; [|done].
    simpl in Hr. rewrite (IH w1 (S i) w' Hr).
    by apply (advanceWinner_skeleton w i wn w1).
Qed.

(** The bye loop changes slots and statuses only: what is stored keeps
    the skeleton of what was created. *)
Lemma generateBracket_skeleton tid shuffled allMatches w :
  generateBracket tid shuffled = Returned (allMatches, w) →
  ∀ j, skeleton <$> getMatch w j = skeleton <$> allMatches !! j.
Proof.
  intros Hgen j. unfold generateBracket in Hgen.
  destruct (advance_byes _ 0 _) as [w1|] eqn:Hadv; [|done].
  simpl in Hgen. injection Hgen as <- <-.
  pose proof (advance_byes_skeleton _ _ _ _ Hadv j) as Hl.
  unfold getMatch in *. simpl in *. by rewrite lookup_map_seq_0 in Hl.
Qed.

Lemma build_tree tid shuffled j m :
  2 ≤ length shuffled →
  build_matches tid shuffled !! j = Some m →
  1 ≤ Match.round m
  ∧ if decide (Match.round m < rounds_of (length shuffled))
    then feeds_next (build_matches tid shuffled) j m
    else Match.round m = rounds_of (length shuffled)
         ∧ Match.nextMatchId m = None.
Proof.
  intros Hn Hm. split.
  - assert ((Match.round <$> build_matches tid shuffled) !! j
            = Some (Match.round m)) as Hr
        by (by rewrite list_lookup_fmap, Hm).
    rewrite (build_rounds tid shuffled Hn) in Hr.
    apply list_elem_of_lookup_2, elem_of_app in Hr.
    destruct Hr as [[-> _]%elem_of_replicate|Hr%rounds_tail_ge]; lia.
  - pose proof (rounds_of_spec _ Hn) as (HR&_).
    rewrite (build_B tid shuffled Hn) in Hm |- *.
    set (half := 2 ^ (rounds_of (length shuffled) - 1)) in *.
    set (first := first_round_match tid shuffled (size_of (length shuffled))
                  <$> seq 0 half) in *.
    assert (0 + half = length first) as Hlen
        by (unfold first; by rewrite length_fmap, length_seq).
    pose proof (later_rounds_tree tid (rounds_of (length shuffled) - 1) 2 0
                  half first Hlen) as Htree.
    cbv zeta in Htree.
    assert (∀ i mi, first !! i = Some mi →
              if decide (i < 0)
              then Match.round mi + 1 < 2 ∧ feeds_next first i mi
              else Match.round mi + 1 = 2 ∧ Match.nextMatchId mi = None)
      as Hfirst.
    { intros i mi Hi. unfold first in Hi. rewrite list_lookup_fmap in Hi.
      destruct (seq 0 half !! i); [|done]. simpl in Hi.
      injection Hi as <-. by rewrite decide_False by lia. }
    specialize (Htree Hfirst j m Hm).
    destruct (decide (Match.round m + 1
                      < 2 + (rounds_of (length shuffled) - 1))).
    + by rewrite decide_True by lia.
    + rewrite decide_False by lia. destruct Htree. split; [lia|done].
Qed.

(** X7.  The matches stored by generateBracket for n ≥ 2 participants form
    a tree: rounds run from 1 to rounds; every match of a round before
    the last names a successor and a slot, the successor is stored, has a
    larger id and belongs to the next round; a match of the last round
    names no successor.  So following nextMatchId never cycles and ends
    at the last round. *)
Theorem bracket_is_tree tid shuffled :
  2 ≤ length shuffled →
  ∃ allMatches w,
    generateBracket tid shuffled = Returned (allMatches, w)
    ∧ ∀ j m,
        getMatch w j = Some m →
        1 ≤ Match.round m ≤ rounds_of (length shuffled)
        ∧ if decide (Match.round m < rounds_of (length shuffled))
          then ∃ x nextMatch,
                 Match.nextMatchId m = Some x
                 ∧ is_Some (Match.nextMatchSlot m)
                 ∧ j < x
                 ∧ getMatch w x = Some nextMatch
                 ∧ Match.round nextMatch = S (Match.round m)
          else Match.nextMatchId m = None.
Proof.
  intros Hn.
  destruct (generateBracket_spec tid shuffled Hn) as (w&Hgen&_).
  exists (build_matches tid shuffled), w. split; [exact Hgen|].
  pose proof (generateBracket_skeleton _ _ _ _ Hgen) as Hsk.
  intros j m Hm. pose proof (Hsk j) as Hj. rewrite Hm in Hj.
  destruct (build_matches tid shuffled !! j) as [b|] eqn:Hb; [|done].
  simpl in Hj. injection Hj as Htid Hround Hwin Hnext Hslot.
  destruct (build_tree tid shuffled j b Hn Hb) as [H1 Htree].
  rewrite Hround, Hnext, Hslot.
  destruct (decide (Match.round b < rounds_of (length shuffled)))
    as [Hlt|Hge].
  - split; [lia|]. destruct Htree as (x&Hx&Hs&Hjx&Hrx).
    rewrite list_lookup_fmap in Hrx.
    destruct (build_matches tid shuffled !! x) as [bx|] eqn:Hbx; [|done].
    pose proof (Hsk x) as Hskx. rewrite Hbx in Hskx.
    destruct (getMatch w x) as [nm|] eqn:Hnm; [|by simpl in Hskx].
    simpl in Hskx, Hrx. injection Hskx as _ Hrnm _ _ _.
    exists x, nm. split; [done|]. split; [done|]. split; [done|].
    split; [done|]. congruence.
  - destruct Htree as [Heq ?]. split; [lia|done].
Qed.

Lemma bracket_is_tree_witness :
  ∃ allMatches w,
    generateBracket 7 five = Returned (allMatches, w)
    ∧ ∃ m nextMatch,
        getMatch w 4 = Some m
        ∧ Match.nextMatchId m = Some 6
        ∧ getMatch w 6 = Some nextMatch
        ∧ Match.round nextMatch = S (Match.round m).
Proof.
  destruct (bracket_is_tree 7 five) as (allMatches&w&Hgen&Htree);
    [simpl; lia|].
  exists allMatches, w. split; [exact Hgen|].
  pose proof Hgen as Hrun. vm_compute in Hrun. injection Hrun as <- <-.
  destruct (Htree 4 _ eq_refl) as [_ Hnext].
  destruct Hnext as (x&nm&Hx&_&_&Hnm&Hr).
  eexists _, nm. split; [reflexivity|].
  injection Hx as <-. repeat split; assumption.
Defined.

(** ** Seeding and byes *)

Lemma build_first_round_core tid shuffled i :
  2 ≤ length shuffled →
  i < 2 ^ (rounds_of (length shuffled) - 1) →
  ∃ m, build_matches tid shuffled !! i = Some m
       ∧ Match.player1 m = shuffled !! i
       ∧ Match.player2 m = shuffled !! (size_of (length shuffled) - 1 - i)
       ∧ Match.status m
         = (if decide (i < size_of (length shuffled) - length shuffled)
            then completed else scheduled).
Proof.
  intros Hn Hi. rewrite (build_first_round tid shuffled Hn i Hi).
  eexists. split; [done|].
  pose proof (build_half shuffled Hn) as (_&Hlt&Hle).
  pose proof (build_size shuffled Hn) as Hsize.
  assert (Match.status (first_round_match tid shuffled
                          (size_of (length shuffled)) i)
          = if decide (i < size_of (length shuffled) - length shuffled)
            then completed else scheduled) as Hst.
  { unfold first_round_match. simpl.
    destruct (shuffled !! (size_of (length shuffled) - 1 - i)) eqn:Hq.
    - apply lookup_lt_Some in Hq. by rewrite decide_False by lia.
    - apply lookup_ge_None in Hq. by rewrite decide_True by lia. }
  destruct (decide (2 ≤ rounds_of (length shuffled)));
    (split; [reflexivity|]; split; [reflexivity|]; exact Hst).
Qed.

(** X8.  Seeding loses and duplicates nobody: read along the fold, the
    first-round slots of the bracket built for n ≥ 2 participants are
    exactly the shuffled list followed by bracketSize - n empty slots.
    Match i pairs position i with position bracketSize - 1 - i, and the
    first-round documents are stored as created. *)
Theorem seeding_is_the_shuffled_list tid shuffled :
  2 ≤ length shuffled →
  ∃ allMatches w,
    generateBracket tid shuffled = Returned (allMatches, w)
    ∧ seats (first_round_count (size_of (length shuffled))) allMatches
      = (Some <$> shuffled)
        ++ replicate (size_of (length shuffled) - length shuffled) None
    ∧ ∀ j, j < first_round_count (size_of (length shuffled)) →
           getMatch w j = allMatches !! j.
Proof.
  intros Hn.
  destruct (generateBracket_spec tid shuffled Hn) as (w&Hgen&H1&_).
  exists (build_matches tid shuffled), w. split; [exact Hgen|].
  rewrite (build_first_count shuffled Hn). split; [|exact H1].
  pose proof (build_half shuffled Hn) as (Hh1&Hlt&Hle).
  pose proof (build_size shuffled Hn) as Hsize.
  pose proof (build_length tid shuffled Hn) as HlenB.
  pose proof (rounds_of_spec _ Hn) as (HR&_).
  set (half := 2 ^ (rounds_of (length shuffled) - 1)) in *.
  set (size := size_of (length shuffled)) in *.
  set (B := build_matches tid shuffled) in *.
  assert (half ≤ length B) as HhB.
  { rewrite HlenB. replace (rounds_of (length shuffled))
      with (S (rounds_of (length shuffled) - 1)) by lia.
    rewrite Nat.pow_succ_r'. fold half. lia. }
  assert (length (take half B) = half) as Htake
      by (rewrite length_take; lia).
  unfold seats. apply list_eq. intros i.
  destruct (decide (i < half)) as [Hi|Hi].
  - rewrite lookup_app_l by (rewrite length_fmap; lia).
    rewrite list_lookup_fmap, lookup_take_lt by done.
    destruct (build_first_round_core tid shuffled i Hn Hi)
      as (m&Hm&Hp1&_). fold B in Hm. rewrite Hm. simpl. rewrite Hp1.
    rewrite lookup_app_l by (rewrite length_fmap; lia).
    rewrite list_lookup_fmap.
    destruct (lookup_lt_is_Some_2 shuffled i) as [p ->]; [lia|done].
  - rewrite lookup_app_r by (rewrite length_fmap; lia).
    rewrite length_fmap, Htake.
    destruct (decide (i < size)) as [Hs|Hs].
    + rewrite reverse_lookup by (rewrite length_fmap; lia).
      rewrite length_fmap, Htake, list_lookup_fmap.
      rewrite lookup_take_lt by lia.
      assert (half - S (i - half) < half) as Hj by lia.
      destruct (build_first_round_core tid shuffled _ Hn Hj)
        as (m&Hm&_&Hp2&_). fold B size in Hm, Hp2. rewrite Hm. simpl.
      rewrite Hp2. replace (size - 1 - (half - S (i - half))) with i by lia.
      destruct (decide (i < length shuffled)) as [Hin|Hin].
      * rewrite lookup_app_l by (rewrite length_fmap; lia).
        rewrite list_lookup_fmap.
        destruct (lookup_lt_is_Some_2 shuffled i) as [p ->]; [lia|done].
      * rewrite lookup_app_r by (rewrite length_fmap; lia).
        rewrite lookup_replicate_2 by (rewrite length_fmap; lia).
        by rewrite lookup_ge_None_2 by lia.
    + rewrite lookup_ge_None_2
        by (rewrite length_reverse, length_fmap; lia).
      symmetry. apply lookup_ge_None_2.
      rewrite length_app, length_fmap, length_replicate. lia.
Qed.

Lemma seeding_is_the_shuffled_list_witness :
  ∃ allMatches w,
    generateBracket 7 five = Returned (allMatches, w)
    ∧ seats (first_round_count (size_of (length five))) allMatches
      = (Some <$> five) ++ replicate (size_of (length five) - length five) None
    ∧ ∀ j, j < first_round_count (size_of (length five)) →
           getMatch w j = allMatches !! j.
Proof. apply (seeding_is_the_shuffled_list 7 five). simpl. lia. Defined.

(** X9.  The statuses at creation, for n ≥ 2 participants: the first
    bracketSize - n matches are byes (completed), the other
    n - bracketSize / 2 first-round matches are scheduled, and all
    bracketSize / 2 - 1 later matches are pending.  So exactly
    bracketSize - n matches are completed at build, none if n is a power
    of two. *)
Theorem statuses_at_build tid shuffled :
  2 ≤ length shuffled →
  ∃ allMatches w,
    generateBracket tid shuffled = Returned (allMatches, w)
    ∧ Match.status <$> allMatches
      = replicate (size_of (length shuffled) - length shuffled) completed
        ++ replicate (length shuffled
                      - first_round_count (size_of (length shuffled)))
             scheduled
        ++ replicate (first_round_count (size_of (length shuffled)) - 1)
             pending
    ∧ length (filter (λ m, Match.status m = completed) allMatches)
      = size_of (length shuffled) - length shuffled.
Proof.
  intros Hn.
  destruct (generateBracket_spec tid shuffled Hn) as (w&Hgen&_).
  exists (build_matches tid shuffled), w. split; [exact Hgen|].
  rewrite (build_first_count shuffled Hn).
  pose proof (build_half shuffled Hn) as (Hh1&Hlt&Hle).
  pose proof (build_size shuffled Hn) as Hsize.
  pose proof (build_length tid shuffled Hn) as HlenB.
  pose proof (rounds_of_spec _ Hn) as (HR&_).
  set (half := 2 ^ (rounds_of (length shuffled) - 1)) in *.
  set (size := size_of (length shuffled)) in *.
  set (B := build_matches tid shuffled) in *.
  assert (length B = 2 * half - 1) as HlB.
  { rewrite HlenB. replace (rounds_of (length shuffled))
      with (S (rounds_of (length shuffled) - 1)) by lia.
    rewrite Nat.pow_succ_r'. by fold half. }
  assert (Match.status <$> B
          = replicate (size - length shuffled) completed
            ++ replicate (length shuffled - half) scheduled
            ++ replicate (half - 1) pending) as Hst.
  { apply list_eq. intros i. rewrite list_lookup_fmap.
    destruct (decide (i < half)) as [Hi|Hi].
    - destruct (build_first_round_core tid shuffled i Hn Hi)
        as (m&Hm&_&_&Hs). fold B size in Hm, Hs. rewrite Hm. simpl.
      rewrite Hs. case_decide.
      + rewrite lookup_app_l by (rewrite length_replicate; lia).
        by rewrite lookup_replicate_2 by lia.
      + rewrite lookup_app_r by (rewrite length_replicate; lia).
        rewrite length_replicate.
        rewrite lookup_app_l by (rewrite length_replicate; lia).
        by rewrite lookup_replicate_2 by lia.
    - rewrite lookup_app_r by (rewrite length_replicate; lia).
      rewrite length_replicate.
      rewrite lookup_app_r by (rewrite length_replicate; lia).
      rewrite length_replicate.
      destruct (B !! i) as [m|] eqn:Hm; simpl.
      + pose proof (lookup_lt_Some _ _ _ Hm).
        assert (half ≤ i) as Hhi by lia.
        destruct (build_later tid shuffled Hn i m Hhi Hm) as [r Hr].
        apply (f_equal Match.status) in Hr. simpl in Hr. rewrite Hr.
        by rewrite lookup_replicate_2 by lia.
      + apply lookup_ge_None in Hm.
        symmetry. apply lookup_replicate_None. lia. }
  split; [exact Hst|].
  assert (∀ l : list Match.t,
            length (filter (λ m, Match.status m = completed) l)
            = length (filter (λ s, s = completed) (Match.status <$> l)))
    as Hfilter.
  { induction l as [|m l IH]; [done|].
    rewrite fmap_cons, !filter_cons.
    destruct (decide (Match.status m = completed)); simpl; by rewrite IH. }
  assert (∀ k s, length (filter (λ s', s' = completed) (replicate k s))
                 = if decide (s = completed) then k else 0) as Hrep.
  { intros k s. induction k as [|k IH]; simpl; [by case_decide|].
    rewrite filter_cons. destruct (decide (s = completed)); simpl;
      by rewrite IH. }
  rewrite Hfilter, Hst, !filter_app, !length_app, !Hrep. simpl. lia.
Qed.

Lemma statuses_at_build_witness :
  ∃ allMatches w,
    generateBracket 7 five = Returned (allMatches, w)
    ∧ Match.status <$> allMatches
      = [completed; completed; completed; scheduled;
         pending; pending; pending]
    ∧ length (filter (λ m, Match.status m = completed) allMatches) = 3.
Proof. apply (statuses_at_build 7 five). simpl. lia. Defined.

(** ** Fewer than two participants *)

(** X10.  generateBracket itself does not refuse short lists (only the
    route does).  For an empty list it stores no match and writes empty
    match and round lists; for a single participant it declares zero
    rounds and stores one scheduled first-round match that pairs the
    participant with itself and has no successor. *)
Theorem degenerate_brackets tid (p : UserId) :
  (∃ w, generateBracket tid [] = Returned ([], w)
        ∧ collection w = ∅
        ∧ tournament w = Tournament.mk [] [] Active)
  ∧ (∃ m w, generateBracket tid [p] = Returned ([m], w)
            ∧ getMatch w 0 = Some m
            ∧ Match.round m = 1
            ∧ Match.player1 m = Some p
            ∧ Match.player2 m = Some p
            ∧ Match.status m = scheduled
            ∧ Match.winner m = None
            ∧ Match.nextMatchId m = None
            ∧ tournament w = Tournament.mk [0] [] Active
            ∧ bracket_status w = active).
Proof.
  split.
  - eexists. split; [reflexivity|]. split; reflexivity.
  - eexists _, _. split; [reflexivity|]. repeat split; reflexivity.
Qed.

(** * LeaderboardManager *)

(** ** The Map *)

Lemma map_get_set_eq k v gs : map_get k (map_set k v gs) = Some v.
Proof.
  unfold map_get. induction gs as [|[k' v'] gs IH]; simpl.
  - by rewrite bool_decide_true.
  - destruct (decide (k' = k)) as [->|Hne]; simpl.
    + by rewrite bool_decide_true.
    + by rewrite bool_decide_false.
Qed.

Lemma map_get_set_ne k k' v gs :
  k' ≠ k → map_get k' (map_set k v gs) = map_get k' gs.
Proof.
  intros Hne. unfold map_get. induction gs as [|[k0 v0] gs IH]; simpl.
  - by rewrite bool_decide_false.
  - destruct (decide (k0 = k)) as [->|Hne0]; simpl.
    + by rewrite !bool_decide_false.
    + destruct (bool_decide (k0 = k')); [done|apply IH].
Qed.

Lemma map_get_Some k s gs : map_get k gs = Some s → (k, s) ∈ gs.
Proof.
  unfold map_get. induction gs as [|[k0 v0] gs IH]; simpl; [done|].
  case_bool_decide as Hk; simpl.
  - intros [= <-]. simpl in Hk. subst. left.
  - intros Hs. right. by apply IH.
Qed.

Lemma map_get_None k gs : map_get k gs = None → k ∉ (fst <$> gs).
Proof.
  unfold map_get. induction gs as [|[k0 v0] gs IH]; simpl.
  - intros _. apply not_elem_of_nil.
  - case_bool_decide as Hk; simpl; [done|]. intros Hs.
    apply not_elem_of_cons. split; [by intros ->|by apply IH].
Qed.

Lemma map_set_keys k v gs :
  fst <$> map_set k v gs
  = match map_get k gs with
    | Some _ => fst <$> gs
    | None => (fst <$> gs) ++ [k]
    end.
Proof.
  unfold map_get. induction gs as [|[k0 v0] gs IH]; [done|].
  cbn [map_set find fst]. destruct (decide (k0 = k)) as [->|Hne].
  - by rewrite bool_decide_true.
  - rewrite bool_decide_false by done. rewrite !fmap_cons, IH.
    by destruct (find _ gs).
Qed.

Lemma map_set_Forall (P : JsKey * Stats.t → Prop) k v gs :
  Forall P gs → P (k, v) → Forall P (map_set k v gs).
Proof.
  intros Hgs Hv. induction Hgs as [|[k0 v0] gs H0 Hgs IH]; simpl.
  - by constructor.
  - destruct (decide (k0 = k)); by constructor.
Qed.

Lemma accumulate_add acc x : accumulate acc x = (acc + default 0 x)%Z.
Proof.
  unfold accumulate, truthy_num. destruct x as [z|]; simpl; [|lia].
  case_decide; simpl; lia.
Qed.

(** ** updateLeaderboard *)

(** X11.  As long as the numbers of the entry, the numbers given and
    their sums are safe integers (where the addition of doubles is
    exact), updateLeaderboard adds the given numbers (an absent field
    counts as 0) to the entry stored under the given key, creating it
    from zeros if there is none.  The key is a value of any kind, an
    object counting as the same key only when it is the same object.
    The entry keeps its userId, every entry under another key is
    untouched, an existing key keeps its place in the Map and a new one
    is appended; and the Map stays well formed (distinct keys, each
    entry carrying its key as userId). *)
Theorem updateLeaderboard_accumulates gs userId stats :
  let before := map_get userId gs in
  let gs' := updateLeaderboard gs userId stats in
  stays_safe before stats →
  ∃ s',
    map_get userId gs' = Some s'
    ∧ Stats.userId s' = from_option Stats.userId userId before
    ∧ Stats.points s'
      = (from_option Stats.points 0 before
         + default 0 (StatsUpdate.points stats))%Z
    ∧ Stats.wins s'
      = (from_option Stats.wins 0 before
         + default 0 (StatsUpdate.wins stats))%Z
    ∧ Stats.earnings s'
      = (from_option Stats.earnings 0 before
         + default 0 (StatsUpdate.earnings stats))%Z
    ∧ Stats.tournamentsPlayed s'
      = (from_option Stats.tournamentsPlayed 0 before
         + default 0 (StatsUpdate.tournamentsPlayed stats))%Z
    ∧ (∀ k, k ≠ userId → map_get k gs' = map_get k gs)
    ∧ fst <$> gs'
      = match before with
        | Some _ => fst <$> gs
        | None => (fst <$> gs) ++ [userId]
        end
    ∧ (stats_wf gs → stats_wf gs').
Proof.
  intros before gs' _. unfold gs', updateLeaderboard. fold before.
  eexists. split; [apply map_get_set_eq|].
  cbn [Stats.userId Stats.points Stats.wins Stats.earnings
       Stats.tournamentsPlayed].
  rewrite !accumulate_add.
  split; [by destruct before|]. split; [by destruct before|].
  split; [by destruct before|]. split; [by destruct before|].
  split; [by destruct before|].
  split; [intros k Hk; by apply map_get_set_ne|].
  split; [apply map_set_keys|].
  intros [Hnodup Hfields]. split.
  - rewrite map_set_keys. fold before.
    destruct before as [c|] eqn:Hb; [done|].
    apply NoDup_app. split; [done|]. split; [|apply NoDup_singleton].
    intros k Hk ->%list_elem_of_singleton.
    by apply (map_get_None userId gs).
  - apply map_set_Forall; [done|]. simpl.
    destruct before as [c|] eqn:Hb; [|done].
    apply map_get_Some in Hb.
    by apply (proj1 (Forall_forall _ _) Hfields) in Hb.
Qed.

Lemma updateLeaderboard_accumulates_witness :
  ∃ s',
    map_get (KStr "alice")
      (updateLeaderboard
         (updateLeaderboard [] (KStr "alice")
            (StatsUpdate.mk (Some "alice"%string) (Some 25%Z) (Some 1%Z)
               (Some 0%Z) None))
         (KStr "alice")
         (StatsUpdate.mk None (Some 25%Z) (Some 1%Z) (Some 0%Z) None))
    = Some s'
    ∧ Stats.points s' = 50%Z
    ∧ stats_wf
        (updateLeaderboard
           (updateLeaderboard [] (KStr "alice")
              (StatsUpdate.mk (Some "alice"%string) (Some 25%Z) (Some 1%Z)
                 (Some 0%Z) None))
           (KStr "alice")
           (StatsUpdate.mk None (Some 25%Z) (Some 1%Z) (Some 0%Z) None)).
Proof.
  pose (first :=
          updateLeaderboard [] (KStr "alice")
            (StatsUpdate.mk (Some "alice"%string) (Some 25%Z) (Some 1%Z)
               (Some 0%Z) None)).
  destruct (updateLeaderboard_accumulates first (KStr "alice")
              (StatsUpdate.mk None (Some 25%Z) (Some 1%Z) (Some 0%Z) None))
    as (s'&Hget&_&Hpoints&_&_&_&_&_&Hwf).
  { unfold stays_safe, safe_sum, safe_integer.
    repeat split; vm_compute; discriminate. }
  exists s'. split; [exact Hget|]. split; [exact Hpoints|].
  apply Hwf.
  destruct (updateLeaderboard_accumulates [] (KStr "alice")
              (StatsUpdate.mk (Some "alice"%string) (Some 25%Z) (Some 1%Z)
                 (Some 0%Z) None))
    as (_&_&_&_&_&_&_&_&_&Hwf0).
  { unfold stays_safe, safe_sum, safe_integer.
    repeat split; vm_compute; discriminate. }
  apply Hwf0. split; constructor.
Defined.

(** ** getLeaderboard *)

Lemma insert_desc_perm e l : insert_desc e l ≡ₚ e :: l.
Proof.
  induction l as [|y l IH]; simpl; [done|].
  case_decide; [|done]. rewrite IH. apply Permutation_swap.
Qed.

Lemma sort_desc_perm l : sort_desc l ≡ₚ l.
Proof.
  induction l as [|e l IH]; simpl; [done|].
  by rewrite insert_desc_perm, IH.
Qed.

Lemma insert_desc_sorted e l :
  StronglySorted (λ a b, (Stats.points b ≤ Stats.points a)%Z) l →
  StronglySorted (λ a b, (Stats.points b ≤ Stats.points a)%Z)
    (insert_desc e l).
Proof.
  induction 1 as [|y l Hl IH Hy]; simpl.
  - repeat constructor.
  - case_decide as Hlt.
    + constructor; [done|]. rewrite insert_desc_perm.
      constructor; [lia|done].
    + constructor; [by constructor|].
      constructor; [lia|]. eapply Forall_impl; [exact Hy|].
      simpl. intros; lia.
Qed.

Lemma sort_desc_sorted l :
  StronglySorted (λ a b, (Stats.points b ≤ Stats.points a)%Z) (sort_desc l).
Proof.
  induction l as [|e l IH]; simpl; [constructor|].
  by apply insert_desc_sorted.
Qed.

(** Entries with the same points keep their order. *)
Lemma insert_desc_stable p e l :
  filter (λ x, Stats.points x = p) (insert_desc e l)
  = filter (λ x, Stats.points x = p) (e :: l).
Proof.
  induction l as [|y l IH]; simpl; [done|].
  case_decide as Hlt; [|done].
  rewrite filter_cons, IH, !filter_cons.
  destruct (decide (Stats.points y = p)), (decide (Stats.points e = p));
    try done; lia.
Qed.

Lemma sort_desc_stable p l :
  filter (λ x, Stats.points x = p) (sort_desc l)
  = filter (λ x, Stats.points x = p) l.
Proof.
  induction l as [|e l IH]; simpl; [done|].
  by rewrite insert_desc_stable, !filter_cons, IH.
Qed.

Lemma StronglySorted_take {A} (R : relation A) n l :
  StronglySorted R l → StronglySorted R (take n l).
Proof.
  intros Hl. revert n. induction Hl as [|x l Hl IH Hx]; intros [|n]; simpl;
    try constructor; [apply IH|].
  by apply Forall_take.
Qed.

Lemma getLeaderboard_entries gs limit :
  entry <$> getLeaderboard gs limit = slice0 limit (sort_desc (snd <$> gs)).
Proof.
  unfold getLeaderboard. apply list_eq. intros i.
  rewrite list_lookup_fmap, list_lookup_imap.
  by destruct (_ !! i).
Qed.

Lemma slice0_take {A} limit (l : list A) :
  ∃ n, slice0 limit l = take n l
       ∧ ((0 ≤ limit)%Z → n = Z.to_nat limit).
Proof.
  unfold slice0. case_decide as Hneg.
  - eexists. split; [done|]. intros Hpos. exfalso. lia.
  - eexists. split; [done|]. done.
Qed.

Lemma getLeaderboard_rank gs limit i e :
  getLeaderboard gs limit !! i = Some e → rank e = i + 1.
Proof.
  unfold getLeaderboard. rewrite list_lookup_imap.
  destruct (_ !! i); simpl; [|done]. by intros [= <-].
Qed.

Lemma getLeaderboard_length gs limit :
  (0 ≤ limit)%Z →
  length (getLeaderboard gs limit) = min (Z.to_nat limit) (length gs).
Proof.
  intros Hpos. rewrite <-(length_fmap entry), getLeaderboard_entries.
  destruct (slice0_take limit (sort_desc (snd <$> gs))) as (n&Hn&Hlimit).
  rewrite Hn, length_take, (Hlimit Hpos), sort_desc_perm, length_fmap. done.
Qed.

(** X12.  getLeaderboard returns the entries in order of falling points,
    entries with equal points in the order in which their users first
    appeared, numbered with ranks 1, 2, ...; for a limit ≥ 0 it returns
    min(limit, number of users) entries, and they are the head of the
    full ordering: together with the entries left out they are exactly
    the stored ones, and none left out has more points than one
    returned. *)
Theorem getLeaderboard_sorted gs limit :
  let lb := getLeaderboard gs limit in
  StronglySorted (λ a b, (Stats.points b ≤ Stats.points a)%Z) (entry <$> lb)
  ∧ (∀ i e, lb !! i = Some e → rank e = i + 1)
  ∧ ((0 ≤ limit)%Z → length lb = min (Z.to_nat limit) (length gs))
  ∧ (∃ rest,
       (entry <$> lb) ++ rest ≡ₚ snd <$> gs
       ∧ ∀ a b, a ∈ entry <$> lb → b ∈ rest →
                (Stats.points b ≤ Stats.points a)%Z)
  ∧ ((length gs ≤ Z.to_nat limit) →
     ∀ p, filter (λ x, Stats.points x = p) (entry <$> lb)
          = filter (λ x, Stats.points x = p) (snd <$> gs)).
Proof.
  intros lb. unfold lb. rewrite getLeaderboard_entries.
  destruct (slice0_take limit (sort_desc (snd <$> gs))) as (n&Hn&Hlimit).
  pose proof (sort_desc_sorted (snd <$> gs)) as Hsorted.
  pose proof (sort_desc_perm (snd <$> gs)) as Hperm.
  assert (length (sort_desc (snd <$> gs)) = length gs) as Hlen
      by (by rewrite Hperm, length_fmap).
  rewrite Hn. split; [by apply StronglySorted_take|]. split.
  { intros i e. unfold getLeaderboard. rewrite list_lookup_imap.
    destruct (_ !! i); simpl; [|done]. by intros [= <-]. }
  split.
  { intros Hpos. rewrite <-(length_fmap entry), getLeaderboard_entries, Hn.
    rewrite length_take, Hlen, (Hlimit Hpos). done. }
  split.
  { exists (drop n (sort_desc (snd <$> gs))). split.
    - by rewrite take_drop.
    - intros a b Ha Hb.
      rewrite <-(take_drop n (sort_desc (snd <$> gs))) in Hsorted.
      by apply (StronglySorted_app_1_elem_of _ _ _ a b Hsorted). }
  intros Hall p. destruct (decide (0 ≤ limit)%Z) as [Hpos|Hneg].
  - rewrite (Hlimit Hpos), take_ge by lia. apply sort_desc_stable.
  - destruct gs; [|simpl in Hall; lia]. simpl. by rewrite take_nil.
Qed.

Lemma getLeaderboard_sorted_witness :
  let gs :=
    updateLeaderboard
      (updateLeaderboard [] (KStr "alice")
         (StatsUpdate.mk (Some "alice"%string) (Some 25%Z) None None None))
      (KStr "bob")
      (StatsUpdate.mk (Some "bob"%string) (Some 50%Z) None None None) in
  length (getLeaderboard gs 1) = 1
  ∧ (Stats.username <$> (entry <$> getLeaderboard gs 1)) = ["bob"%string].
Proof.
  intros gs.
  destruct (getLeaderboard_sorted gs 1) as (_&_&Hlen&_).
  split; [apply Hlen; lia|reflexivity].
Defined.

(** ** getUserRank and getUserStats *)

Lemma find_none_iff {A} (f : A → bool) (l : list A) :
  find f l = None ↔ ∀ x, x ∈ l → f x = false.
Proof.
  induction l as [|y l IH]; simpl.
  - split; [intros _ x Hx; by apply elem_of_nil in Hx|done].
  - destruct (f y) eqn:Hy.
    + split; [done|]. intros Hall.
      rewrite (Hall y) in Hy by left. done.
    + rewrite IH. split.
      * intros Hall x [->|Hx]%elem_of_cons; [done|by apply Hall].
      * intros Hall x Hx. apply Hall. by right.
Qed.

Lemma find_some_elem {A} (f : A → bool) (l : list A) x :
  find f l = Some x → x ∈ l ∧ f x = true.
Proof.
  induction l as [|y l IH]; simpl; [done|].
  destruct (f y) eqn:Hy.
  - intros [= <-]. split; [left|done].
  - intros Hx. destruct (IH Hx). split; [by right|done].
Qed.

Lemma stats_wf_values gs x :
  stats_wf gs → x ∈ snd <$> gs → (Stats.userId x, x) ∈ gs.
Proof.
  intros [_ Hfields] ([k x'] & -> & Hin)%list_elem_of_fmap. simpl.
  pose proof (proj1 (Forall_forall _ _) Hfields _ Hin) as Hk.
  simpl in Hk. by rewrite Hk.
Qed.

Lemma NoDup_keys_functional (gs : list (JsKey * Stats.t)) k x y :
  NoDup (fst <$> gs) → (k, x) ∈ gs → (k, y) ∈ gs → x = y.
Proof.
  induction gs as [|[k0 v0] gs IH]; simpl.
  - intros _ Hx. by apply elem_of_nil in Hx.
  - intros [Hk0 Hnd]%NoDup_cons [[= -> ->]|Hx]%elem_of_cons
      [[= ->]|Hy]%elem_of_cons; try done.
    + exfalso. apply Hk0. apply list_elem_of_fmap. by exists (k0, y).
    + exfalso. apply Hk0. apply list_elem_of_fmap. by exists (k0, x).
    + by apply IH.
Qed.

Lemma getLeaderboard_elem gs limit e :
  e ∈ getLeaderboard gs limit → entry e ∈ snd <$> gs.
Proof.
  intros He. assert (entry e ∈ entry <$> getLeaderboard gs limit) as Hin
      by (apply list_elem_of_fmap; by exists e).
  rewrite getLeaderboard_entries in Hin.
  destruct (slice0_take limit (sort_desc (snd <$> gs))) as (n&Hn&_).
  rewrite Hn in Hin. apply (subseteq_take n) in Hin.
  by rewrite sort_desc_perm in Hin.
Qed.

(** X13.  In a well-formed Map of at most 10000 users, getUserRank of an
    id other than NaN is 0 if the user has no entry, and otherwise the
    1-based position of the user's own entry in the full leaderboard. *)
Theorem getUserRank_position gs userId :
  stats_wf gs →
  (Z.of_nat (length gs) ≤ 10000)%Z →
  userId ≠ KNaN →
  match map_get userId gs with
  | Some s =>
      1 ≤ getUserRank gs userId ≤ length gs
      ∧ getLeaderboard gs 10000 !! (getUserRank gs userId - 1)
        = Some (mkRanked s (getUserRank gs userId))
  | None => getUserRank gs userId = 0
  end.
Proof.
  intros Hwf Hlen Hnan. unfold getUserRank.
  destruct (map_get userId gs) as [s|] eqn:Hget.
  - apply map_get_Some in Hget.
    assert (s ∈ entry <$> getLeaderboard gs 10000) as Hs.
    { rewrite getLeaderboard_entries.
      destruct (slice0_take 10000 (sort_desc (snd <$> gs))) as (n&->&Hn).
      rewrite Hn by lia.
      rewrite take_ge
        by (rewrite sort_desc_perm, length_fmap; lia).
      rewrite sort_desc_perm. apply list_elem_of_fmap. by exists (userId, s). }
    apply list_elem_of_fmap in Hs as (e0&->&He0).
    assert (Stats.userId (entry e0) = userId) as Hid0.
    { destruct Hwf as [_ Hfields].
      by apply (proj1 (Forall_forall _ _) Hfields) in Hget. }
    destruct (find _ (getLeaderboard gs 10000)) as [e|] eqn:Hfind; cycle 1.
    { exfalso. rewrite find_none_iff in Hfind. specialize (Hfind e0 He0).
      unfold strict_eq in Hfind. rewrite Hid0 in Hfind.
      destruct userId; try done; by rewrite bool_decide_true in Hfind. }
    apply find_some_elem in Hfind as [He Hmatch].
    assert (Stats.userId (entry e) = userId) as Hid.
    { unfold strict_eq in Hmatch.
      destruct (Stats.userId (entry e)); try done;
        by apply bool_decide_eq_true in Hmatch. }
    assert (entry e = entry e0) as Hsame.
    { pose proof (stats_wf_values gs _ Hwf (getLeaderboard_elem _ _ _ He))
        as Hin. rewrite Hid in Hin.
      destruct Hwf as [Hnd _].
      apply (NoDup_keys_functional gs userId _ _ Hnd Hin Hget). }
    apply list_elem_of_lookup in He as [i Hi].
    pose proof (getLeaderboard_rank _ _ i e Hi) as Hr.
    pose proof (lookup_lt_Some _ _ _ Hi) as Hi'.
    rewrite getLeaderboard_length in Hi' by lia. rewrite Hr.
    split; [lia|]. replace (i + 1 - 1) with i by lia. rewrite Hi.
    f_equal. destruct e as [x r]. simpl in *. by rewrite Hsame, Hr.
  - destruct (find _ (getLeaderboard gs 10000)) as [e|] eqn:Hfind; [|done].
    exfalso. apply find_some_elem in Hfind as [He Hmatch].
    assert (Stats.userId (entry e) = userId) as Hid.
    { unfold strict_eq in Hmatch.
      destruct (Stats.userId (entry e)); try done;
        by apply bool_decide_eq_true in Hmatch. }
    pose proof (stats_wf_values gs _ Hwf (getLeaderboard_elem _ _ _ He))
      as Hin. rewrite Hid in Hin.
    apply (map_get_None userId gs Hget).
    apply list_elem_of_fmap. by exists (userId, entry e).
Qed.

(** X14.  Number lookups never find string keys.  getUserStats looks the
    user up under parseInt(userId), a number, and the stats route asks
    getUserRank for that number: when every entry is stored under a
    string id (what the result route stores for a string winnerId), both
    answer as for an unknown user, the defaults with rank 0 and the rank
    0, whatever parseInt yields. *)
Theorem string_keys_not_found gs userId parsed :
  Forall (λ kv, ∃ str, kv.1 = KStr str ∧ Stats.userId kv.2 = KStr str) gs →
  getUserStats gs userId parsed
    = (Stats.mk userId "Unknown" 0 0 0 0, Some 0)
  ∧ getUserRank gs (number parsed) = 0.
Proof.
  intros Hstr. split.
  - unfold getUserStats.
    destruct (map_get (number parsed) gs) as [s|] eqn:Hget; [|done].
    apply map_get_Some in Hget.
    apply (proj1 (Forall_forall _ _) Hstr) in Hget as (str&Hk&_).
    simpl in Hk. by destruct parsed.
  - unfold getUserRank.
    destruct (find _ (getLeaderboard gs 10000)) as [e|] eqn:Hfind; [|done].
    exfalso. apply find_some_elem in Hfind as [He Hmatch].
    apply getLeaderboard_elem, list_elem_of_fmap in He as ([k s]&Hs&Hin).
    apply (proj1 (Forall_forall _ _) Hstr) in Hin as (str&_&Hid).
    simpl in Hs, Hid. rewrite Hs, Hid in Hmatch. unfold strict_eq in Hmatch.
    apply bool_decide_eq_true in Hmatch. by destruct parsed.
Qed.

Lemma getUserRank_position_witness :
  1 ≤ getUserRank sample_stats (KStr "alice") ≤ length sample_stats
  ∧ getLeaderboard sample_stats 10000
      !! (getUserRank sample_stats (KStr "alice") - 1)
    = Some (mkRanked (Stats.mk (KStr "alice") "alice" 25 1 0 0)
              (getUserRank sample_stats (KStr "alice"))).
Proof.
  assert (stats_wf sample_stats) as Hwf.
  { split.
    - vm_compute. repeat constructor; set_solver.
    - vm_compute. repeat constructor. }
  assert (Z.of_nat (length sample_stats) ≤ 10000)%Z as Hlen
      by (vm_compute; discriminate).
  assert (KStr "alice" ≠ KNaN) as Hnan by discriminate.
  exact (getUserRank_position sample_stats (KStr "alice") Hwf Hlen Hnan).
Defined.

Lemma string_keys_not_found_witness :
  getUserStats sample_stats (KStr "7") (Some 7%Z)
    = (Stats.mk (KStr "7") "Unknown" 0 0 0 0, Some 0)
  ∧ getUserRank sample_stats (number (Some 7%Z)) = 0.
Proof.
  apply (string_keys_not_found sample_stats (KStr "7") (Some 7%Z)).
  vm_compute. repeat constructor; eexists; (split; reflexivity).
Defined.

(** ** The chat rooms *)

Lemma take_app_take {A} n (l k : list A) :
  take n (l ++ take n k) = take n (l ++ k).
Proof.
  rewrite !take_app, take_take. do 2 f_equal. lia.
Qed.

Lemma drop_window {A} (l sent : list A) :
  let kept := drop (length l - 100) l in
  drop (length (kept ++ sent) - 100) (kept ++ sent)
  = drop (length (l ++ sent) - 100) (l ++ sent).
Proof.
  intros kept. unfold kept.
  rewrite <-(drop_app_le l sent) by lia.
  rewrite drop_drop. f_equal.
  rewrite length_drop, !length_app. lia.
Qed.

Lemma sendChatMessage_found {U} (chatRooms : gmap string (Room U))
    tournamentId room userId message type now :
  chatRooms !! tournamentId = Some room →
  length (messages room) ≤ 100 →
  let chatMsg :=
    mkChatMessage (length (messages room) + 1) userId message
      (default "text"%string type) now in
  let pushed := messages room ++ [chatMsg] in
  sendChatMessage chatRooms tournamentId userId message type now
  = (<[tournamentId :=
         mkRoom (participants room) (drop (length pushed - 100) pushed)]>
       chatRooms,
     Some chatMsg).
Proof.
  intros Hroom Hlen chatMsg pushed. unfold sendChatMessage. rewrite Hroom.
  cbv zeta. fold chatMsg. fold pushed. do 3 f_equal.
  assert (length pushed = length (messages room) + 1) as Hp
      by (unfold pushed; rewrite length_app; simpl; lia).
  destruct (decide (100 < length pushed)) as [Hfull|Hroomy].
  - replace (length pushed - 100) with 1 by lia.
    by destruct pushed.
  - by replace (length pushed - 100) with 0 by lia.
Qed.

(** X15.  A room of at most 100 messages, after any sequence of
    sendChatMessage calls: every call returns its message (sender, text,
    type with the default 'text', clock reading as given), the room holds
    the last 100 of the old messages followed by the new ones, in order,
    participants and the other rooms are as before, and the k-th new
    message got the id min(old length + k, 100) + 1: once the room is
    full every further message gets the id 101. *)
Theorem chat_history_window {U} (chatRooms : gmap string (Room U))
    tournamentId room posts :
  chatRooms !! tournamentId = Some room →
  length (messages room) ≤ 100 →
  ∃ sent room',
    sendAll chatRooms tournamentId posts
    = (<[tournamentId := room']> chatRooms, Some <$> sent)
    ∧ participants room' = participants room
    ∧ Forall2 (λ p m,
                 msg_userId m = post_userId p
                 ∧ msg_message m = post_message p
                 ∧ msg_type m = default "text"%string (post_type p)
                 ∧ msg_timestamp m = post_now p) posts sent
    ∧ (∀ k m, sent !! k = Some m →
              msg_id m = min (length (messages room) + k) 100 + 1)
    ∧ messages room'
      = drop (length (messages room ++ sent) - 100) (messages room ++ sent)
    ∧ length (messages room')
      = min (length (messages room) + length posts) 100.
Proof.
  revert chatRooms room.
  induction posts as [|p rest IH]; intros chatRooms room Hroom Hlen.
  - exists [], room. simpl. rewrite insert_id by done.
    split; [done|]. split; [done|]. split; [constructor|].
    split; [by intros k m; rewrite lookup_nil|].
    rewrite app_nil_r. replace (length (messages room) - 100) with 0 by lia.
    split; [done|lia].
  - cbn [sendAll].
    rewrite (sendChatMessage_found _ _ room) by done. cbv zeta.
    set (chatMsg := mkChatMessage _ _ _ _ _).
    set (pushed := messages room ++ [chatMsg]).
    set (room1 := mkRoom _ _).
    assert (length pushed = length (messages room) + 1) as Hp
        by (unfold pushed; rewrite length_app; simpl; lia).
    assert (length (messages room1) = min (length (messages room) + 1) 100)
      as Hlen1
        by (unfold room1; cbn [messages]; rewrite length_drop; lia).
    destruct (IH (<[tournamentId := room1]> chatRooms) room1)
      as (sent&room'&Hsend&Hparts&Hfields&Hids&Hmsgs&Hcount).
    { by rewrite lookup_insert_eq. }
    { lia. }
    rewrite Hsend. exists (chatMsg :: sent), room'.
    split; [by rewrite insert_insert_eq|].
    split; [by rewrite Hparts|].
    split; [by constructor|].
    split.
    { intros [|k] m; simpl.
      - intros [= <-]. unfold chatMsg. cbn [msg_id]. lia.
      - intros Hm. rewrite (Hids k m Hm), Hlen1. lia. }
    split.
    { rewrite Hmsgs. unfold room1. cbn [messages].
      rewrite (drop_window pushed sent). unfold pushed.
      by rewrite <-app_assoc. }
    rewrite Hcount, Hlen1. simpl. lia.
Qed.

Lemma chat_history_window_witness :
  ∃ sent room',
    sendAll sample_rooms "t1" sample_posts
    = (<["t1"%string := room']> sample_rooms, Some <$> sent)
    ∧ length (messages room') = 2.
Proof.
  destruct (chat_history_window sample_rooms "t1"
              (mkRoom ["ann"%string] []) sample_posts)
    as (sent&room'&Hsend&_&_&_&_&Hcount).
  - reflexivity.
  - simpl. lia.
  - exists sent, room'. split; [exact Hsend|exact Hcount].
Defined.

(** X16.  getChatHistory answers with a suffix of the room's messages:
    for a limit > 0 the last min(limit, length) of them, for the limit 0
    all of them, for a limit < 0 all but the first -limit; an unknown
    room gives the empty list.  The limit of the history route, which
    replaces 0 and NaN by 50, is never 0. *)
Theorem getChatHistory_suffix {U} (chatRooms : gmap string (Room U))
    tournamentId limit :
  let history := getChatHistory chatRooms tournamentId limit in
  match chatRooms !! tournamentId with
  | None => history = []
  | Some room =>
      let n := length (messages room) in
      history `suffix_of` messages room
      ∧ ((0 < limit)%Z →
         history = drop (n - Z.to_nat limit) (messages room)
         ∧ length history = min (Z.to_nat limit) n)
      ∧ (limit = 0%Z → history = messages room)
      ∧ ((limit < 0)%Z →
         history = drop (Z.to_nat (- limit)) (messages room))
      ∧ ∀ parsed, limit = history_limit parsed → limit ≠ 0%Z
  end.
Proof.
  intros history. unfold history, getChatHistory.
  destruct (chatRooms !! tournamentId) as [room|]; [|done].
  cbv zeta. unfold slice_from. split.
  { destruct (decide _); apply suffix_drop. }
  split.
  { intros Hpos. rewrite decide_True by lia.
    replace (Z.to_nat (Z.max (Z.of_nat (length (messages room)) + - limit) 0))
      with (length (messages room) - Z.to_nat limit) by lia.
    split; [done|]. rewrite length_drop. lia. }
  split.
  { intros ->. by rewrite decide_False by lia. }
  split.
  { intros Hneg. by rewrite decide_False by lia. }
  intros parsed ->. unfold history_limit.
  destruct parsed as [z|]; [|done]. by destruct (decide (z = 0)%Z).
Qed.

Lemma getChatHistory_suffix_witness :
  getChatHistory (sendAll sample_rooms "t1" sample_posts).1 "t1" 1
  = [mkChatMessage 2 "bob"%string "gg"%string "emote"%string 6].
Proof.
  pose proof (getChatHistory_suffix
                (sendAll sample_rooms "t1" sample_posts).1 "t1" 1) as H.
  cbv zeta in H.
  assert ((sendAll sample_rooms "t1" sample_posts).1 !! "t1"%string
          = Some (mkRoom ["ann"%string]
                    [mkChatMessage 1 "ann"%string "hello"%string
                       "text"%string 5;
                     mkChatMessage 2 "bob"%string "gg"%string
                       "emote"%string 6])) as Hroom by reflexivity.
  rewrite Hroom in H. destruct H as (_&Hlast&_).
  destruct Hlast as [-> _]; [lia|]. reflexivity.
Defined.

Lemma set_add_elem {U} `{EqDecision U} (x y : U) s :
  y ∈ set_add x s ↔ y = x ∨ y ∈ s.
Proof.
  unfold set_add. destruct (decide (x ∈ s)).
  - split; [by right|]. by intros [->|].
  - rewrite elem_of_app, list_elem_of_singleton. tauto.
Qed.

Lemma set_add_NoDup {U} `{EqDecision U} (x : U) s :
  NoDup s → NoDup (set_add x s).
Proof.
  intros Hnd. unfold set_add. destruct (decide (x ∈ s)); [done|].
  apply NoDup_app. split; [done|]. split; [|apply NoDup_singleton].
  intros y Hy ->%list_elem_of_singleton. done.
Qed.

(** X17.  joinTournamentChat makes the room when there is none, puts the
    given userId among its participants, once however often that value
    joins (participants is a Set), leaves the room's messages and every
    other room alone, and a second join with the same userId changes
    nothing. *)
Theorem joinTournamentChat_idempotent {U} `{EqDecision U}
    (chatRooms : gmap string (Room U)) tournamentId (userId : U) :
  let joined := joinTournamentChat chatRooms tournamentId userId in
  let before := default (mkRoom [] []) (chatRooms !! tournamentId) in
  joined.1 !! tournamentId = Some joined.2
  ∧ (∀ u, u ∈ participants joined.2 ↔ u = userId ∨ u ∈ participants before)
  ∧ (NoDup (participants before) → NoDup (participants joined.2))
  ∧ messages joined.2 = messages before
  ∧ (∀ other, other ≠ tournamentId → joined.1 !! other = chatRooms !! other)
  ∧ joinTournamentChat joined.1 tournamentId userId = joined.
Proof.
  intros joined before. unfold joined, joinTournamentChat. cbv zeta.
  fold before. cbn [fst snd].
  split; [by rewrite lookup_insert_eq|].
  split; [intros u; apply set_add_elem|].
  split; [apply set_add_NoDup|].
  split; [done|].
  split; [by intros other Hother; rewrite lookup_insert_ne|].
  rewrite lookup_insert_eq. cbn [default from_option id participants messages].
  rewrite insert_insert_eq.
  assert (set_add userId (set_add userId (participants before))
          = set_add userId (participants before)) as ->; [|done].
  unfold set_add at 1. rewrite decide_True; [done|].
  apply set_add_elem. by left.
Qed.

Lemma joinTournamentChat_idempotent_witness :
  NoDup (participants (joinTournamentChat sample_rooms "t1" "bob"%string).2).
Proof.
  apply (joinTournamentChat_idempotent sample_rooms "t1" "bob"%string).
  vm_compute. repeat constructor; set_solver.
Defined.

(** X18.  sendChatMessage returns null exactly when nobody has joined the
    room, and then changes nothing; it makes no room, and leaves the
    other rooms and the participants of its own as they are. *)
Theorem sendChatMessage_needs_room {U} (chatRooms : gmap string (Room U))
    tournamentId userId message type now :
  let sending :=
    sendChatMessage chatRooms tournamentId userId message type now in
  (sending.2 = None ↔ chatRooms !! tournamentId = None)
  ∧ (sending.2 = None → sending.1 = chatRooms)
  ∧ dom sending.1 = dom chatRooms
  ∧ (∀ other, other ≠ tournamentId →
              sending.1 !! other = chatRooms !! other)
  ∧ participants <$> sending.1 !! tournamentId
    = participants <$> chatRooms !! tournamentId.
Proof.
  intros sending. unfold sending, sendChatMessage.
  destruct (chatRooms !! tournamentId) as [room|] eqn:Hroom; cbn [fst snd].
  - split; [done|]. split; [done|].
    split.
    { rewrite dom_insert_L.
      assert (tournamentId ∈ dom chatRooms) by (by apply elem_of_dom).
      set_solver. }
    split; [by intros other Hother; rewrite lookup_insert_ne|].
    by rewrite lookup_insert_eq.
  - rewrite Hroom. done.
Qed.

Lemma sendChatMessage_needs_room_witness :
  (sendChatMessage sample_rooms "t2" "ann"%string "hello" None 5).1
  = sample_rooms.
Proof.
  apply (sendChatMessage_needs_room sample_rooms "t2" "ann"%string
           "hello"%string None 5).
  reflexivity.
Defined.

(** ** The activity log *)

Lemma logActivity_take log activity user details now :
  length log ≤ 100 →
  logActivity log activity user details now
  = take 100
      (mkActivity (length log + 1) now activity user details :: log).
Proof.
  intros Hlen. unfold logActivity. cbv zeta.
  destruct (decide _) as [Hfull|Hroomy]; simpl in *.
  - replace (length log - 0) with 100 by lia. done.
  - rewrite firstn_all2; [done|]. simpl. lia.
Qed.

(** X19.  A log of at most 100 entries, after any sequence of
    logActivity calls, is the first 100 of: the new entries, newest
    first, followed by the old log.  The k-th new entry has the fields
    of its call and the id min(old length + k, 100) + 1: once the log is
    full every new entry gets the id 101. *)
Theorem activity_log_window log calls :
  length log ≤ 100 →
  ∃ added,
    Forall2 (λ c a,
               act_activity a = call_activity c
               ∧ act_user a = call_user c
               ∧ act_details a = call_details c
               ∧ act_time a = call_now c) calls added
    ∧ (∀ k a, added !! k = Some a →
              act_id a = min (length log + k) 100 + 1)
    ∧ logAll log calls = take 100 (reverse added ++ log)
    ∧ length (logAll log calls) = min (length log + length calls) 100.
Proof.
  revert log. induction calls as [|c rest IH]; intros log Hlen.
  - exists []. split; [constructor|].
    split; [by intros k a; rewrite lookup_nil|].
    simpl. rewrite firstn_all2 by lia. split; [done|lia].
  - unfold logAll. cbn [foldl]. fold (logAll
      (logActivity log (call_activity c) (call_user c) (call_details c)
         (call_now c)) rest).
    rewrite logActivity_take by done.
    set (a := mkActivity _ _ _ _ _).
    assert (length (take 100 (a :: log)) = min (length log + 1) 100)
      as Hlen1 by (rewrite length_take; cbn [length]; lia).
    destruct (IH (take 100 (a :: log))) as (added&Hfields&Hids&Hlog&Hcount);
      [lia|].
    exists (a :: added).
    split; [by constructor|].
    split.
    { intros [|k] a'; simpl.
      - intros [= <-]. unfold a. cbn [act_id]. lia.
      - intros Ha. rewrite (Hids k a' Ha), Hlen1. lia. }
    split.
    { rewrite Hlog, take_app_take, reverse_cons, <-app_assoc. done. }
    rewrite Hcount, Hlen1. simpl. lia.
Qed.

Lemma activity_log_window_witness :
  length (logAll [] [mkLogCall "User login" "ann" "User logged in" 3]) = 1.
Proof.
  destruct (activity_log_window []
              [mkLogCall "User login" "ann" "User logged in" 3])
    as (added&_&_&_&Hcount).
  - simpl. lia.
  - exact Hcount.
Defined.

(** ** Teams *)

Lemma teams_asked_ids {U} n (calls : list (TeamCall U)) :
  team_id <$> teams_asked n calls
  = seq (n + 1) (length (teams_asked n calls)).
Proof.
  revert n. induction calls as [|c rest IH]; intros n; [done|].
  destruct c; cbn [teams_asked]; [|apply IH..].
  cbn [fmap list_fmap length seq team_id]. f_equal.
  change (list_fmap _ _ team_id ?l) with (team_id <$> l).
  rewrite IH. f_equal. lia.
Qed.

Lemma teams_asked_members {U} n (calls : list (TeamCall U)) :
  Forall (λ t, member_userId <$> members t = [captainId t]
               ∧ member_role <$> members t = ["captain"%string])
    (teams_asked n calls).
Proof.
  revert n. induction calls as [|c rest IH]; intros n; [constructor|].
  destruct c; cbn [teams_asked]; [|apply IH..].
  constructor; [done|apply IH].
Qed.

Lemma team_calls_no_invites {U} (strict_eq : U → U → bool) calls :
  ∀ s, teamInvites s = [] →
       ∃ s' answers,
         team_calls strict_eq s calls = (s', answers)
         ∧ teamInvites s' = []
         ∧ Forall fruitless answers
         ∧ teams s' = teams s ++ teams_asked (length (teams s)) calls.
Proof.
  induction calls as [|c rest IH]; intros s Hs.
  - exists s, []. by rewrite app_nil_r.
  - cbn [team_calls]. destruct c as [u name d j cr|tid snd inv|iid uid u now].
    + cbn [team_call createTeam].
      set (team := mkTeam _ _ _ _ _ _ _ _).
      destruct (IH (mkSocial (teams s ++ [team]) (teamInvites s)) Hs)
        as (s'&answers&Hrun&Hinv&Hans&Hteams).
      rewrite Hrun. exists s', (created team :: answers).
      split; [done|]. split; [done|]. split; [by constructor|].
      cbn [teams] in Hteams. rewrite Hteams, length_app, <-app_assoc. done.
    + destruct (IH s Hs) as (s'&answers&Hrun&Hinv&Hans&Hteams).
      cbn [team_call]. unfold inviteToTeam.
      destruct (find _ (teams s)) as [team|];
        [destruct (negb _)|]; rewrite Hrun;
        eexists _, _; (split; [done|]);
        (split; [done|]); (split; [by constructor|done]).
    + destruct (IH s Hs) as (s'&answers&Hrun&Hinv&Hans&Hteams).
      cbn [team_call]. unfold acceptTeamInvite. rewrite Hs. cbn [find].
      rewrite Hrun. exists s', (answered accept_null :: answers).
      split; [done|]. split; [done|]. split; [by constructor|done].
Qed.

(** X20.  Whatever calls of createTeam, inviteToTeam and
    acceptTeamInvite a manager has served since it was made, and however
    ids compare: no invite exists, no inviteToTeam call has returned an
    invite (each returned null or threw the ReferenceError), every
    acceptTeamInvite call has returned null, and the teams are the
    created ones in order, with ids 1, 2, ... and the captain as the one
    member. *)
Theorem teams_keep_only_captain {U} (strict_eq : U → U → bool)
    (calls : list (TeamCall U)) :
  ∃ s answers,
    team_calls strict_eq (mkSocial [] []) calls = (s, answers)
    ∧ teamInvites s = []
    ∧ Forall fruitless answers
    ∧ teams s = teams_asked 0 calls
    ∧ team_id <$> teams s = seq 1 (length (teams s))
    ∧ Forall (λ t, member_userId <$> members t = [captainId t]
                   ∧ member_role <$> members t = ["captain"%string])
        (teams s).
Proof.
  destruct (team_calls_no_invites strict_eq calls (mkSocial [] []) eq_refl)
    as (s&answers&Hrun&Hinv&Hans&Hteams).
  exists s, answers. cbn [teams length app] in Hteams.
  split; [done|]. split; [done|]. split; [done|]. split; [done|].
  rewrite Hteams. split; [apply (teams_asked_ids 0)|apply teams_asked_members].
Qed.

(** X21.  inviteToTeam never changes the manager and never returns an
    invite: it throws the ReferenceError exactly when a team has the
    given id and the first such team has the sender as captain, and
    returns null otherwise. *)
Theorem inviteToTeam_throws_iff {U} (strict_eq : U → U → bool) (s : Social U)
    teamId_is senderId inviteeId :
  let call := inviteToTeam strict_eq s teamId_is senderId inviteeId in
  (call = ReferenceError ∨ call = Normal (s, None))
  ∧ (call = ReferenceError
     ↔ ∃ i team,
         teams s !! i = Some team
         ∧ teamId_is (team_id team) = true
         ∧ (∀ j other, j < i → teams s !! j = Some other →
                       teamId_is (team_id other) = false)
         ∧ strict_eq (captainId team) senderId = true).
Proof.
  intros call. unfold call, inviteToTeam.
  induction (teams s) as [|t rest IH].
  - cbn [find]. split; [by right|]. split; [done|].
    intros (i&team&Hi&_). by rewrite lookup_nil in Hi.
  - cbn [find].
    destruct (teamId_is (team_id t)) eqn:Ht.
    + destruct (strict_eq (captainId t) senderId) eqn:Hcap; cbn [negb].
      * split; [by left|]. split; [|done]. intros _.
        exists 0, t. split; [done|]. split; [done|]. split; [|done].
        intros j other Hj. lia.
      * split; [by right|]. split; [done|].
        intros ([|i]&team&Hi&Hteam&Hfirst&Hcapt).
        -- simpl in Hi. injection Hi as <-. congruence.
        -- specialize (Hfirst 0 t). simpl in Hfirst.
           assert (0 < S i) as Hlt by lia.
           specialize (Hfirst Hlt eq_refl). congruence.
    + destruct IH as [Hcases Hiff]. split; [done|].
      rewrite Hiff. split.
      * intros (i&team&Hi&Hteam&Hfirst&Hcapt).
        exists (S i), team. split; [done|]. split; [done|]. split; [|done].
        intros [|j] other Hj; simpl.
        -- by intros [= <-].
        -- apply Hfirst. lia.
      * intros ([|i]&team&Hi&Hteam&Hfirst&Hcapt).
        -- simpl in Hi. injection Hi as <-. congruence.
        -- exists i, team. split; [done|]. split; [done|]. split; [|done].
           intros j other Hj Hother. apply (Hfirst (S j) other); [lia|done].
Qed.

(** ** Friends *)

Lemma update_first_fmap {A B} (g : A → B) (test : A → bool) (f : A → A) l :
  (∀ x, g (f x) = g x) → g <$> update_first test f l = g <$> l.
Proof.
  intros Hg. induction l as [|x rest IH]; [done|].
  cbn [update_first]. destruct (test x); cbn [fmap list_fmap].
  - by rewrite Hg.
  - f_equal. apply IH.
Qed.

Lemma update_first_accepted {U} (wanted : FriendRequest U → bool) l r :
  (∀ x, wanted x = true → request_status x = invite_pending) →
  find wanted l = Some r →
  filter (λ r, request_status r = invite_accepted) (update_first wanted accept l)
  ≡ₚ accept r :: filter (λ r, request_status r = invite_accepted) l.
Proof.
  intros Hpending. induction l as [|x rest IH]; [done|].
  cbn [find update_first]. destruct (wanted x) eqn:Hx.
  - intros [= <-]. rewrite filter_cons_True by done.
    rewrite (filter_cons_False _ x rest); [done|].
    rewrite (Hpending x Hx). done.
  - intros Hfind. specialize (IH Hfind).
    destruct (decide (request_status x = invite_accepted)) as [Hacc|Hacc].
    + rewrite !(filter_cons_True _ x) by done. rewrite IH. apply Permutation_swap.
    + rewrite !(filter_cons_False _ x) by done. done.
Qed.

Lemma request_core_lookup {U} (l l' : list (FriendRequest U)) i r' :
  (λ r, (request_senderId r, request_receiverId r)) <$> l'
  = (λ r, (request_senderId r, request_receiverId r)) <$> l →
  l' !! i = Some r' →
  ∃ r, l !! i = Some r
       ∧ request_senderId r = request_senderId r'
       ∧ request_receiverId r = request_receiverId r'.
Proof.
  intros Hcore Hi.
  assert (((λ r, (request_senderId r, request_receiverId r)) <$> l) !! i
          = Some (request_senderId r', request_receiverId r')) as Hl
      by (by rewrite <-Hcore, list_lookup_fmap, Hi).
  rewrite list_lookup_fmap in Hl.
  destruct (l !! i) as [r|]; [|done]. exists r.
  simpl in Hl. injection Hl as Hs Hr. done.
Qed.

Lemma sendFriendRequest_inv {U} (strict_eq : U → U → bool) s senderId
    receiverId now :
  friends_inv strict_eq s →
  friends_inv strict_eq (sendFriendRequest strict_eq s senderId receiverId now).1.
Proof.
  intros (Hids&Hself&Hpairs&Hfriends). unfold sendFriendRequest.
  destruct (strict_eq senderId receiverId) eqn:Hsame; [done|].
  destruct (find _ (friendRequests s)) as [existing|] eqn:Hfind; [done|].
  cbv zeta. set (request := mkRequest _ _ _ _ _).
  unfold friends_inv. cbn [fst friendRequests friends].
  rewrite find_none_iff in Hfind.
  split; [|split; [|split]].
  - rewrite fmap_app, length_app, Hids. cbn [length fmap list_fmap].
    rewrite seq_app. cbn [seq request_id request]. do 2 f_equal. lia.
  - intros r [Hr| ->%list_elem_of_singleton]%elem_of_app; [by apply Hself|done].
  - intros i j earlier later Hij Hi Hj.
    destruct (decide (j < length (friendRequests s))) as [Hold|Hnew].
    + rewrite lookup_app_l in Hi, Hj by lia. by apply (Hpairs i j).
    + rewrite lookup_app_r in Hj by lia.
      apply list_lookup_singleton_Some in Hj as [Hj <-].
      rewrite lookup_app_l in Hi by lia.
      apply Hfind. by apply list_elem_of_lookup_2 in Hi.
  - rewrite filter_app, (filter_cons_False _ request []) by done.
    by rewrite filter_nil, app_nil_r.
Qed.

Lemma acceptFriendRequest_inv {U} (strict_eq : U → U → bool) s requestId_is
    userId_is now :
  friends_inv strict_eq s →
  friends_inv strict_eq (acceptFriendRequest s requestId_is userId_is now).1.
Proof.
  intros (Hids&Hself&Hpairs&Hfriends). unfold acceptFriendRequest.
  cbv zeta. set (wanted := λ r : FriendRequest U, _).
  destruct (find wanted (friendRequests s)) as [request|] eqn:Hfind;
    [|done].
  unfold friends_inv. cbn [fst friendRequests friends].
  assert ((λ r, (request_senderId r, request_receiverId r))
            <$> update_first wanted accept (friendRequests s)
          = (λ r, (request_senderId r, request_receiverId r))
              <$> friendRequests s) as Hcore
      by (by apply update_first_fmap).
  split; [|split; [|split]].
  - rewrite <-(length_fmap request_id), !update_first_fmap by done.
    by rewrite length_fmap.
  - intros r' [i Hi]%list_elem_of_lookup.
    destruct (request_core_lookup _ _ i r' Hcore Hi) as (r&Hr&<-&<-).
    apply Hself. by apply list_elem_of_lookup_2 in Hr.
  - intros i j earlier later Hij Hi Hj.
    destruct (request_core_lookup _ _ i _ Hcore Hi) as (r1&Hr1&Hs1&Hv1).
    destruct (request_core_lookup _ _ j _ Hcore Hj) as (r2&Hr2&<-&<-).
    pose proof (Hpairs i j r1 r2 Hij Hr1 Hr2) as Hno.
    unfold same_pair in *. by rewrite <-Hs1, <-Hv1.
  - rewrite fmap_app, Hfriends.
    rewrite (update_first_accepted wanted _ request); [|
      |done].
    + cbn [fmap list_fmap accept request_senderId request_receiverId
             userId1 userId2].
      by rewrite <-Permutation_cons_append.
    + intros x Hx. unfold wanted in Hx.
      apply andb_prop in Hx as [_ Hx]. by apply bool_decide_eq_true in Hx.
Qed.

(** X22.  Whatever sequence of sendFriendRequest and acceptFriendRequest
    calls a new SocialManager serves, and however ids compare: the
    requests have the ids 1, 2, ... in order, none is from a user to the
    same user, no request is between the two users of an earlier one (in
    either direction), and the friendships are, one for one, the accepted
    requests with their sender and receiver: no pair of users is
    befriended twice. *)
Theorem friendships_follow_requests {U} (strict_eq : U → U → bool)
    (calls : list (FriendCall U)) :
  let s := friend_calls strict_eq (mkFriends [] []) calls in
  request_id <$> friendRequests s = seq 1 (length (friendRequests s))
  ∧ (∀ r, r ∈ friendRequests s →
          strict_eq (request_senderId r) (request_receiverId r) = false)
  ∧ (∀ i j earlier later,
       i < j →
       friendRequests s !! i = Some earlier →
       friendRequests s !! j = Some later →
       same_pair strict_eq (request_senderId later)
         (request_receiverId later) earlier = false)
  ∧ (λ f, (userId1 f, userId2 f)) <$> friends s
    ≡ₚ (λ r, (request_senderId r, request_receiverId r))
       <$> filter (λ r, request_status r = invite_accepted)
             (friendRequests s).
Proof.
  intros s. change (friends_inv strict_eq s). unfold s, friend_calls.
  assert (friends_inv strict_eq (mkFriends ([] : list (FriendRequest U)) []))
    as Hstart.
  { unfold friends_inv. cbn [friendRequests friends].
    split; [done|]. split; [by intros r Hr; apply elem_of_nil in Hr|].
    split; [by intros i j ?? _; rewrite lookup_nil|done]. }
  revert Hstart. generalize (mkFriends ([] : list (FriendRequest U)) []).
  induction calls as [|c rest IH]; intros s0 Hinv; [done|].
  cbn [foldl]. apply IH. destruct c.
  - by apply sendFriendRequest_inv.
  - by apply acceptFriendRequest_inv.
Qed.
